(** * A shallow embedding of the Sudoku engine of [solver.py]

    The engine works on a Python list of lists of integers (the puzzle),
    mutated in place, and on a dictionary from row numbers to lists of
    column numbers (the cells given at the start).  Python integers are
    unbounded: they are modelled by [Z].  A list is indexed the way Python
    does it (a negative index counts from the end, anything else out of
    range raises [IndexError]); a dictionary lookup of a missing key raises
    [KeyError].  The rows of the puzzle are distinct list objects, as
    [app.py] builds them.  Every [while] loop takes fuel. *)

From Stdlib Require Import ZArith Lia.
From stdpp Require Import base option list list_numbers gmap.

Open Scope Z_scope.

(** ** Results of Python expressions *)

(** [KeyError] carries the missing key, as Python reports it. *)
Inductive exn := KeyError (key : Z) | IndexError.

Inductive result (A : Type) :=
| Ok (a : A)
| Raise (e : exn)
| OutOfFuel.
Arguments Ok {A} a.
Arguments Raise {A} e.
Arguments OutOfFuel {A}.

#[global] Instance result_ret : MRet result := λ A a, Ok a.
#[global] Instance result_bind : MBind result := λ A B k m,
  match m with
  | Ok a => k a
  | Raise e => Raise e
  | OutOfFuel => OutOfFuel
  end.

(** ** Python lists and the puzzle *)

Abbreviation grid := (list (list Z)).

(** [l[i]] *)
Definition py_index {A} (l : list A) (i : Z) : result A :=
  let n := Z.of_nat (length l) in
  let j := if i <? 0 then i + n else i in
  if (0 <=? j) && (j <? n) then
    match l !! Z.to_nat j with
    | Some x => Ok x
    | None => Raise IndexError
    end
  else Raise IndexError.

(** [l[i] = x] *)
Definition py_store {A} (l : list A) (i : Z) (x : A) : result (list A) :=
  let n := Z.of_nat (length l) in
  let j := if i <? 0 then i + n else i in
  if (0 <=? j) && (j <? n) then Ok (<[Z.to_nat j := x]> l)
  else Raise IndexError.

(** [x in l] *)
Definition py_in (x : Z) (l : list Z) : bool := bool_decide (x ∈ l).

(** [puzzle[row][col]] *)
Definition get_cell (puzzle : grid) (row col : Z) : result Z :=
  r ← py_index puzzle row; py_index r col.

(** [puzzle[row][col] = v]: the row object is looked up, then updated in
    place; the puzzle keeps pointing to it. *)
Definition set_cell (puzzle : grid) (row col v : Z) : result grid :=
  r ← py_index puzzle row;
  r' ← py_store r col v;
  py_store puzzle row r'.

(** Appends [f x] for every [x] of [xs], in order, stopping at the first
    exception. *)
Fixpoint collect {A B} (f : A → result B) (xs : list A) : result (list B) :=
  match xs with
  | [] => Ok []
  | x :: xs => v ← f x; vs ← collect f xs; Ok (v :: vs)
  end.

(** ** Constraint extraction *)

Definition current_col (puzzle : grid) (col_num : Z) : result (list Z) :=
  collect (λ row, get_cell puzzle row col_num)
          (seqZ 0 (Z.of_nat (length puzzle))).

(** The cells visited by the two nested loops of [current_grid]. *)
Definition grid_cells (start_row start_col : Z) : list (Z * Z) :=
  row ← seqZ start_row 3; col ← seqZ start_col 3; [(row, col)].

Definition current_grid (puzzle : grid) (row_num col_num : Z) : result (list Z) :=
  let start_row := row_num - (row_num `mod` 3) in
  let start_col := col_num - (col_num `mod` 3) in
  collect (λ p, get_cell puzzle p.1 p.2) (grid_cells start_row start_col).

(** ** Candidate selection *)

(** [while chosen_num in row or chosen_num in col or chosen_num in grid:
      chosen_num += 1] *)
Fixpoint pick_loop (fuel : nat) (row col grd : list Z) (chosen_num : Z) : result Z :=
  if py_in chosen_num row || py_in chosen_num col || py_in chosen_num grd then
    match fuel with
    | O => OutOfFuel
    | S fuel => pick_loop fuel row col grd (chosen_num + 1)
    end
  else Ok chosen_num.

(** The three lists together hold at most [length row + 18] values, so the
    loop leaves after at most that many increments. *)
Definition pick_input_num (puzzle : grid) (row_num col_num chosen_num : Z) : result Z :=
  if chosen_num <? 10 then
    col ← current_col puzzle col_num;
    grd ← current_grid puzzle row_num col_num;
    row ← py_index puzzle row_num;
    pick_loop (length row + length col + length grd) row col grd chosen_num
  else Ok chosen_num.

Definition appears_after (input_row input_col target_row target_col : Z) : bool :=
  if input_row >? target_row then true
  else if input_row =? target_row then
    if input_col >? target_col then true else false
  else false.

(** ** Navigation between the cells that may be edited *)

(** The dictionary [{"row": row_num, "col": col_num}]. *)
Record slot_loc := Slot { slot_row : Z; slot_col : Z }.

Fixpoint find_previous_slot (fuel : nat) (fixed_num_locations : gmap Z (list Z))
    (row_num col_num : Z) : result slot_loc :=
  match fuel with
  | O => OutOfFuel
  | S fuel =>
    let col_num := (col_num + 8) `mod` 9 in
    let row_num := if col_num =? 8 then row_num - 1 else row_num in
    match fixed_num_locations !! row_num with
    | None => Raise (KeyError row_num)
    | Some cols =>
      if negb (py_in col_num cols) then Ok (Slot row_num col_num)
      else find_previous_slot fuel fixed_num_locations row_num col_num
    end
  end.

Fixpoint find_next_slot (fuel : nat) (fixed_num_locations : gmap Z (list Z))
    (row_num col_num : Z) : result slot_loc :=
  match fuel with
  | O => OutOfFuel
  | S fuel =>
    let col_num := (col_num + 1) `mod` 9 in
    let row_num := if col_num =? 0 then row_num + 1 else row_num in
    match fixed_num_locations !! row_num with
    | None => Raise (KeyError row_num)
    | Some cols =>
      if negb (py_in col_num cols) then Ok (Slot row_num col_num)
      else find_next_slot fuel fixed_num_locations row_num col_num
    end
  end.

(** ** The puzzle as mutable state

    The puzzle is one object shared by the caller and the engine.  The state
    also keeps a ghost log of every cell assignment the engine performs,
    newest first, so that properties of the whole run can be stated.  An
    exception or an exhausted fuel hands back the state reached so far. *)

Record state := State { puzzle : grid; writes : list (Z * Z) }.

Inductive outcome (A : Type) :=
| Ret (a : A) (s : state)
| Exc (e : exn) (s : state)
| Timeout (s : state).
Arguments Ret {A} a s.
Arguments Exc {A} e s.
Arguments Timeout {A} s.

Definition M (A : Type) : Type := state → outcome A.

#[global] Instance M_ret : MRet M := λ A a s, Ret a s.
#[global] Instance M_bind : MBind M := λ A B k m s,
  match m s with
  | Ret a s' => k a s'
  | Exc e s' => Exc e s'
  | Timeout s' => Timeout s'
  end.

Definition timeout {A} : M A := λ s, Timeout s.

(** An expression that only reads the puzzle. *)
Definition read {A} (e : grid → result A) : M A := λ s,
  match e (puzzle s) with
  | Ok a => Ret a s
  | Raise x => Exc x s
  | OutOfFuel => Timeout s
  end.

(** An expression that does not depend on the puzzle. *)
Definition lift {A} (r : result A) : M A := read (λ _, r).

(** [puzzle[row][col] = v] *)
Definition write (row col v : Z) : M unit := λ s,
  match set_cell (puzzle s) row col v with
  | Ok g => Ret tt (State g ((row, col) :: writes s))
  | Raise x => Exc x s
  | OutOfFuel => Timeout s
  end.

Fixpoint for_each {A} (xs : list A) (body : A → M unit) : M unit :=
  match xs with
  | [] => mret tt
  | x :: xs => body x;; for_each xs body
  end.

(** ** The backtracking controller *)

(** The dictionary [{"num": current_num, "row": current_row, "col": current_slot}]. *)
Record filled := Filled { filled_num : Z; filled_row : Z; filled_col : Z }.

(** The [while current_num < 10] loop of [modify_previous_slots]. *)
Fixpoint modify_loop (fuel : nat) (fixed_num_locations : gmap Z (list Z))
    (end_row_num end_col_num current_num current_row current_slot : Z) : M filled :=
  if current_num <? 10 then
    match fuel with
    | O => timeout
    | S fuel =>
      next_slot ← lift (find_next_slot fuel fixed_num_locations current_row current_slot);
      let current_row := slot_row next_slot in
      let current_slot := slot_col next_slot in
      if negb (appears_after current_row current_slot end_row_num end_col_num) then
        current_num ← read (λ p, pick_input_num p current_row current_slot 1);
        (if current_num <? 10 then write current_row current_slot current_num
         else mret tt);;
        modify_loop fuel fixed_num_locations end_row_num end_col_num
                    current_num current_row current_slot
      else mret (Filled current_num current_row current_slot)
    end
  else mret (Filled current_num current_row current_slot).

Definition modify_previous_slots (fuel : nat) (fixed_num_locations : gmap Z (list Z))
    (start_row_num start_col_num end_row_num end_col_num : Z) : M filled :=
  current_num ← read (λ p, get_cell p start_row_num start_col_num);
  modify_loop fuel fixed_num_locations end_row_num end_col_num
              current_num start_row_num start_col_num.

(** The [while current_num > 9] loop of [solve_sudoku], for the cell
    [(row, index)] of the two [for] loops. *)
Fixpoint backtrack (fuel : nat) (fixed_num_locations : gmap Z (list Z))
    (row index current_num current_row current_index : Z) : M unit :=
  if current_num >? 9 then
    match fuel with
    | O => timeout
    | S fuel =>
      previous_slot ← lift (find_previous_slot fuel fixed_num_locations
                                               current_row current_index);
      let current_row := slot_row previous_slot in
      let current_index := slot_col previous_slot in
      old ← read (λ p, get_cell p current_row current_index);
      current_num ← read (λ p, pick_input_num p current_row current_index (old + 1));
      write current_row current_index current_num;;
      if current_num <? 10 then
        new_slot ← modify_previous_slots fuel fixed_num_locations
                                         current_row current_index row index;
        backtrack fuel fixed_num_locations row index
                  (filled_num new_slot) (filled_row new_slot) (filled_col new_slot)
      else
        backtrack fuel fixed_num_locations row index
                  current_num current_row current_index
    end
  else mret tt.

(** The body of the two [for] loops.  [enumerate(puzzle[row])] walks the
    row object itself, which the assignments mutate: the item it yields at
    [index] is the cell as it is when the iteration gets there. *)
Definition solve_cell (fuel : nat) (fixed_num_locations : gmap Z (list Z))
    (row index : Z) : M unit :=
  slot ← read (λ p, get_cell p row index);
  (if slot =? 0 then
     chosen ← read (λ p, pick_input_num p row index 1);
     write row index chosen
   else mret tt);;
  current_num ← read (λ p, get_cell p row index);
  backtrack fuel fixed_num_locations row index current_num row index.

Definition solve_sudoku (fuel : nat) (fixed_num_locations : gmap Z (list Z)) : M unit :=
  n ← read (λ p, Ok (Z.of_nat (length p)));
  for_each (seqZ 0 n) (λ row,
    r ← read (λ p, py_index p row);
    for_each (seqZ 0 (Z.of_nat (length r)))
             (λ index, solve_cell fuel fixed_num_locations row index)).

(** The call [solve_sudoku(puzzle, fixed_num_locations)] from a fresh log. *)
Definition run_solve (fuel : nat) (puzzle : grid) (fixed_num_locations : gmap Z (list Z))
    : outcome unit :=
  solve_sudoku fuel fixed_num_locations (State puzzle []).

(** [fixed_num_locations] as [app.py] builds it: every row number 0..8 is a
    key, and the columns of the non-zero cells are its value. *)
Definition fixed_of (puzzle : grid) : gmap Z (list Z) :=
  list_to_map
    (imap (λ i (r : list Z),
             (Z.of_nat i,
              omap (λ '(j, v), if v =? 0 then None else Some (Z.of_nat j))
                   (imap pair r)))
          puzzle).

Definition empty_grid : grid := replicate 9 (replicate 9 0).

(** ** Vocabulary of the specification *)

(** A 9×9 puzzle. *)
Definition wf_grid (g : grid) : Prop :=
  length g = 9%nat ∧ Forall (λ r, length r = 9%nat) g.

Definition in_bounds (r c : Z) : Prop := 0 ≤ r ≤ 8 ∧ 0 ≤ c ≤ 8.

(** The value at a position of the 9×9 square (0 outside of the lists). *)
Definition cell (g : grid) (r c : Z) : Z :=
  match g !! Z.to_nat r with
  | Some row => default 0 (row !! Z.to_nat c)
  | None => 0
  end.

(** Values stay within the data model: 0 for empty, or a digit. *)
Definition in_range (g : grid) : Prop :=
  ∀ r c, in_bounds r c → 0 ≤ cell g r c ≤ 9.

(** Top-left corner of the 3×3 box of a position. *)
Definition box_index (r c : Z) : Z * Z := (r - r `mod` 3, c - c `mod` 3).

Definition in_row (g : grid) (r d : Z) : Prop :=
  ∃ c, 0 ≤ c ≤ 8 ∧ cell g r c = d.
Definition in_col (g : grid) (c d : Z) : Prop :=
  ∃ r, 0 ≤ r ≤ 8 ∧ cell g r c = d.
Definition in_box (g : grid) (r c d : Z) : Prop :=
  ∃ r' c', in_bounds r' c' ∧ box_index r' c' = box_index r c ∧ cell g r' c' = d.

(** [d] already stands in the row, the column or the box of [(r, c)]. *)
Definition conflicts (g : grid) (r c d : Z) : Prop :=
  in_row g r d ∨ in_col g c d ∨ in_box g r c d.

(** Two positions constrain each other. *)
Definition related (r c r' c' : Z) : Prop :=
  r = r' ∨ c = c' ∨ box_index r c = box_index r' c'.

(** No digit stands twice in a row, a column or a box. *)
Definition consistent (g : grid) : Prop :=
  ∀ r c r' c', in_bounds r c → in_bounds r' c' → (r, c) ≠ (r', c') →
    related r c r' c' → 1 ≤ cell g r c ≤ 9 → cell g r c ≠ cell g r' c'.

Definition row_values (g : grid) (r : Z) : list Z :=
  (λ c, cell g r c) <$> seqZ 0 9.
Definition col_values (g : grid) (c : Z) : list Z :=
  (λ r, cell g r c) <$> seqZ 0 9.
Definition box_values (g : grid) (r c : Z) : list Z :=
  (λ p, cell g p.1 p.2) <$> grid_cells (box_index r c).1 (box_index r c).2.

(** Every row, column and box holds each of 1..9 exactly once. *)
Definition solved (g : grid) : Prop :=
  wf_grid g ∧
  (∀ r, 0 ≤ r ≤ 8 → row_values g r ≡ₚ seqZ 1 9) ∧
  (∀ c, 0 ≤ c ≤ 8 → col_values g c ≡ₚ seqZ 1 9) ∧
  (∀ r c, in_bounds r c → box_values g r c ≡ₚ seqZ 1 9).

(** The position is one of the given cells. *)
Definition fixed_at (f : gmap Z (list Z)) (r c : Z) : Prop :=
  ∃ cols, f !! r = Some cols ∧ c ∈ cols.

(** The position may be edited. *)
Definition editable (f : gmap Z (list Z)) (r c : Z) : Prop :=
  ∃ cols, f !! r = Some cols ∧ c ∉ cols.

(** The keys of the dictionary are the nine row numbers. *)
Definition wf_fixed (f : gmap Z (list Z)) : Prop :=
  ∀ r, is_Some (f !! r) ↔ 0 ≤ r ≤ 8.

(** Preconditions of a call: a 9×9 puzzle of values 0..9 whose given cells
    hold digits. *)
Definition precondition (g : grid) (f : gmap Z (list Z)) : Prop :=
  wf_grid g ∧ wf_fixed f ∧ in_range g ∧
  (∀ r c, in_bounds r c → fixed_at f r c → 1 ≤ cell g r c ≤ 9).

(** Row-major rank of a position. *)
Definition idx (r c : Z) : Z := 9 * r + c.

(** State in which a run ended or was cut. *)
Definition final_state {A} (o : outcome A) : state :=
  match o with
  | Ret _ s => s
  | Exc _ s => s
  | Timeout s => s
  end.


(** ** Vocabulary of the proofs *)

(** The puzzle after [puzzle[r][c] = v], for a position of the square. *)
Definition upd (g : grid) (r c v : Z) : grid :=
  match g !! Z.to_nat r with
  | Some row => <[Z.to_nat r := <[Z.to_nat c := v]> row]> g
  | None => g
  end.

(** Every position before rank [k] holds a digit. *)
Definition filled_below (k : Z) (g : grid) : Prop :=
  ∀ r c, in_bounds r c → idx r c < k → 1 ≤ cell g r c ≤ 9.

(** Every position from rank [k] on holds 0 or a digit. *)
Definition range_from (k : Z) (g : grid) : Prop :=
  ∀ r c, in_bounds r c → k ≤ idx r c → 0 ≤ cell g r c ≤ 9.

(** What holds of every state of a run from the input [g0], whatever way
    the run ends: the puzzle stays 9×9, the given cells keep the values of
    the input, every logged assignment went to a position of the square
    that is not given, and a consistent input stays consistent. *)
Definition inv (f : gmap Z (list Z)) (g0 : grid) (s : state) : Prop :=
  wf_grid (puzzle s) ∧
  (∀ r c, in_bounds r c → fixed_at f r c → cell (puzzle s) r c = cell g0 r c) ∧
  Forall (λ p, in_bounds p.1 p.2 ∧ ¬ fixed_at f p.1 p.2) (writes s) ∧
  (consistent g0 → consistent (puzzle s)).

(** [wp f g0 m Q s]: run from [s], [m] keeps [inv], and establishes [Q] if
    it returns. *)
Definition wp (f : gmap Z (list Z)) (g0 : grid) {A} (m : M A)
    (Q : A → state → Prop) (s : state) : Prop :=
  match m s with
  | Ret a s' => inv f g0 s' ∧ Q a s'
  | Exc _ s' | Timeout s' => inv f g0 s'
  end.

(** When [modify_previous_slots] returns towards the cell [(er, ec)] of
    the forward pass: either everything up to that cell holds a digit, or
    the loop stopped at an earlier position that has no candidate and
    everything before it holds a digit. *)
Definition modify_post (er ec : Z) (res : filled) (s : state) : Prop :=
  range_from (idx er ec + 1) (puzzle s) ∧
  if filled_num res <? 10 then filled_below (idx er ec + 1) (puzzle s)
  else in_bounds (filled_row res) (filled_col res) ∧
       idx (filled_row res) (filled_col res) ≤ idx er ec ∧
       filled_below (idx (filled_row res) (filled_col res)) (puzzle s).

(** The forward pass is done with the cell [(row, index)]. *)
Definition cell_done (row index : Z) (s : state) : Prop :=
  filled_below (idx row index + 1) (puzzle s) ∧
  range_from (idx row index + 1) (puzzle s).

(** The 81 positions of the square, in row-major order. *)
Definition positions : list (Z * Z) :=
  r ← seqZ 0 9; c ← seqZ 0 9; [(r, c)].

(** One move forward, in the words of the specification: the column
    advances by 1, wrapping to column 0 of the next row past column 8. *)
Definition advance (p : Z * Z) : Z * Z :=
  if p.2 =? 8 then (p.1 + 1, 0) else (p.1, p.2 + 1).

(** One move backward: the column decreases by 1, wrapping to column 8 of
    the previous row before column 0. *)
Definition retreat (p : Z * Z) : Z * Z :=
  if p.2 =? 0 then (p.1 - 1, 8) else (p.1, p.2 - 1).

(** The dictionary the navigation returns for a position. *)
Definition slot_of (p : Z * Z) : slot_loc := Slot p.1 p.2.

(** Two given cells that constrain each other hold the same value. *)
Definition givens_conflict (g : grid) (f : gmap Z (list Z)) : Prop :=
  ∃ r c r' c', in_bounds r c ∧ in_bounds r' c' ∧ (r, c) ≠ (r', c') ∧
    related r c r' c' ∧ fixed_at f r c ∧ fixed_at f r' c' ∧
    cell g r c = cell g r' c'.

(** [g'] solves the puzzle [g]: it is solved and keeps every filled cell. *)
Definition completion (g g' : grid) : Prop :=
  solved g' ∧ ∀ r c, in_bounds r c → cell g r c ≠ 0 → cell g' r c = cell g r c.

(** Every value of the lists is a digit. *)
Definition all_digits (g : grid) : Prop :=
  ∀ row v, row ∈ g → v ∈ row → 1 ≤ v ≤ 9.

(** ** Puzzles used as examples *)

(** The solution the engine finds for the empty puzzle. *)
Definition first_solution : grid :=
  [[1; 2; 3; 4; 5; 6; 7; 8; 9]; [4; 5; 6; 7; 8; 9; 1; 2; 3];
   [7; 8; 9; 1; 2; 3; 4; 5; 6]; [2; 1; 4; 3; 6; 5; 8; 9; 7];
   [3; 6; 5; 8; 9; 7; 2; 1; 4]; [8; 9; 7; 2; 1; 4; 3; 6; 5];
   [5; 3; 1; 6; 4; 2; 9; 7; 8]; [6; 4; 2; 9; 7; 8; 5; 3; 1];
   [9; 7; 8; 5; 3; 1; 6; 4; 2]].

(** [first_solution] with its last cell emptied. *)
Definition one_missing : grid :=
  take 8 first_solution ++ [[9; 7; 8; 5; 3; 1; 6; 4; 0]].

(** Two 5's given in row 0, the last cell empty, everything else given. *)
Definition two_fives : grid :=
  [1; 2; 3; 4; 5; 5; 7; 8; 9] :: take 7 (drop 1 first_solution)
    ++ [[9; 7; 8; 5; 3; 1; 6; 4; 0]].

(** Every cell given, with two 5's in row 0. *)
Definition two_fives_full : grid :=
  [1; 2; 3; 4; 5; 5; 7; 8; 9] :: drop 1 first_solution.

(** Well-formed givens without a completion: the last cell of row 0 must
    be a 9, and a 9 is given below it. *)
Definition no_completion : grid :=
  [1; 2; 3; 4; 5; 6; 7; 8; 0] :: [0; 0; 0; 0; 0; 0; 0; 0; 9]
    :: replicate 7 (replicate 9 0).

(** All of [first_solution] given except its last two cells; the first of
    them holds a 2 left by an earlier attempt, the last one is empty. *)
Definition stale_attempt : grid :=
  take 8 first_solution ++ [[9; 7; 8; 5; 3; 1; 6; 2; 0]].
Definition stale_attempt_fixed : gmap Z (list Z) :=
  fixed_of (take 8 first_solution ++ [[9; 7; 8; 5; 3; 1; 6; 0; 0]]).

(** [first_solution] with the digits 1 and 2 exchanged: another solution
    of the empty puzzle. *)
Definition relabelled : grid :=
  (λ row : list Z,
     (λ v : Z, if v =? 1 then 2 else if v =? 2 then 1 else v) <$> row)
    <$> first_solution.

(** ** Vocabulary of the further properties *)

(** The positions of a row, of a column, and of the box with a corner. *)
Definition row_pos (r : Z) : list (Z * Z) := (λ c, (r, c)) <$> seqZ 0 9.
Definition col_pos (c : Z) : list (Z * Z) := (λ r, (r, c)) <$> seqZ 0 9.
Definition box_corners : list (Z * Z) :=
  r ← [0; 3; 6]; c ← [0; 3; 6]; [(r, c)].
Definition box_pos (b : Z * Z) : list (Z * Z) := grid_cells b.1 b.2.

(** Number of the positions of a list that hold [d]. *)
Definition count_in (g : grid) (d : Z) (l : list (Z * Z)) : nat :=
  length (filter (λ p, cell g p.1 p.2 = d) l).

(** The value of a list of base-11 digits, most significant first. *)
Fixpoint num (l : list Z) : Z :=
  match l with
  | [] => 0
  | d :: l => d * 11 ^ Z.of_nat (length l) + num l
  end.

(** The puzzle read as a base-11 number, cell after cell in row-major order,
    a value above 10 counting as 10. *)
Definition weight (g : grid) : Z :=
  num ((λ p, Z.min (cell g p.1 p.2) 10) <$> positions).

(** No value of the square is negative. *)
Definition nonneg (g : grid) : Prop :=
  ∀ r c, in_bounds r c → 0 ≤ cell g r c.

(** How a run ended: [R] on return, [X] on an exception, [T] when the fuel
    ran out. *)
Definition ends {A} (R : A → state → Prop) (X : exn → state → Prop)
    (T : state → Prop) (o : outcome A) : Prop :=
  match o with
  | Ret a s' => R a s'
  | Exc e s' => X e s'
  | Timeout s' => T s'
  end.

(** [h] solves the puzzle whose given cells are those of [f] in [g0]. *)
Definition solution (f : gmap Z (list Z)) (g0 h : grid) : Prop :=
  solved h ∧ ∀ r c, in_bounds r c → fixed_at f r c → cell h r c = cell g0 r c.

(** The cells of [g0] that are not given are empty. *)
Definition zero_start (f : gmap Z (list Z)) (g0 : grid) : Prop :=
  ∀ r c, in_bounds r c → editable f r c → cell g0 r c = 0.

(** [h] and [g] hold the same values before rank [k]. *)
Definition agree (k : Z) (h g : grid) : Prop :=
  ∀ r c, in_bounds r c → idx r c < k → cell h r c = cell g r c.

(** Before rank [k], no solution is below [g] where it first differs. *)
Definition minimal (f : gmap Z (list Z)) (g0 : grid) (k : Z) (g : grid) : Prop :=
  ∀ h r c, solution f g0 h → in_bounds r c → idx r c < k →
    agree (idx r c) h g → cell g r c ≤ cell h r c.

(** No solution holds the values of [g] before rank [k]. *)
Definition dead (f : gmap Z (list Z)) (g0 : grid) (k : Z) (g : grid) : Prop :=
  ∀ h, solution f g0 h → ¬ agree k h g.

(** The editable cells of ranks [lo..hi] hold values left by the search,
    none of them a digit. *)
Definition stale (f : gmap Z (list Z)) (lo hi : Z) (g : grid) : Prop :=
  ∀ r c, in_bounds r c → editable f r c → lo ≤ idx r c ≤ hi → 10 ≤ cell g r c.

(** The editable cells from rank [k] on are empty. *)
Definition blank (f : gmap Z (list Z)) (k : Z) (g : grid) : Prop :=
  ∀ r c, in_bounds r c → editable f r c → k ≤ idx r c → cell g r c = 0.

(** The cells of rank at most [lo] or above [hi] are the same in [g] and
    [g']. *)
Definition same_outside (lo hi : Z) (g g' : grid) : Prop :=
  ∀ r c, in_bounds r c → idx r c ≤ lo ∨ hi < idx r c →
    cell g' r c = cell g r c.

(** What is known of every state of a run, for the further properties. *)
Definition good (f : gmap Z (list Z)) (g0 : grid) (s : state) : Prop :=
  inv f g0 s ∧ nonneg (puzzle s).

(** The lexicographic facts hold when the search started from empty cells. *)
Definition lex_min (f : gmap Z (list Z)) (g0 : grid) (k : Z) (g : grid) : Prop :=
  zero_start f g0 → minimal f g0 k g.
Definition lex_dead (f : gmap Z (list Z)) (g0 : grid) (k : Z) (g : grid) : Prop :=
  zero_start f g0 → dead f g0 k g.
Definition lex_blank (f : gmap Z (list Z)) (g0 : grid) (k : Z) (g : grid) : Prop :=
  zero_start f g0 → blank f k g.

(** How [modify_previous_slots] may end, started at the slot [(cr, cc)]
    towards the cell [(er, ec)] of the forward pass, from the state [s]. *)
Definition modify_ret (f : gmap Z (list Z)) (g0 : grid) (er ec cr cc : Z)
    (s : state) (res : filled) (s' : state) : Prop :=
  good f g0 s' ∧ same_outside (idx cr cc) (idx er ec) (puzzle s) (puzzle s') ∧
  if filled_num res <? 10
  then filled_below (idx er ec + 1) (puzzle s') ∧
       lex_min f g0 (idx er ec + 1) (puzzle s')
  else in_bounds (filled_row res) (filled_col res) ∧
       idx cr cc < idx (filled_row res) (filled_col res) ≤ idx er ec ∧
       filled_below (idx (filled_row res) (filled_col res)) (puzzle s') ∧
       stale f (idx (filled_row res) (filled_col res)) (idx er ec) (puzzle s') ∧
       lex_min f g0 (idx (filled_row res) (filled_col res)) (puzzle s') ∧
       lex_dead f g0 (idx (filled_row res) (filled_col res)) (puzzle s').

Definition modify_exc (f : gmap Z (list Z)) (g0 : grid) (er ec cr cc : Z)
    (s : state) (e : exn) (s' : state) : Prop :=
  good f g0 s' ∧ same_outside (idx cr cc) (idx er ec) (puzzle s) (puzzle s') ∧
  e = KeyError 9 ∧
  (∀ r c, in_bounds r c → idx er ec < idx r c → fixed_at f r c) ∧
  filled_below (idx er ec + 1) (puzzle s').

Definition modify_out (f : gmap Z (list Z)) (g0 : grid) (er ec cr cc : Z)
    (fuel : nat) (s s' : state) : Prop :=
  good f g0 s' ∧ same_outside (idx cr cc) (idx er ec) (puzzle s) (puzzle s') ∧
  Z.of_nat fuel < 83 + idx er ec - idx cr cc.

(** How the work on the cell [(row, index)] of the forward pass may end. *)
Definition cell_ret (f : gmap Z (list Z)) (g0 : grid) (row index : Z)
    (s s' : state) : Prop :=
  good f g0 s' ∧ same_outside (-1) (idx row index) (puzzle s) (puzzle s') ∧
  filled_below (idx row index + 1) (puzzle s') ∧
  lex_min f g0 (idx row index + 1) (puzzle s').

Definition cell_exc (f : gmap Z (list Z)) (g0 : grid) (row index : Z)
    (s : state) (e : exn) (s' : state) : Prop :=
  good f g0 s' ∧ same_outside (-1) (idx row index) (puzzle s) (puzzle s') ∧
  ((e = KeyError (-1) ∧ (zero_start f g0 → ∀ h, ¬ solution f g0 h)) ∨
   (e = KeyError 9 ∧
    (∀ r c, in_bounds r c → idx row index < idx r c → fixed_at f r c) ∧
    filled_below (idx row index + 1) (puzzle s'))).

Definition cell_out (f : gmap Z (list Z)) (g0 : grid) (row index : Z)
    (fuel : nat) (s s' : state) : Prop :=
  good f g0 s' ∧ same_outside (-1) (idx row index) (puzzle s) (puzzle s') ∧
  Z.of_nat fuel < 11 ^ 81 - weight (puzzle s) + 165.

(** What the two [for] loops of [solve_sudoku] have established when they
    get to the cell of rank [k]. *)
Definition forward (f : gmap Z (list Z)) (g0 : grid) (k : Z) (s : state) : Prop :=
  good f g0 s ∧ filled_below k (puzzle s) ∧ range_from k (puzzle s) ∧
  lex_min f g0 k (puzzle s) ∧ lex_blank f g0 k (puzzle s).

(** How a run of [solve_sudoku] may raise, and what a run cut by the fuel
    says of the fuel. *)
Definition failure (f : gmap Z (list Z)) (g0 : grid) (e : exn) (s' : state) : Prop :=
  good f g0 s' ∧
  ((e = KeyError (-1) ∧ (zero_start f g0 → ∀ h, ¬ solution f g0 h)) ∨
   (e = KeyError 9 ∧ ¬ consistent g0)).
Definition cut (f : gmap Z (list Z)) (g0 : grid) (fuel : nat) (s' : state) : Prop :=
  good f g0 s' ∧ Z.of_nat fuel < 11 ^ 81 + 165.

(** Order of two squares by their first difference in row-major order. *)
Definition same_cells (g h : grid) : Prop :=
  ∀ r c, in_bounds r c → cell g r c = cell h r c.
Definition lex_lt (g h : grid) : Prop :=
  ∃ r c, in_bounds r c ∧ agree (idx r c) h g ∧ cell g r c < cell h r c.

(** ** The application state of [app.py]

    The attributes of the [Sudoku] object that hold data: the puzzle, the
    dictionary of the cells entered by hand, and the [state] option of the
    two buttons ([true] for [tk.NORMAL], [false] for [tk.DISABLED]).  The
    window, the canvas and the items drawn on it are not modelled: the
    calls of [canvas.delete] and [canvas.create_text] are left out of the
    methods below, which read nothing back from the canvas. *)
Record app := App {
  puzzle_nums : grid;
  fixed_num_locations : gmap Z (list Z);
  solve_button : bool;
  reset_button : bool
}.

(** The class attributes.  Both quotients are exact, so the floats 50.0 of
    the source are kept as integers; the coordinates of a mouse event are
    integers. *)
Definition PUZZLE_SIZE : Z := 550.
Definition MARGIN : Z := PUZZLE_SIZE / 11.
Definition LINE_SPACE : Z := (PUZZLE_SIZE - MARGIN) / 10.

(** [reset_puzzle]: both attributes are bound to fresh objects. *)
Definition reset_puzzle (a : app) : app :=
  App [[0; 0; 0; 0; 0; 0; 0; 0; 0]; [0; 0; 0; 0; 0; 0; 0; 0; 0];
       [0; 0; 0; 0; 0; 0; 0; 0; 0]; [0; 0; 0; 0; 0; 0; 0; 0; 0];
       [0; 0; 0; 0; 0; 0; 0; 0; 0]; [0; 0; 0; 0; 0; 0; 0; 0; 0];
       [0; 0; 0; 0; 0; 0; 0; 0; 0]; [0; 0; 0; 0; 0; 0; 0; 0; 0];
       [0; 0; 0; 0; 0; 0; 0; 0; 0]]
      (list_to_map [(0, []); (1, []); (2, []); (3, []); (4, []); (5, []);
                    (6, []); (7, []); (8, [])])
      false false.

(** [puzzle_is_empty]: the loop over the keys stops at the first list that
    is not empty. *)
Definition puzzle_is_empty (a : app) : bool :=
  foldr (λ kv is_empty, if bool_decide (kv.2 = []) then is_empty else false)
        true (map_to_list (fixed_num_locations a)).

(** [d[k]] *)
Definition dict_get (d : gmap Z (list Z)) (k : Z) : result (list Z) :=
  match d !! k with
  | Some v => Ok v
  | None => Raise (KeyError k)
  end.

(** [l.remove(x)] for an [x] that is in [l]: the first occurrence goes. *)
Fixpoint py_remove (x : Z) (l : list Z) : list Z :=
  match l with
  | [] => []
  | y :: l => if bool_decide (y = x) then l else y :: py_remove x l
  end.

(** [display_cell_change], for the states of the buttons. *)
Definition display_cell_change (row_num col_num display_num : Z) (a : app) : app :=
  if negb (display_num =? 0) then
    App (puzzle_nums a) (fixed_num_locations a) true true
  else if puzzle_is_empty a then
    App (puzzle_nums a) (fixed_num_locations a) false false
  else a.

(** [change_cell_num], from the coordinates of the event. *)
Definition change_cell_num (mouse_x mouse_y : Z) (a : app) : result app :=
  if (MARGIN <? mouse_x) && (mouse_x <? PUZZLE_SIZE - MARGIN) &&
     ((MARGIN <? mouse_y) && (mouse_y <? PUZZLE_SIZE - MARGIN)) then
    let row := (mouse_y - MARGIN) `div` LINE_SPACE in
    let col := (mouse_x - MARGIN) `div` LINE_SPACE in
    old ← get_cell (puzzle_nums a) row col;
    let new_cell_num := (old + 1) `mod` 10 in
    nums ← set_cell (puzzle_nums a) row col new_cell_num;
    cols ← dict_get (fixed_num_locations a) row;
    let cols := if py_in col cols then py_remove col cols else cols in
    let cols := if negb (new_cell_num =? 0) then cols ++ [col] else cols in
    Ok (display_cell_change row col new_cell_num
          (App nums (<[row := cols]> (fixed_num_locations a))
               (solve_button a) (reset_button a)))
  else Ok a.

(** How [click_solve] ends: it returns, or the exception of the engine
    goes through it, or the fuel of the model runs out.  The engine works
    on the puzzle of the application, which keeps what was written. *)
Inductive solve_result :=
| Solved (a : app)
| Failed (e : exn) (a : app)
| Cut (a : app).

(** The two loops of [click_solve] over the cells. *)
Definition display_all (a : app) : app :=
  foldl (λ a p, display_cell_change p.1.1 p.1.2 p.2 a) a
        (concat (imap (λ i (r : list Z),
                         imap (λ j v, (Z.of_nat i, Z.of_nat j, v)) r)
                      (puzzle_nums a))).

Definition click_solve (fuel : nat) (a : app) : solve_result :=
  match run_solve fuel (puzzle_nums a) (fixed_num_locations a) with
  | Ret _ s' =>
      let a' := display_all (App (puzzle s') (fixed_num_locations a)
                                 (solve_button a) (reset_button a)) in
      Solved (App (puzzle_nums a') (fixed_num_locations a') false
                  (reset_button a'))
  | Exc e s' =>
      Failed e (App (puzzle s') (fixed_num_locations a)
                    (solve_button a) (reset_button a))
  | Timeout s' =>
      Cut (App (puzzle s') (fixed_num_locations a)
               (solve_button a) (reset_button a))
  end.

(** What the user does before solving: clicks on the canvas, handled by
    [change_cell_num], and presses of the reset button.  [start] is the
    state [__init__] leaves. *)
Inductive event := Click (mouse_x mouse_y : Z) | Reset.

Definition handle (ev : event) (a : app) : result app :=
  match ev with
  | Click mouse_x mouse_y => change_cell_num mouse_x mouse_y a
  | Reset => Ok (reset_puzzle a)
  end.

Fixpoint run_events (evs : list event) (a : app) : result app :=
  match evs with
  | [] => Ok a
  | ev :: evs => a' ← handle ev a; run_events evs a'
  end.

Definition start : app := reset_puzzle (App [] ∅ false false).

(** What holds of the application as long as the puzzle was only entered
    by hand: the dictionary lists the cells that are not empty, each once,
    and the buttons are enabled when there is one. *)
Definition entered (a : app) : Prop :=
  wf_grid (puzzle_nums a) ∧ wf_fixed (fixed_num_locations a) ∧
  in_range (puzzle_nums a) ∧
  map_Forall (λ _ cols, NoDup cols ∧ Forall (λ c, 0 ≤ c ≤ 8) cols)
             (fixed_num_locations a) ∧
  (∀ r c, in_bounds r c →
          fixed_at (fixed_num_locations a) r c ↔ cell (puzzle_nums a) r c ≠ 0) ∧
  solve_button a = negb (puzzle_is_empty a) ∧
  reset_button a = negb (puzzle_is_empty a).

(** ** Vocabulary of the write log *)

(** The log of [s'] extends the log of [s]: the engine only adds to it. *)
Definition grows (s s' : state) : Prop := writes s `suffix_of` writes s'.

(** However it ends, the computation only adds to the log. *)
Definition steady {A} (m : M A) : Prop :=
  ∀ s, ends (λ _, grows s) (λ _, grows s) (grows s) (m s).

(** The first empty cell of the puzzle in row-major order. *)
Definition first_empty (g : grid) (r c : Z) : Prop :=
  in_bounds r c ∧ cell g r c = 0 ∧
  ∀ r' c', in_bounds r' c' → idx r' c' < idx r c → cell g r' c' ≠ 0.

(** Where the forward pass stands at rank [k] on the input [g]: it has
    assigned the first empty cell of [g] before anything else, or it has
    met no empty cell so far and has changed nothing. *)
Definition started (g : grid) (s : state) : Prop :=
  ∃ r c, first_empty g r c ∧ last (writes s) = Some (r, c).
Definition untouched (g : grid) (k : Z) (s : state) : Prop :=
  (∀ r c, in_bounds r c → idx r c < k → cell g r c ≠ 0) ∧ s = State g [].

(** Givens without a repeated digit and without a completion: the last two
    cells of row 0 must hold 8 and 9, and a 9 is given in each of their
    columns. *)
Definition sentinel_pair : grid :=
  [[1; 2; 3; 4; 5; 6; 7; 0; 0]; [0; 0; 0; 0; 0; 0; 0; 0; 0];
   [0; 0; 0; 0; 0; 0; 0; 0; 0]; [0; 0; 0; 0; 0; 0; 0; 9; 0];
   [0; 0; 0; 0; 0; 0; 0; 0; 0]; [0; 0; 0; 0; 0; 0; 0; 0; 0];
   [0; 0; 0; 0; 0; 0; 0; 0; 9]; [0; 0; 0; 0; 0; 0; 0; 0; 0];
   [0; 0; 0; 0; 0; 0; 0; 0; 0]].

(** * Properties *)

(** ** Lists and cells *)

Lemma bind_ok {A B} (a : A) (k : A → result B) : Ok a ≫= k = k a.
Proof. done. Qed.

Lemma py_index_nonneg {A} (l : list A) (i : Z) (x : A) :
  0 ≤ i → l !! Z.to_nat i = Some x → py_index l i = Ok x.
Proof.
  intros Hi Hx. unfold py_index.
  apply lookup_lt_Some in Hx as Hlt.
  destruct (Z.ltb_spec i 0); [lia|].
  destruct (Z.leb_spec 0 i); [|lia].
  destruct (Z.ltb_spec i (Z.of_nat (length l))); [|lia].
  simpl. by rewrite Hx.
Qed.

Lemma py_store_nonneg {A} (l : list A) (i : Z) (x : A) :
  0 ≤ i < Z.of_nat (length l) → py_store l i x = Ok (<[Z.to_nat i := x]> l).
Proof.
  intros Hi. unfold py_store.
  destruct (Z.ltb_spec i 0); [lia|].
  destruct (Z.leb_spec 0 i); [|lia].
  destruct (Z.ltb_spec i (Z.of_nat (length l))); [|lia].
  done.
Qed.

Lemma wf_grid_row (g : grid) (r : Z) :
  wf_grid g → 0 ≤ r ≤ 8 →
  ∃ row, g !! Z.to_nat r = Some row ∧ length row = 9%nat.
Proof.
  intros [Hlen Hrows] Hr.
  destruct (lookup_lt_is_Some_2 g (Z.to_nat r)) as [row Hrow]; [lia|].
  exists row. split; [done|].
  by eapply Forall_lookup_1 in Hrows.
Qed.

Lemma wf_grid_lookup (g : grid) (r c : Z) :
  wf_grid g → in_bounds r c →
  ∃ row, g !! Z.to_nat r = Some row ∧ length row = 9%nat ∧
         row !! Z.to_nat c = Some (cell g r c).
Proof.
  intros Hwf [Hr Hc].
  destruct (wf_grid_row g r Hwf Hr) as (row & Hrow & Hlen).
  exists row. split_and!; [done..|].
  unfold cell. rewrite Hrow.
  destruct (lookup_lt_is_Some_2 row (Z.to_nat c)) as [v Hv]; [lia|].
  by rewrite Hv.
Qed.

Lemma get_cell_ok (g : grid) (r c : Z) :
  wf_grid g → in_bounds r c → get_cell g r c = Ok (cell g r c).
Proof.
  intros Hwf Hb.
  destruct (wf_grid_lookup g r c Hwf Hb) as (row & Hrow & Hlen & Hv).
  destruct Hb as [Hr Hc]. unfold get_cell.
  rewrite (py_index_nonneg g r row) by (done || lia). simpl.
  apply py_index_nonneg; [lia|done].
Qed.

Lemma set_cell_ok (g : grid) (r c v : Z) :
  wf_grid g → in_bounds r c → set_cell g r c v = Ok (upd g r c v).
Proof.
  intros Hwf Hb.
  destruct (wf_grid_lookup g r c Hwf Hb) as (row & Hrow & Hlen & Hv).
  destruct Hb as [Hr Hc]. destruct Hwf as [Hg _].
  unfold set_cell, upd. rewrite Hrow.
  rewrite (py_index_nonneg g r row) by (done || lia). simpl.
  rewrite py_store_nonneg by lia. simpl.
  rewrite py_store_nonneg by lia. done.
Qed.

Lemma upd_wf (g : grid) (r c v : Z) : wf_grid g → wf_grid (upd g r c v).
Proof.
  intros [Hlen Hrows]. unfold upd.
  destruct (g !! Z.to_nat r) as [row|] eqn:Hrow; [|done].
  split; [by rewrite length_insert|].
  apply Forall_insert; [done|]. simpl.
  rewrite length_insert. by eapply Forall_lookup_1 in Hrows.
Qed.

Lemma cell_upd_eq (g : grid) (r c v : Z) :
  wf_grid g → in_bounds r c → cell (upd g r c v) r c = v.
Proof.
  intros Hwf Hb.
  destruct (wf_grid_lookup g r c Hwf Hb) as (row & Hrow & Hlen & Hv).
  destruct Hb as [Hr Hc]. destruct Hwf as [Hg _].
  unfold upd, cell. rewrite Hrow.
  rewrite list_lookup_insert_eq by lia.
  by rewrite list_lookup_insert_eq by lia.
Qed.

Lemma cell_upd_ne (g : grid) (r c v r' c' : Z) :
  in_bounds r c → in_bounds r' c' → (r', c') ≠ (r, c) →
  cell (upd g r c v) r' c' = cell g r' c'.
Proof.
  intros [Hr Hc] [Hr' Hc'] Hne. unfold upd.
  destruct (g !! Z.to_nat r) as [row|] eqn:Hrow; [|done].
  unfold cell. destruct (decide (r' = r)) as [->|Hrr].
  - assert (c' ≠ c) by congruence.
    rewrite Hrow. rewrite list_lookup_insert_eq by (by eapply lookup_lt_Some).
    rewrite list_lookup_insert_ne by lia. done.
  - rewrite list_lookup_insert_ne by lia. done.
Qed.

(** ** Constraint extraction reads the cells of the unit *)

Lemma collect_ok {A B} (f : A → result B) (h : A → B) (xs : list A) :
  (∀ x, x ∈ xs → f x = Ok (h x)) → collect f xs = Ok (h <$> xs).
Proof.
  induction xs as [|x xs IH]; intros Hf; [done|].
  simpl. rewrite Hf by left. simpl.
  rewrite IH by (intros; apply Hf; by right). done.
Qed.

Lemma row_ok (g : grid) (r : Z) :
  wf_grid g → 0 ≤ r ≤ 8 → py_index g r = Ok (row_values g r).
Proof.
  intros Hwf Hr.
  destruct (wf_grid_row g r Hwf Hr) as (row & Hrow & Hlen).
  rewrite (py_index_nonneg g r row) by (done || lia). f_equal.
  apply list_eq. intros i. unfold row_values.
  rewrite list_lookup_fmap.
  destruct (decide (i < 9)%nat) as [Hi|Hi].
  - rewrite lookup_seqZ_lt by lia. simpl.
    unfold cell. rewrite Hrow, Z.add_0_l, Nat2Z.id.
    destruct (lookup_lt_is_Some_2 row i) as [v Hv]; [lia|]. by rewrite Hv.
  - rewrite lookup_seqZ_ge by lia. simpl.
    apply lookup_ge_None. lia.
Qed.

Lemma current_col_ok (g : grid) (c : Z) :
  wf_grid g → 0 ≤ c ≤ 8 → current_col g c = Ok (col_values g c).
Proof.
  intros Hwf Hc. unfold current_col, col_values.
  destruct Hwf as [Hlen Hrows]. rewrite Hlen.
  apply (collect_ok _ (λ r, cell g r c)).
  intros r Hr%elem_of_seqZ. apply get_cell_ok; [done|]. split; lia.
Qed.

Lemma elem_of_grid_cells (sr sc r c : Z) :
  (r, c) ∈ grid_cells sr sc ↔ sr ≤ r < sr + 3 ∧ sc ≤ c < sc + 3.
Proof.
  unfold grid_cells. rewrite list_elem_of_bind. split.
  - intros (r' & Hin & Hr'%elem_of_seqZ).
    apply list_elem_of_bind in Hin as (c' & Hin & Hc'%elem_of_seqZ).
    apply list_elem_of_singleton in Hin. simplify_eq. lia.
  - intros [Hr Hc]. exists r. split; [|apply elem_of_seqZ; lia].
    apply list_elem_of_bind. exists c. split; [|apply elem_of_seqZ; lia].
    by apply list_elem_of_singleton.
Qed.

Lemma box_index_bounds (r c : Z) (r' c' : Z) :
  in_bounds r c →
  (box_index r c).1 ≤ r' < (box_index r c).1 + 3 →
  (box_index r c).2 ≤ c' < (box_index r c).2 + 3 →
  in_bounds r' c' ∧ box_index r' c' = box_index r c.
Proof.
  unfold in_bounds, box_index. simpl. intros [Hr Hc] Hr' Hc'.
  pose proof (Z.mod_pos_bound r 3 eq_refl).
  pose proof (Z.mod_pos_bound c 3 eq_refl).
  pose proof (Z.div_mod r 3 ltac:(done)).
  pose proof (Z.div_mod c 3 ltac:(done)).
  assert (r' `mod` 3 = r' - (r - r `mod` 3)) as Hmr.
  { symmetry. apply (Z.mod_unique_pos _ _ (r / 3)); lia. }
  assert (c' `mod` 3 = c' - (c - c `mod` 3)) as Hmc.
  { symmetry. apply (Z.mod_unique_pos _ _ (c / 3)); lia. }
  split; [lia|f_equal; lia].
Qed.

Lemma box_index_range (r c r' c' : Z) :
  box_index r' c' = box_index r c →
  (box_index r c).1 ≤ r' < (box_index r c).1 + 3 ∧
  (box_index r c).2 ≤ c' < (box_index r c).2 + 3.
Proof.
  intros <-. unfold box_index. simpl.
  pose proof (Z.mod_pos_bound r' 3). pose proof (Z.mod_pos_bound c' 3). lia.
Qed.

Lemma current_grid_ok (g : grid) (r c : Z) :
  wf_grid g → in_bounds r c → current_grid g r c = Ok (box_values g r c).
Proof.
  intros Hwf Hb. unfold current_grid, box_values.
  apply (collect_ok _ (λ p, cell g p.1 p.2)).
  intros [r' c'] [Hr' Hc']%elem_of_grid_cells. simpl.
  apply get_cell_ok; [done|].
  by apply (box_index_bounds r c).
Qed.

Lemma elem_of_row_values (g : grid) (r d : Z) :
  d ∈ row_values g r ↔ in_row g r d.
Proof.
  unfold row_values, in_row. rewrite list_elem_of_fmap. split.
  - intros (c & -> & Hc%elem_of_seqZ). exists c. split; [lia|done].
  - intros (c & Hc & <-). exists c. split; [done|]. apply elem_of_seqZ. lia.
Qed.

Lemma elem_of_col_values (g : grid) (c d : Z) :
  d ∈ col_values g c ↔ in_col g c d.
Proof.
  unfold col_values, in_col. rewrite list_elem_of_fmap. split.
  - intros (r & -> & Hr%elem_of_seqZ). exists r. split; [lia|done].
  - intros (r & Hr & <-). exists r. split; [done|]. apply elem_of_seqZ. lia.
Qed.

Lemma elem_of_box_values (g : grid) (r c d : Z) :
  in_bounds r c → d ∈ box_values g r c ↔ in_box g r c d.
Proof.
  intros Hb. unfold box_values, in_box. rewrite list_elem_of_fmap. split.
  - intros ([r' c'] & -> & [Hr' Hc']%elem_of_grid_cells). simpl.
    destruct (box_index_bounds r c r' c' Hb Hr' Hc') as [? ?]. eauto.
  - intros (r' & c' & Hb' & Hbox & <-). exists (r', c'). split; [done|].
    apply elem_of_grid_cells. by apply box_index_range.
Qed.

(** ** Candidate selection *)

Lemma pick_cond (row col grd : list Z) (n : Z) :
  (py_in n row || py_in n col || py_in n grd) = true ↔ n ∈ row ++ col ++ grd.
Proof.
  unfold py_in. rewrite !orb_true_iff, !bool_decide_eq_true, !elem_of_app. tauto.
Qed.

Lemma filter_ge_mono (l : list Z) (n : Z) :
  (length (filter (λ x : Z, (n + 1 ≤ x)%Z) l) ≤ length (filter (λ x : Z, (n ≤ x)%Z) l))%nat.
Proof.
  induction l as [|x l IH]; [done|].
  rewrite !filter_cons. repeat case_decide; simpl; lia.
Qed.

Lemma filter_ge_shrink (l : list Z) (n : Z) :
  n ∈ l →
  (length (filter (λ x : Z, (n + 1 ≤ x)%Z) l) < length (filter (λ x : Z, (n ≤ x)%Z) l))%nat.
Proof.
  induction l as [|x l IH]; intros Hin; [by apply elem_of_nil in Hin|].
  apply elem_of_cons in Hin as [<-|Hin].
  - pose proof (filter_ge_mono l n).
    rewrite !filter_cons. repeat case_decide; simpl; lia.
  - specialize (IH Hin).
    rewrite !filter_cons. repeat case_decide; simpl; lia.
Qed.

(** The loop leaves at the first value, from [n] upwards, that none of the
    three lists holds; fuel for the values not below [n] is enough. *)
Lemma pick_loop_ok (fuel : nat) (row col grd : list Z) (n : Z) :
  (length (filter (λ x : Z, (n ≤ x)%Z) (row ++ col ++ grd)) ≤ fuel)%nat →
  ∃ m, pick_loop fuel row col grd n = Ok m ∧ n ≤ m ∧
       (m ∉ row ++ col ++ grd) ∧
       ∀ d, n ≤ d < m → d ∈ row ++ col ++ grd.
Proof.
  revert n. induction fuel as [|fuel IH]; intros n Hfuel; simpl.
  - destruct (py_in n row || py_in n col || py_in n grd) eqn:Hc.
    + apply pick_cond in Hc. apply filter_ge_shrink in Hc. lia.
    + exists n. split_and!; [done|lia| |intros; lia].
      rewrite <-pick_cond. by rewrite Hc.
  - destruct (py_in n row || py_in n col || py_in n grd) eqn:Hc.
    + apply pick_cond in Hc. pose proof (filter_ge_shrink _ _ Hc).
      destruct (IH (n + 1)) as (m & Hm & Hle & Hnot & Hmin); [lia|].
      exists m. split_and!; [done|lia|done|].
      intros d Hd. destruct (decide (d = n)) as [->|]; [done|].
      apply Hmin. lia.
    + exists n. split_and!; [done|lia| |intros; lia].
      rewrite <-pick_cond. by rewrite Hc.
Qed.

Lemma elem_of_units (g : grid) (r c d : Z) :
  in_bounds r c →
  d ∈ row_values g r ++ col_values g c ++ box_values g r c ↔ conflicts g r c d.
Proof.
  intros Hb. unfold conflicts.
  rewrite !elem_of_app, elem_of_row_values, elem_of_col_values,
    elem_of_box_values by done. tauto.
Qed.

(** What [pick_input_num] returns on a 9×9 puzzle, whatever its values. *)
Lemma pick_input_num_ok (g : grid) (r c n : Z) :
  wf_grid g → in_bounds r c →
  ∃ m, pick_input_num g r c n = Ok m ∧ n ≤ m ∧
       (10 ≤ n → m = n) ∧
       (n < 10 → ¬ conflicts g r c m) ∧
       (∀ d, n ≤ d < m → conflicts g r c d).
Proof.
  intros Hwf Hb. unfold pick_input_num.
  destruct (Z.ltb_spec n 10) as [Hn|Hn].
  - rewrite current_col_ok, bind_ok by (done || apply Hb).
    rewrite current_grid_ok, bind_ok by done.
    rewrite row_ok, bind_ok by (done || apply Hb).
    destruct (pick_loop_ok
                (length (row_values g r) + length (col_values g c)
                 + length (box_values g r c))
                (row_values g r) (col_values g c) (box_values g r c) n)
      as (m & Hm & Hle & Hnot & Hmin).
    { etrans; [apply length_filter|]. rewrite !length_app. lia. }
    exists m. split_and!; [done|done|lia| |].
    + intros _. by rewrite <-elem_of_units.
    + intros d Hd. rewrite <-elem_of_units by done. by apply Hmin.
  - exists n. split_and!; [done|lia|done|lia|intros; lia].
Qed.

(** ** Navigation *)

Lemma next_col_cases (c : Z) :
  0 ≤ c ≤ 8 →
  (c = 8 ∧ (c + 1) `mod` 9 = 0) ∨ (c < 8 ∧ (c + 1) `mod` 9 = c + 1).
Proof.
  intros Hc. destruct (decide (c = 8)) as [->|Hne]; [by left|right].
  split; [lia|]. apply Z.mod_small. lia.
Qed.

Lemma prev_col_cases (c : Z) :
  0 ≤ c ≤ 8 →
  (c = 0 ∧ (c + 8) `mod` 9 = 8) ∨ (0 < c ∧ (c + 8) `mod` 9 = c - 1).
Proof.
  intros Hc. destruct (decide (c = 0)) as [->|Hne]; [by left|right].
  split; [lia|].
  replace (c + 8) with (c - 1 + 1 * 9) by lia.
  rewrite Z.mod_add by done. apply Z.mod_small. lia.
Qed.

Lemma idx_inj (r c r' c' : Z) :
  in_bounds r c → in_bounds r' c' → idx r c = idx r' c' → r = r' ∧ c = c'.
Proof. unfold in_bounds, idx. lia. Qed.

Lemma fixed_not_editable (f : gmap Z (list Z)) (r c : Z) :
  fixed_at f r c → editable f r c → False.
Proof. intros (cols & H1 & Hin) (cols' & H2 & Hnot). naive_solver. Qed.

Lemma fixed_or_editable (f : gmap Z (list Z)) (r c : Z) :
  wf_fixed f → 0 ≤ r ≤ 8 → fixed_at f r c ∨ editable f r c.
Proof.
  intros Hf Hr. destruct (proj2 (Hf r) Hr) as [cols Hcols].
  destruct (decide (c ∈ cols)); [left|right]; by exists cols.
Qed.

(** One turn of the loop of [find_next_slot] moves to the next position in
    row-major order; one turn of [find_previous_slot] to the one before. *)
Lemma next_step (r c : Z) :
  in_bounds r c →
  let c1 := (c + 1) `mod` 9 in
  let r1 := if c1 =? 0 then r + 1 else r in
  0 ≤ c1 ≤ 8 ∧ idx r1 c1 = idx r c + 1 ∧ 0 ≤ r1.
Proof.
  intros [Hr Hc]. unfold idx.
  destruct (next_col_cases c Hc) as [[-> Hm]|[Hlt Hm]]; simpl; rewrite Hm.
  - simpl. lia.
  - destruct (Z.eqb_spec (c + 1) 0); lia.
Qed.

Lemma prev_step (r c : Z) :
  in_bounds r c →
  let c1 := (c + 8) `mod` 9 in
  let r1 := if c1 =? 8 then r - 1 else r in
  0 ≤ c1 ≤ 8 ∧ idx r1 c1 = idx r c - 1 ∧ r1 ≤ 8.
Proof.
  intros [Hr Hc]. unfold idx.
  destruct (prev_col_cases c Hc) as [[-> Hm]|[Hlt Hm]]; simpl; rewrite Hm.
  - simpl. lia.
  - destruct (Z.eqb_spec (c - 1) 8); lia.
Qed.

(** A slot returned by [find_next_slot] is the first editable position
    after the start, in row-major order. *)
Lemma find_next_slot_sound (fuel : nat) (f : gmap Z (list Z)) (r c : Z) (sl : slot_loc) :
  wf_fixed f → in_bounds r c →
  find_next_slot fuel f r c = Ok sl →
  in_bounds (slot_row sl) (slot_col sl) ∧
  editable f (slot_row sl) (slot_col sl) ∧
  idx r c < idx (slot_row sl) (slot_col sl) ∧
  ∀ r' c', in_bounds r' c' →
    idx r c < idx r' c' < idx (slot_row sl) (slot_col sl) → fixed_at f r' c'.
Proof.
  intros Hf. revert r c.
  induction fuel as [|fuel IH]; intros r c Hb0 Hrun; [done|].
  simpl in Hrun. destruct (next_step r c Hb0) as (Hc1 & Hidx & Hr1).
  set (c1 := (c + 1) `mod` 9) in *.
  set (r1 := if c1 =? 0 then r + 1 else r) in *.
  destruct (f !! r1) as [cols|] eqn:Hcols; [|done].
  assert (in_bounds r1 c1) as Hb1.
  { split; [|done]. apply Hf. by eexists. }
  destruct (py_in c1 cols) eqn:Hin; simpl in Hrun.
  - apply bool_decide_eq_true in Hin.
    destruct (IH r1 c1 Hb1 Hrun) as (Hb & Hed & Hlt & Hbetween).
    split_and!; [done|done|lia|].
    intros r' c' Hb' Hrange.
    destruct (decide (idx r' c' = idx r1 c1)) as [Heq|Hne].
    + apply idx_inj in Heq as [-> ->]; [|done..]. by exists cols.
    + apply Hbetween; [done|lia].
  - apply bool_decide_eq_false in Hin. simplify_eq. simpl.
    split_and!; [done|by exists cols|lia|intros; lia].
Qed.

Lemma find_previous_slot_sound (fuel : nat) (f : gmap Z (list Z)) (r c : Z) (sl : slot_loc) :
  wf_fixed f → in_bounds r c →
  find_previous_slot fuel f r c = Ok sl →
  in_bounds (slot_row sl) (slot_col sl) ∧
  editable f (slot_row sl) (slot_col sl) ∧
  idx (slot_row sl) (slot_col sl) < idx r c ∧
  ∀ r' c', in_bounds r' c' →
    idx (slot_row sl) (slot_col sl) < idx r' c' < idx r c → fixed_at f r' c'.
Proof.
  intros Hf. revert r c.
  induction fuel as [|fuel IH]; intros r c Hb0 Hrun; [done|].
  simpl in Hrun. destruct (prev_step r c Hb0) as (Hc1 & Hidx & Hr1).
  set (c1 := (c + 8) `mod` 9) in *.
  set (r1 := if c1 =? 8 then r - 1 else r) in *.
  destruct (f !! r1) as [cols|] eqn:Hcols; [|done].
  assert (in_bounds r1 c1) as Hb1.
  { split; [|done]. apply Hf. by eexists. }
  destruct (py_in c1 cols) eqn:Hin; simpl in Hrun.
  - apply bool_decide_eq_true in Hin.
    destruct (IH r1 c1 Hb1 Hrun) as (Hb & Hed & Hlt & Hbetween).
    split_and!; [done|done|lia|].
    intros r' c' Hb' Hrange.
    destruct (decide (idx r' c' = idx r1 c1)) as [Heq|Hne].
    + apply idx_inj in Heq as [-> ->]; [|done..]. by exists cols.
    + apply Hbetween; [done|lia].
  - apply bool_decide_eq_false in Hin. simplify_eq. simpl.
    split_and!; [done|by exists cols|lia|intros; lia].
Qed.

(** With an editable position ahead and fuel for the distance to it, the
    search does return. *)
Lemma find_next_slot_returns (fuel : nat) (f : gmap Z (list Z)) (r c r' c' : Z) :
  wf_fixed f → in_bounds r c → in_bounds r' c' → editable f r' c' →
  idx r c < idx r' c' → idx r' c' - idx r c ≤ Z.of_nat fuel →
  ∃ sl, find_next_slot fuel f r c = Ok sl.
Proof.
  intros Hf. revert r c.
  induction fuel as [|fuel IH]; intros r c Hb0 Hb' Hed Hlt Hfuel; [lia|].
  simpl. destruct (next_step r c Hb0) as (Hc1 & Hidx & Hr1).
  set (c1 := (c + 1) `mod` 9) in *.
  set (r1 := if c1 =? 0 then r + 1 else r) in *.
  assert (in_bounds r1 c1) as Hb1.
  { split; [|done]. destruct Hb' as [? ?]. unfold idx in *. lia. }
  destruct (proj2 (Hf r1) (proj1 Hb1)) as [cols Hcols]. rewrite Hcols.
  destruct (py_in c1 cols) eqn:Hin; simpl; [|by eexists].
  apply bool_decide_eq_true in Hin.
  apply IH; [done..| |lia].
  destruct (decide (idx r1 c1 = idx r' c')) as [Heq|Hne]; [|lia].
  apply idx_inj in Heq as [-> ->]; [|done..].
  exfalso. eapply fixed_not_editable; [|done]. by exists cols.
Qed.

Lemma find_previous_slot_returns (fuel : nat) (f : gmap Z (list Z)) (r c r' c' : Z) :
  wf_fixed f → in_bounds r c → in_bounds r' c' → editable f r' c' →
  idx r' c' < idx r c → idx r c - idx r' c' ≤ Z.of_nat fuel →
  ∃ sl, find_previous_slot fuel f r c = Ok sl.
Proof.
  intros Hf. revert r c.
  induction fuel as [|fuel IH]; intros r c Hb0 Hb' Hed Hlt Hfuel; [lia|].
  simpl. destruct (prev_step r c Hb0) as (Hc1 & Hidx & Hr1).
  set (c1 := (c + 8) `mod` 9) in *.
  set (r1 := if c1 =? 8 then r - 1 else r) in *.
  assert (in_bounds r1 c1) as Hb1.
  { split; [|done]. destruct Hb' as [? ?]. unfold idx in *. lia. }
  destruct (proj2 (Hf r1) (proj1 Hb1)) as [cols Hcols]. rewrite Hcols.
  destruct (py_in c1 cols) eqn:Hin; simpl; [|by eexists].
  apply bool_decide_eq_true in Hin.
  apply IH; [done..| |lia].
  destruct (decide (idx r1 c1 = idx r' c')) as [Heq|Hne]; [|lia].
  apply idx_inj in Heq as [-> ->]; [|done..].
  exfalso. eapply fixed_not_editable; [|done]. by exists cols.
Qed.

Lemma appears_after_idx (r c er ec : Z) :
  in_bounds r c → in_bounds er ec →
  appears_after r c er ec = true ↔ idx er ec < idx r c.
Proof.
  unfold in_bounds, idx, appears_after. intros Hb Hb'.
  destruct (Z.gtb_spec r er); [split; [lia|done]|].
  destruct (Z.eqb_spec r er); [|split; [done|lia]].
  destruct (Z.gtb_spec c ec); split; (done || lia).
Qed.

(** ** Consistency is kept by the values the engine writes *)

Lemma related_conflicts (g : grid) (r c r' c' : Z) :
  in_bounds r' c' → related r c r' c' → conflicts g r c (cell g r' c').
Proof.
  intros [Hr' Hc'] [->|[->|Hbox]].
  - left. by exists c'.
  - right; left. by exists r'.
  - right; right. exists r', c'. done.
Qed.

Lemma related_sym (r c r' c' : Z) : related r c r' c' → related r' c' r c.
Proof.
  intros [->|[->|Hbox]]; [by left|by right; left|by right; right].
Qed.

Lemma consistent_upd (g : grid) (r c v : Z) :
  wf_grid g → in_bounds r c → consistent g →
  10 ≤ v ∨ ¬ conflicts g r c v →
  consistent (upd g r c v).
Proof.
  intros Hwf Hb Hcons Hv a b a' b' Hab Hab' Hne Hrel Hdigit.
  destruct (decide ((a, b) = (r, c))) as [Heq|Hne1].
  - simplify_eq. rewrite cell_upd_eq in * by done.
    rewrite cell_upd_ne by (done || congruence).
    destruct Hv as [?|Hfree]; [lia|].
    intros ->. apply Hfree. by apply related_conflicts.
  - rewrite cell_upd_ne in * by done.
    destruct (decide ((a', b') = (r, c))) as [Heq|Hne2].
    + simplify_eq. rewrite cell_upd_eq by done.
      destruct Hv as [?|Hfree]; [lia|].
      intros <-. apply Hfree. apply related_conflicts; [done|].
      by apply related_sym.
    + rewrite cell_upd_ne by done. by apply Hcons.
Qed.

(** ** Progress of the forward pass *)

Lemma filled_below_mono (k k' : Z) (g : grid) :
  k' ≤ k → filled_below k g → filled_below k' g.
Proof. intros Hk Hg r c Hb Hlt. apply Hg; [done|lia]. Qed.

Lemma filled_below_upd_above (k : Z) (g : grid) (r c v : Z) :
  in_bounds r c → k ≤ idx r c → filled_below k g →
  filled_below k (upd g r c v).
Proof.
  intros Hb Hk Hg r' c' Hb' Hlt.
  rewrite cell_upd_ne; [by apply Hg|done..|].
  intros [= -> ->]. lia.
Qed.

Lemma filled_below_upd_digit (g : grid) (r c v : Z) :
  wf_grid g → in_bounds r c → 1 ≤ v ≤ 9 → filled_below (idx r c) g →
  filled_below (idx r c + 1) (upd g r c v).
Proof.
  intros Hwf Hb Hv Hg r' c' Hb' Hlt.
  destruct (decide ((r', c') = (r, c))) as [[= -> ->]|Hne].
  - by rewrite cell_upd_eq.
  - rewrite cell_upd_ne by done. apply Hg; [done|].
    destruct (decide (idx r' c' = idx r c)) as [Heq|]; [|lia].
    apply idx_inj in Heq as [-> ->]; done.
Qed.

Lemma range_from_upd_below (k : Z) (g : grid) (r c v : Z) :
  in_bounds r c → idx r c < k → range_from k g →
  range_from k (upd g r c v).
Proof.
  intros Hb Hk Hg r' c' Hb' Hle.
  rewrite cell_upd_ne; [by apply Hg|done..|].
  intros [= -> ->]. lia.
Qed.

(** ** A program logic for the engine *)

Section engine.
Context (f : gmap Z (list Z)) (g0 : grid).
Context (Hf : wf_fixed f).
Context (Hgiven : ∀ r c, in_bounds r c → fixed_at f r c → 1 ≤ cell g0 r c ≤ 9).

Local Abbreviation inv := (inv f g0).
Local Abbreviation wp := (wp f g0).

Lemma wp_ret {A} (a : A) (Q : A → state → Prop) (s : state) :
  inv s → Q a s → wp (mret a) Q s.
Proof. by split. Qed.

Lemma wp_timeout {A} (Q : A → state → Prop) (s : state) :
  inv s → wp timeout Q s.
Proof. done. Qed.

Lemma wp_bind {A B} (m : M A) (k : A → M B) (Q : B → state → Prop) (s : state) :
  wp m (λ a s', wp (k a) Q s') s → wp (m ≫= k) Q s.
Proof.
  unfold wp, mbind, M_bind. destruct (m s); [|done..]. by intros [_ ?].
Qed.

Lemma wp_mono {A} (m : M A) (Q Q' : A → state → Prop) (s : state) :
  wp m Q s → (∀ a s', inv s' → Q a s' → Q' a s') → wp m Q' s.
Proof.
  unfold wp. destruct (m s); [|done..]. intros [? ?] HQ. split; [done|].
  by apply HQ.
Qed.

Lemma wp_read {A} (e : grid → result A) (Q : A → state → Prop) (s : state) :
  inv s → (∀ a, e (puzzle s) = Ok a → Q a s) → wp (read e) Q s.
Proof.
  intros Hinv HQ. unfold wp, read. destruct (e (puzzle s)); [|done..].
  split; [done|]. by apply HQ.
Qed.

Lemma wp_lift {A} (r : result A) (Q : A → state → Prop) (s : state) :
  inv s → (∀ a, r = Ok a → Q a s) → wp (lift r) Q s.
Proof. intros. by apply wp_read. Qed.

Lemma editable_not_fixed (r c : Z) : editable f r c → ¬ fixed_at f r c.
Proof. intros ? ?. by eapply fixed_not_editable. Qed.

(** An assignment to an editable position, of a value that is either out
    of the digits or free in the units of the position. *)
Lemma wp_write (r c v : Z) (Q : unit → state → Prop) (s : state) :
  inv s → in_bounds r c → editable f r c →
  10 ≤ v ∨ ¬ conflicts (puzzle s) r c v →
  (∀ s', inv s' → puzzle s' = upd (puzzle s) r c v → Q tt s') →
  wp (write r c v) Q s.
Proof.
  intros (Hwf & Hfix & Hlog & Hcons) Hb Hed Hv HQ. unfold wp, write.
  rewrite set_cell_ok by done.
  assert (inv (State (upd (puzzle s) r c v) ((r, c) :: writes s))) as Hinv'.
  { split_and!; simpl.
    - by apply upd_wf.
    - intros r' c' Hb' Hfx. rewrite cell_upd_ne; [by apply Hfix|done..|].
      intros [= -> ->]. by eapply fixed_not_editable.
    - apply Forall_cons. split; [|done]. simpl. split; [done|].
      by apply editable_not_fixed.
    - intros Hc0. apply consistent_upd; auto. }
  split; [done|]. by apply HQ.
Qed.

Lemma fixed_digit (s : state) (r c : Z) :
  inv s → in_bounds r c → fixed_at f r c → 1 ≤ cell (puzzle s) r c ≤ 9.
Proof. intros (_ & Hfix & _) Hb Hfx. rewrite Hfix by done. by apply Hgiven. Qed.

(** The forward pass may skip over given cells. *)
Lemma filled_below_skip (s : state) (k k' : Z) :
  inv s → filled_below k (puzzle s) →
  (∀ r c, in_bounds r c → k ≤ idx r c < k' → fixed_at f r c) →
  filled_below k' (puzzle s).
Proof.
  intros Hinv Hk Hgap r c Hb Hlt.
  destruct (decide (idx r c < k)); [by apply Hk|].
  apply fixed_digit; [done..|]. apply Hgap; [done|lia].
Qed.

Lemma wp_for_each {A} (xs : list A) (body : A → M unit)
    (I : nat → state → Prop) (s : state) :
  (∀ i x s', xs !! i = Some x → inv s' → I i s' →
             wp (body x) (λ _, I (S i)) s') →
  inv s → I 0%nat s →
  wp (for_each xs body) (λ _, I (length xs)) s.
Proof.
  revert I s. induction xs as [|x xs IH]; intros I s Hbody Hinv HI.
  - by apply wp_ret.
  - simpl. apply wp_bind.
    eapply wp_mono; [by apply (Hbody 0%nat x s)|].
    intros [] s' Hinv' HI'. simpl in HI'.
    apply (IH (λ i, I (S i))); [|done..].
    intros i y s'' Hy. by apply (Hbody (S i)).
Qed.

Lemma range_from_mono (k k' : Z) (g : grid) :
  k ≤ k' → range_from k g → range_from k' g.
Proof. intros Hk Hg r c Hb Hle. apply Hg; [done|lia]. Qed.

Lemma filled_below_step (g : grid) (r c : Z) :
  in_bounds r c → filled_below (idx r c) g → 1 ≤ cell g r c ≤ 9 →
  filled_below (idx r c + 1) g.
Proof.
  intros Hb Hg Hv r' c' Hb' Hlt.
  destruct (decide (idx r' c' = idx r c)) as [Heq|Hne].
  - apply idx_inj in Heq as [-> ->]; done.
  - apply Hg; [done|lia].
Qed.

(** *** The re-fill loop *)

Lemma modify_loop_spec (fuel : nat) (er ec num cr cc : Z) (s : state) :
  inv s → in_bounds er ec → in_bounds cr cc → idx cr cc ≤ idx er ec →
  range_from (idx er ec + 1) (puzzle s) →
  filled_below (if num <? 10 then idx cr cc + 1 else idx cr cc) (puzzle s) →
  wp (modify_loop fuel f er ec num cr cc) (modify_post er ec) s.
Proof.
  revert num cr cc s.
  induction fuel as [|fuel IH];
    intros num cr cc s Hinv Hbe Hbc Hle Hrange Hfilled; cbn [modify_loop];
    destruct (Z.ltb_spec num 10) as [Hnum|Hnum].
  - by apply wp_timeout.
  - apply wp_ret; [done|]. split; [done|]. simpl.
    destruct (Z.ltb_spec num 10); [lia|done].
  - apply wp_bind, wp_lift; [done|]. intros sl Hsl. cbn zeta.
    destruct (find_next_slot_sound _ _ _ _ _ Hf Hbc Hsl)
      as (Hbx & Hedx & Hltx & Hgap).
    assert (filled_below (idx (slot_row sl) (slot_col sl)) (puzzle s)) as Hupto.
    { eapply filled_below_skip; [done|exact Hfilled|].
      intros r c Hb Hrc. apply Hgap; [done|lia]. }
    destruct (appears_after (slot_row sl) (slot_col sl) er ec) eqn:Hafter;
      cbn [negb].
    + apply appears_after_idx in Hafter; [|done..].
      apply wp_ret; [done|]. split; [done|]. simpl.
      destruct (Z.ltb_spec num 10); [|lia].
      eapply filled_below_mono; [|exact Hupto]. lia.
    + assert (idx (slot_row sl) (slot_col sl) ≤ idx er ec) as Hle'.
      { destruct (decide (idx er ec < idx (slot_row sl) (slot_col sl))) as [Hlt|]; [|lia].
        apply appears_after_idx in Hlt; [congruence|done..]. }
      apply wp_bind, wp_read; [done|]. intros m Hm.
      destruct (pick_input_num_ok (puzzle s) (slot_row sl) (slot_col sl) 1)
        as (m' & Hm' & Hge & _ & Hfree & _); [apply Hinv|done|].
      rewrite Hm' in Hm. injection Hm as ->.
      apply wp_bind. destruct (Z.ltb_spec m 10) as [Hm10|Hm10].
      * apply wp_write; [done..|right; apply Hfree; lia|].
        intros s' Hinv' Hs'. apply IH; [done..| |]; rewrite Hs'.
        -- apply range_from_upd_below; [done|lia|done].
        -- destruct (Z.ltb_spec m 10); [|lia].
           apply filled_below_upd_digit; [apply Hinv|done|lia|done].
      * apply wp_ret; [done|]. apply IH; [done..|].
        destruct (Z.ltb_spec m 10); [lia|done].
  - apply wp_ret; [done|]. split; [done|]. simpl.
    destruct (Z.ltb_spec num 10); [lia|done].
Qed.

(** *** The backtracking loop *)

Lemma backtrack_spec (fuel : nat) (row index num cr cc : Z) (s : state) :
  inv s → in_bounds row index →
  range_from (idx row index + 1) (puzzle s) →
  (if num >? 9
   then in_bounds cr cc ∧ idx cr cc ≤ idx row index ∧
        filled_below (idx cr cc) (puzzle s)
   else filled_below (idx row index + 1) (puzzle s)) →
  wp (backtrack fuel f row index num cr cc) (λ _, cell_done row index) s.
Proof.
  revert num cr cc s.
  induction fuel as [|fuel IH];
    intros num cr cc s Hinv Hbp Hrange Hcur; cbn [backtrack];
    destruct (Z.gtb_spec num 9) as [Hnum|Hnum].
  - by apply wp_timeout.
  - by apply wp_ret.
  - destruct Hcur as (Hbc & Hle & Hfilled).
    apply wp_bind, wp_lift; [done|]. intros sl Hsl. cbn zeta.
    destruct (find_previous_slot_sound _ _ _ _ _ Hf Hbc Hsl)
      as (Hbq & Hedq & Hltq & _).
    set (qr := slot_row sl) in *. set (qc := slot_col sl) in *.
    apply wp_bind, wp_read; [done|]. intros old Hold.
    rewrite get_cell_ok in Hold by (apply Hinv || done).
    injection Hold as <-.
    assert (1 ≤ cell (puzzle s) qr qc ≤ 9) as Hold by (by apply Hfilled).
    apply wp_bind, wp_read; [done|]. intros n Hn.
    destruct (pick_input_num_ok (puzzle s) qr qc (cell (puzzle s) qr qc + 1))
      as (n' & Hn' & Hge & Hsame & Hfree & _); [apply Hinv|done|].
    rewrite Hn' in Hn. injection Hn as ->.
    apply wp_bind, wp_write; [done..| |].
    { destruct (decide (cell (puzzle s) qr qc + 1 < 10)); [right; auto|left; lia]. }
    intros s' Hinv' Hs'.
    assert (range_from (idx row index + 1) (puzzle s')) as Hrange'.
    { rewrite Hs'. apply range_from_upd_below; [done|lia|done]. }
    destruct (Z.ltb_spec n 10) as [Hn10|Hn10].
    + apply wp_bind. unfold modify_previous_slots.
      apply wp_bind, wp_read; [done|]. intros v Hv.
      rewrite get_cell_ok in Hv by (apply Hinv' || done).
      injection Hv as <-.
      assert (cell (puzzle s') qr qc = n) as Hcell.
      { rewrite Hs'. apply cell_upd_eq; [apply Hinv|done]. }
      rewrite Hcell.
      eapply wp_mono.
      { apply modify_loop_spec; [done..|lia|done|].
        destruct (Z.ltb_spec n 10); [|lia]. rewrite Hs'.
        apply filled_below_upd_digit; [apply Hinv|done|lia|].
        eapply filled_below_mono; [|exact Hfilled]. lia. }
      intros res s'' Hinv'' [Hrange'' Hres]. apply IH; [done..|].
      destruct (Z.ltb_spec (filled_num res) 10), (Z.gtb_spec (filled_num res) 9);
        (done || lia).
    + apply IH; [done..|].
      destruct (Z.gtb_spec n 9); [|lia].
      split_and!; [done|lia|]. rewrite Hs'.
      apply filled_below_upd_above; [done|lia|].
      eapply filled_below_mono; [|exact Hfilled]. lia.
  - by apply wp_ret.
Qed.

(** *** The forward pass *)

Lemma solve_cell_spec (fuel : nat) (row index : Z) (s : state) :
  inv s → in_bounds row index →
  filled_below (idx row index) (puzzle s) →
  range_from (idx row index) (puzzle s) →
  wp (solve_cell fuel f row index) (λ _, cell_done row index) s.
Proof.
  intros Hinv Hb Hfilled Hrange. unfold solve_cell.
  apply wp_bind, wp_read; [done|]. intros slot Hslot.
  rewrite get_cell_ok in Hslot by (apply Hinv || done).
  injection Hslot as <-.
  assert (0 ≤ cell (puzzle s) row index ≤ 9) as Hslot by (apply Hrange; [done|lia]).
  apply wp_bind. destruct (Z.eqb_spec (cell (puzzle s) row index) 0) as [Hz|Hnz].
  - assert (editable f row index) as Hed.
    { destruct (fixed_or_editable f row index Hf (proj1 Hb)) as [Hfx|]; [|done].
      pose proof (fixed_digit s row index Hinv Hb Hfx). lia. }
    apply wp_bind, wp_read; [done|]. intros n Hn.
    destruct (pick_input_num_ok (puzzle s) row index 1)
      as (n' & Hn' & Hge & _ & Hfree & _); [apply Hinv|done|].
    rewrite Hn' in Hn. injection Hn as ->.
    apply wp_write; [done..|right; apply Hfree; lia|].
    intros s' Hinv' Hs'.
    apply wp_bind, wp_read; [done|]. intros v Hv.
    rewrite get_cell_ok in Hv by (apply Hinv' || done).
    injection Hv as <-.
    assert (cell (puzzle s') row index = n) as ->.
    { rewrite Hs'. apply cell_upd_eq; [apply Hinv|done]. }
    apply backtrack_spec; [done..| |]; rewrite Hs'.
    + apply range_from_upd_below; [done|lia|].
      eapply range_from_mono; [|done]. lia.
    + destruct (Z.gtb_spec n 9).
      * split_and!; [done|lia|]. by apply filled_below_upd_above.
      * apply filled_below_upd_digit; [apply Hinv|done|lia|done].
  - apply wp_ret; [done|].
    apply wp_bind, wp_read; [done|]. intros v Hv.
    rewrite get_cell_ok in Hv by (apply Hinv || done).
    injection Hv as <-.
    apply backtrack_spec; [done..| |].
    + eapply range_from_mono; [|done]. lia.
    + destruct (Z.gtb_spec (cell (puzzle s) row index) 9); [lia|].
      apply filled_below_step; [done..|lia].
Qed.

Lemma solve_sudoku_spec (fuel : nat) (s : state) :
  inv s → range_from 0 (puzzle s) →
  wp (solve_sudoku fuel f) (λ _ s', filled_below 81 (puzzle s')) s.
Proof.
  intros Hinv Hrange. unfold solve_sudoku.
  apply wp_bind, wp_read; [done|]. intros n [= <-].
  destruct Hinv as ([Hlen Hrows] & Hinv). rewrite Hlen.
  eapply wp_mono.
  { apply (wp_for_each _ _
             (λ i s', filled_below (9 * Z.of_nat i) (puzzle s') ∧
                      range_from (9 * Z.of_nat i) (puzzle s'))).
    - intros i row s' [-> Hi]%lookup_seqZ Hinv' [Hfilled' Hrange'].
      rewrite Z.add_0_l.
      apply wp_bind, wp_read; [done|]. intros r Hr.
      rewrite row_ok in Hr by (apply Hinv' || lia). injection Hr as <-.
      unfold row_values at 1. rewrite length_fmap, length_seqZ.
      eapply wp_mono.
      { apply (wp_for_each _ _
                 (λ j s'', filled_below (idx (Z.of_nat i) (Z.of_nat j)) (puzzle s'') ∧
                           range_from (idx (Z.of_nat i) (Z.of_nat j)) (puzzle s''))).
        - intros j index s'' [-> Hj]%lookup_seqZ Hinv'' [Hfilled'' Hrange''].
          rewrite Z.add_0_l. eapply wp_mono.
          { apply solve_cell_spec; [done|split; lia|done..]. }
          intros [] s3 _ [? ?]. unfold idx in *.
          by replace (9 * Z.of_nat i + Z.of_nat (S j))
            with (9 * Z.of_nat i + Z.of_nat j + 1) by lia.
        - done.
        - unfold idx. by rewrite Z.add_0_r. }
      intros [] s'' _ [? ?]. rewrite length_seqZ in *. unfold idx in *.
      by replace (9 * Z.of_nat (S i)) with (9 * Z.of_nat i + Z.of_nat (Z.to_nat 9)) by lia.
    - by split.
    - split; [|done]. intros r c [? ?]. unfold idx. lia. }
  intros [] s' _ [Hfilled' _]. by rewrite length_seqZ in Hfilled'.
Qed.
End engine.

(** ** The 81 positions, and deciding the vocabulary on a given puzzle *)

Lemma elem_of_positions (r c : Z) : (r, c) ∈ positions ↔ in_bounds r c.
Proof.
  unfold positions, in_bounds. rewrite list_elem_of_bind. split.
  - intros (r' & Hin & Hr'%elem_of_seqZ).
    apply list_elem_of_bind in Hin as (c' & Hin & Hc'%elem_of_seqZ).
    apply list_elem_of_singleton in Hin. simplify_eq. lia.
  - intros [Hr Hc]. exists r. split; [|apply elem_of_seqZ; lia].
    apply list_elem_of_bind. exists c. split; [|apply elem_of_seqZ; lia].
    by apply list_elem_of_singleton.
Qed.

Lemma forall_in_bounds (P : Z → Z → Prop) :
  (∀ r c, in_bounds r c → P r c) ↔ Forall (λ p, P p.1 p.2) positions.
Proof.
  rewrite Forall_forall. split.
  - intros HP [r c] Hin%elem_of_positions. by apply HP.
  - intros HP r c Hb%elem_of_positions. by apply (HP (r, c)).
Qed.

#[global] Instance in_bounds_dec (r c : Z) : Decision (in_bounds r c).
Proof. unfold in_bounds. apply _. Defined.

#[global] Instance wf_grid_dec (g : grid) : Decision (wf_grid g).
Proof. unfold wf_grid. apply _. Defined.

#[global] Instance fixed_at_dec (f : gmap Z (list Z)) (r c : Z) :
  Decision (fixed_at f r c).
Proof.
  unfold fixed_at. destruct (f !! r) as [cols|].
  - destruct (decide (c ∈ cols)); [left; by exists cols|right].
    intros (cols' & [= <-] & ?). done.
  - right. by intros (cols' & [=] & _).
Defined.

Lemma wf_fixed_dom (f : gmap Z (list Z)) :
  wf_fixed f ↔ dom f = list_to_set (seqZ 0 9).
Proof.
  unfold wf_fixed. split.
  - intros Hf. apply set_eq. intros r.
    rewrite elem_of_dom, elem_of_list_to_set, elem_of_seqZ, Hf. lia.
  - intros Hdom r. rewrite <-elem_of_dom, Hdom, elem_of_list_to_set, elem_of_seqZ.
    lia.
Qed.

#[global] Instance wf_fixed_dec (f : gmap Z (list Z)) : Decision (wf_fixed f).
Proof.
  refine (cast_if (decide (dom f = list_to_set (seqZ 0 9))));
    by rewrite wf_fixed_dom.
Defined.

#[global] Instance in_range_dec (g : grid) : Decision (in_range g).
Proof.
  refine (cast_if (decide (Forall (λ p, 0 ≤ cell g p.1 p.2 ≤ 9) positions)));
    unfold in_range; by rewrite forall_in_bounds.
Defined.

#[global] Instance precondition_dec (g : grid) (f : gmap Z (list Z)) :
  Decision (precondition g f).
Proof.
  refine (cast_if (decide
    (wf_grid g ∧ wf_fixed f ∧ in_range g ∧
     Forall (λ p, fixed_at f p.1 p.2 → 1 ≤ cell g p.1 p.2 ≤ 9) positions)));
    unfold precondition; by rewrite (forall_in_bounds (λ r c, fixed_at f r c → _)).
Defined.

#[global] Instance related_dec (r c r' c' : Z) : Decision (related r c r' c').
Proof. unfold related. apply _. Defined.

Lemma consistent_positions (g : grid) :
  consistent g ↔
  Forall (λ p, Forall (λ q, p ≠ q → related p.1 p.2 q.1 q.2 →
                            1 ≤ cell g p.1 p.2 ≤ 9 →
                            cell g p.1 p.2 ≠ cell g q.1 q.2) positions)
         positions.
Proof.
  rewrite Forall_forall. setoid_rewrite Forall_forall. split.
  - intros Hg [r c] Hp%elem_of_positions [r' c'] Hq%elem_of_positions. simpl.
    by apply Hg.
  - intros Hg r c r' c' Hp%elem_of_positions Hq%elem_of_positions.
    by apply (Hg (r, c) Hp (r', c') Hq).
Qed.

#[global] Instance consistent_dec (g : grid) : Decision (consistent g).
Proof.
  refine (cast_if (decide
    (Forall (λ p, Forall (λ q, p ≠ q → related p.1 p.2 q.1 q.2 →
                               1 ≤ cell g p.1 p.2 ≤ 9 →
                               cell g p.1 p.2 ≠ cell g q.1 q.2) positions)
            positions)));
    by rewrite consistent_positions.
Defined.

Lemma solved_units (g : grid) :
  solved g ↔
  wf_grid g ∧
  Forall (λ r, row_values g r ≡ₚ seqZ 1 9) (seqZ 0 9) ∧
  Forall (λ c, col_values g c ≡ₚ seqZ 1 9) (seqZ 0 9) ∧
  Forall (λ p, box_values g p.1 p.2 ≡ₚ seqZ 1 9) positions.
Proof.
  unfold solved. rewrite <-(forall_in_bounds (λ r c, box_values g r c ≡ₚ _)).
  rewrite !Forall_forall. setoid_rewrite elem_of_seqZ.
  split; intros (? & Hr & Hc & ?); (split_and!; [done| | |done]);
    intros x ?; (apply Hr || apply Hc); lia.
Qed.

#[global] Instance solved_dec (g : grid) : Decision (solved g).
Proof.
  refine (cast_if (decide
    (wf_grid g ∧
     Forall (λ r, row_values g r ≡ₚ seqZ 1 9) (seqZ 0 9) ∧
     Forall (λ c, col_values g c ≡ₚ seqZ 1 9) (seqZ 0 9) ∧
     Forall (λ p, box_values g p.1 p.2 ≡ₚ seqZ 1 9) positions)));
    by rewrite solved_units.
Defined.

(** ** Solved puzzles *)

Lemma fmap_inj_on {A B} (h : A → B) (l : list A) (x y : A) :
  NoDup (h <$> l) → x ∈ l → y ∈ l → h x = h y → x = y.
Proof.
  induction l as [|a l IH]; intros Hnd Hx Hy Heq; [by apply elem_of_nil in Hx|].
  rewrite fmap_cons in Hnd. apply NoDup_cons in Hnd as [Hnotin Hnd].
  apply elem_of_cons in Hx as [->|Hx]; apply elem_of_cons in Hy as [->|Hy].
  - done.
  - exfalso. apply Hnotin. rewrite Heq. by apply list_elem_of_fmap_2.
  - exfalso. apply Hnotin. rewrite <-Heq. by apply list_elem_of_fmap_2.
  - by apply IH.
Qed.

Lemma digits_perm (l : list Z) :
  NoDup l → length l = 9%nat → (∀ x, x ∈ l → 1 ≤ x ≤ 9) → l ≡ₚ seqZ 1 9.
Proof.
  intros Hnd Hlen Hdig. apply submseteq_length_Permutation.
  - apply NoDup_submseteq; [done|]. intros x Hx%Hdig. apply elem_of_seqZ. lia.
  - rewrite length_seqZ. lia.
Qed.

Lemma NoDup_grid_cells (sr sc : Z) : NoDup (grid_cells sr sc).
Proof.
  unfold grid_cells. apply NoDup_bind; [| |apply NoDup_seqZ].
  - intros r1 r2 [r c] _ _ H1 H2.
    apply list_elem_of_bind in H1 as (c1 & H1%list_elem_of_singleton & _).
    apply list_elem_of_bind in H2 as (c2 & H2%list_elem_of_singleton & _).
    congruence.
  - intros r _. apply NoDup_bind; [| |apply NoDup_seqZ].
    + intros c1 c2 [r' c'] _ _ H1%list_elem_of_singleton H2%list_elem_of_singleton.
      congruence.
    + intros c _. apply NoDup_singleton.
Qed.

Lemma solved_of_consistent (g : grid) :
  wf_grid g → consistent g → filled_below 81 g → solved g.
Proof.
  intros Hwf Hcons Hfilled.
  assert (∀ r c, in_bounds r c → 1 ≤ cell g r c ≤ 9) as Hdig.
  { intros r c Hb. apply Hfilled; [done|]. destruct Hb. unfold idx. lia. }
  split_and!; [done| | |].
  - intros r Hr. apply digits_perm.
    + apply NoDup_fmap_2_strong; [|apply NoDup_seqZ].
      intros c c' Hc%elem_of_seqZ Hc'%elem_of_seqZ Heq.
      destruct (decide (c = c')) as [|Hne]; [done|]. exfalso.
      apply (Hcons r c r c'); [split; lia|split; lia|congruence|by left| |done].
      apply Hdig. split; lia.
    + unfold row_values. by rewrite length_fmap, length_seqZ.
    + intros x (c & Hc & <-)%elem_of_row_values. by apply Hdig.
  - intros c Hc. apply digits_perm.
    + apply NoDup_fmap_2_strong; [|apply NoDup_seqZ].
      intros r r' Hr%elem_of_seqZ Hr'%elem_of_seqZ Heq.
      destruct (decide (r = r')) as [|Hne]; [done|]. exfalso.
      apply (Hcons r c r' c); [split; lia|split; lia|congruence|by right; left| |done].
      apply Hdig. split; lia.
    + unfold col_values. by rewrite length_fmap, length_seqZ.
    + intros x (r & Hr & <-)%elem_of_col_values. by apply Hdig.
  - intros r c Hb. apply digits_perm.
    + apply NoDup_fmap_2_strong; [|apply NoDup_grid_cells].
      intros [r1 c1] [r2 c2] [Hr1 Hc1]%elem_of_grid_cells
        [Hr2 Hc2]%elem_of_grid_cells Heq. simpl in Heq.
      destruct (box_index_bounds r c r1 c1 Hb Hr1 Hc1) as [Hb1 Hbox1].
      destruct (box_index_bounds r c r2 c2 Hb Hr2 Hc2) as [Hb2 Hbox2].
      destruct (decide ((r1, c1) = (r2, c2))) as [|Hne]; [done|]. exfalso.
      apply (Hcons r1 c1 r2 c2); [done..| |by apply Hdig|done].
      right; right. congruence.
    + unfold box_values. by rewrite length_fmap.
    + intros x (r' & c' & Hb' & _ & <-)%elem_of_box_values; [|done].
      by apply Hdig.
Qed.

Lemma solved_digit (g : grid) (r c : Z) :
  solved g → in_bounds r c → 1 ≤ cell g r c ≤ 9.
Proof.
  intros (_ & Hrows & _) [Hr Hc].
  assert (cell g r c ∈ seqZ 1 9) as Hin%elem_of_seqZ; [|lia].
  rewrite <-(Hrows r Hr). apply elem_of_row_values. by exists c.
Qed.

Lemma solved_consistent (g : grid) : solved g → consistent g.
Proof.
  intros (_ & Hrows & Hcols & Hboxes) r c r' c' Hb Hb' Hne Hrel _ Heq.
  destruct Hrel as [<-|[<-|Hbox]].
  - assert (c = c'); [|congruence].
    apply (fmap_inj_on (λ c, cell g r c) (seqZ 0 9)); [|apply elem_of_seqZ..|done].
    + fold (row_values g r). rewrite (Hrows r) by apply Hb. apply NoDup_seqZ.
    + destruct Hb. lia.
    + destruct Hb'. lia.
  - assert (r = r'); [|congruence].
    apply (fmap_inj_on (λ r, cell g r c) (seqZ 0 9)); [|apply elem_of_seqZ..|done].
    + fold (col_values g c). rewrite (Hcols c) by apply Hb. apply NoDup_seqZ.
    + destruct Hb. lia.
    + destruct Hb'. lia.
  - apply Hne.
    apply (fmap_inj_on (λ p, cell g p.1 p.2)
             (grid_cells (box_index r c).1 (box_index r c).2)); [| | |done].
    + fold (box_values g r c). rewrite (Hboxes r c) by done. apply NoDup_seqZ.
    + apply elem_of_grid_cells. by apply box_index_range.
    + apply elem_of_grid_cells. by apply box_index_range.
Qed.

Lemma wf_grid_elem (g : grid) (row : list Z) (v : Z) :
  wf_grid g → row ∈ g → v ∈ row → ∃ r c, in_bounds r c ∧ cell g r c = v.
Proof.
  intros [Hlen Hrows] [i Hi]%list_elem_of_lookup [j Hj]%list_elem_of_lookup.
  pose proof (lookup_lt_Some _ _ _ Hi).
  pose proof (Forall_lookup_1 _ _ _ _ Hrows Hi) as Hrow. simpl in Hrow.
  pose proof (lookup_lt_Some _ _ _ Hj).
  exists (Z.of_nat i), (Z.of_nat j). split; [split; lia|].
  unfold cell. by rewrite !Nat2Z.id, Hi, Hj.
Qed.

(** ** A whole run *)

Lemma inv_init (f : gmap Z (list Z)) (g : grid) :
  wf_grid g → inv f g (State g []).
Proof.
  intros Hwf. unfold inv. simpl. split; [done|]. split; [done|].
  split; [constructor|done].
Qed.

Lemma run_solve_wp (fuel : nat) (g : grid) (f : gmap Z (list Z)) :
  precondition g f →
  wp f g (solve_sudoku fuel f) (λ _ s', filled_below 81 (puzzle s')) (State g []).
Proof.
  intros (Hwf & Hf & Hrange & Hgiven).
  apply solve_sudoku_spec; [done..|by apply inv_init|].
  intros r c Hb _. by apply Hrange.
Qed.

(** The invariant holds wherever the run stops. *)
Lemma run_solve_inv (fuel : nat) (g : grid) (f : gmap Z (list Z)) :
  precondition g f → inv f g (final_state (run_solve fuel g f)).
Proof.
  intros Hpre. pose proof (run_solve_wp fuel g f Hpre) as Hwp.
  unfold wp in Hwp. unfold run_solve.
  destruct (solve_sudoku fuel f (State g [])); simpl; tauto.
Qed.

(** A run that returns has filled the 81 cells with digits. *)
Lemma run_solve_filled (fuel : nat) (g : grid) (f : gmap Z (list Z)) (s' : state) :
  precondition g f → run_solve fuel g f = Ret tt s' → filled_below 81 (puzzle s').
Proof.
  intros Hpre Hrun. pose proof (run_solve_wp fuel g f Hpre) as Hwp.
  unfold wp in Hwp. unfold run_solve in Hrun. rewrite Hrun in Hwp. tauto.
Qed.

(** ** Cells that already hold a digit are passed over *)

Lemma M_bind_ret {A B} (m : M A) (k : A → M B) (s s' : state) (a : A) :
  m s = Ret a s' → (m ≫= k) s = k a s'.
Proof. intros Hm. unfold mbind, M_bind. by rewrite Hm. Qed.

Lemma read_ok {A} (e : grid → result A) (s : state) (a : A) :
  e (puzzle s) = Ok a → read e s = Ret a s.
Proof. intros He. unfold read. by rewrite He. Qed.

Lemma backtrack_done (fuel : nat) (f : gmap Z (list Z))
    (row index num cr cc : Z) (s : state) :
  num ≤ 9 → backtrack fuel f row index num cr cc s = Ret tt s.
Proof.
  intros Hnum. destruct fuel; cbn [backtrack];
    destruct (Z.gtb_spec num 9); (done || lia).
Qed.

Lemma solve_cell_skip (fuel : nat) (f : gmap Z (list Z)) (r c : Z) (s : state) :
  wf_grid (puzzle s) → in_bounds r c → 1 ≤ cell (puzzle s) r c ≤ 9 →
  solve_cell fuel f r c s = Ret tt s.
Proof.
  intros Hwf Hb Hv. unfold solve_cell.
  rewrite (M_bind_ret _ _ s s (cell (puzzle s) r c))
    by (apply read_ok; by apply get_cell_ok).
  destruct (Z.eqb_spec (cell (puzzle s) r c) 0); [lia|].
  rewrite (M_bind_ret _ _ s s tt) by done.
  rewrite (M_bind_ret _ _ s s (cell (puzzle s) r c))
    by (apply read_ok; by apply get_cell_ok).
  apply backtrack_done. lia.
Qed.

Lemma for_each_skip {A} (xs : list A) (body : A → M unit) (s : state) :
  (∀ x, x ∈ xs → body x s = Ret tt s) → for_each xs body s = Ret tt s.
Proof.
  induction xs as [|x xs IH]; intros Hbody; [done|].
  simpl. rewrite (M_bind_ret _ _ s s tt) by (apply Hbody; left).
  apply IH. intros y Hy. apply Hbody. by right.
Qed.

Lemma solve_sudoku_skip (fuel : nat) (f : gmap Z (list Z)) (s : state) :
  wf_grid (puzzle s) →
  (∀ r c, in_bounds r c → 1 ≤ cell (puzzle s) r c ≤ 9) →
  solve_sudoku fuel f s = Ret tt s.
Proof.
  intros Hwf Hdig. unfold solve_sudoku.
  rewrite (M_bind_ret _ _ s s 9) by (apply read_ok; by rewrite (proj1 Hwf)).
  apply for_each_skip. intros r Hr%elem_of_seqZ.
  rewrite (M_bind_ret _ _ s s (row_values (puzzle s) r))
    by (apply read_ok, row_ok; [done|lia]).
  apply for_each_skip. intros c Hc%elem_of_seqZ.
  unfold row_values in Hc. rewrite length_fmap, length_seqZ in Hc.
  apply solve_cell_skip; [done|split; lia|apply Hdig; split; lia].
Qed.

(** ** Row-major moves *)

Lemma iter_advance (k : nat) (r c : Z) :
  in_bounds r c → idx r c + Z.of_nat k ≤ 80 →
  in_bounds (Nat.iter k advance (r, c)).1 (Nat.iter k advance (r, c)).2 ∧
  idx (Nat.iter k advance (r, c)).1 (Nat.iter k advance (r, c)).2
    = idx r c + Z.of_nat k.
Proof.
  intros Hb. induction k as [|k IH]; intros Hk.
  - simpl. split; [done|lia].
  - destruct IH as [[Hr Hc] Hidx]; [lia|]. simpl.
    destruct (Nat.iter k advance (r, c)) as [r1 c1]. simpl in *.
    unfold advance, idx, in_bounds in *. simpl.
    destruct (Z.eqb_spec c1 8); simpl; lia.
Qed.

Lemma iter_retreat (k : nat) (r c : Z) :
  in_bounds r c → 0 ≤ idx r c - Z.of_nat k →
  in_bounds (Nat.iter k retreat (r, c)).1 (Nat.iter k retreat (r, c)).2 ∧
  idx (Nat.iter k retreat (r, c)).1 (Nat.iter k retreat (r, c)).2
    = idx r c - Z.of_nat k.
Proof.
  intros Hb. induction k as [|k IH]; intros Hk.
  - simpl. split; [done|lia].
  - destruct IH as [[Hr Hc] Hidx]; [lia|]. simpl.
    destruct (Nat.iter k retreat (r, c)) as [r1 c1]. simpl in *.
    unfold retreat, idx, in_bounds in *. simpl.
    destruct (Z.eqb_spec c1 0); simpl; lia.
Qed.

Lemma find_next_slot_advance (fuel : nat) (f : gmap Z (list Z)) (r c r' c' : Z) :
  wf_fixed f → in_bounds r c → in_bounds r' c' → editable f r' c' →
  idx r c < idx r' c' → (81 ≤ fuel)%nat →
  ∃ k, (1 ≤ k)%nat ∧
    find_next_slot fuel f r c = Ok (slot_of (Nat.iter k advance (r, c))) ∧
    in_bounds (Nat.iter k advance (r, c)).1 (Nat.iter k advance (r, c)).2 ∧
    ¬ fixed_at f (Nat.iter k advance (r, c)).1 (Nat.iter k advance (r, c)).2 ∧
    ∀ j, (1 ≤ j < k)%nat →
      fixed_at f (Nat.iter j advance (r, c)).1 (Nat.iter j advance (r, c)).2.
Proof.
  intros Hf Hb Hb' Hed Hlt Hfuel.
  destruct (find_next_slot_returns fuel f r c r' c') as [sl Hsl]; [done..| |].
  { destruct Hb, Hb'. unfold idx in *. lia. }
  destruct (find_next_slot_sound fuel f r c sl Hf Hb Hsl)
    as (Hbs & Heds & Hlts & Hgap).
  destruct sl as [sr sc]. simpl in *.
  assert (idx sr sc ≤ 80) by (destruct Hbs; unfold idx; lia).
  set (k := Z.to_nat (idx sr sc - idx r c)).
  destruct (iter_advance k r c Hb) as [Hbk Hidxk]; [lia|].
  assert (Nat.iter k advance (r, c) = (sr, sc)) as Hk.
  { destruct (Nat.iter k advance (r, c)) as [r1 c1]. simpl in *.
    destruct (idx_inj r1 c1 sr sc) as [-> ->]; [done..|lia|done]. }
  exists k. split_and!; [lia|by rewrite Hk|by rewrite Hk| |].
  - rewrite Hk. simpl. intros Hfx. by eapply fixed_not_editable.
  - intros j Hj. destruct (iter_advance j r c Hb) as [Hbj Hidxj]; [lia|].
    apply Hgap; [done|lia].
Qed.

Lemma find_previous_slot_retreat (fuel : nat) (f : gmap Z (list Z)) (r c r' c' : Z) :
  wf_fixed f → in_bounds r c → in_bounds r' c' → editable f r' c' →
  idx r' c' < idx r c → (81 ≤ fuel)%nat →
  ∃ k, (1 ≤ k)%nat ∧
    find_previous_slot fuel f r c = Ok (slot_of (Nat.iter k retreat (r, c))) ∧
    in_bounds (Nat.iter k retreat (r, c)).1 (Nat.iter k retreat (r, c)).2 ∧
    ¬ fixed_at f (Nat.iter k retreat (r, c)).1 (Nat.iter k retreat (r, c)).2 ∧
    ∀ j, (1 ≤ j < k)%nat →
      fixed_at f (Nat.iter j retreat (r, c)).1 (Nat.iter j retreat (r, c)).2.
Proof.
  intros Hf Hb Hb' Hed Hlt Hfuel.
  destruct (find_previous_slot_returns fuel f r c r' c') as [sl Hsl]; [done..| |].
  { destruct Hb, Hb'. unfold idx in *. lia. }
  destruct (find_previous_slot_sound fuel f r c sl Hf Hb Hsl)
    as (Hbs & Heds & Hlts & Hgap).
  destruct sl as [sr sc]. simpl in *.
  assert (0 ≤ idx sr sc) by (destruct Hbs; unfold idx; lia).
  set (k := Z.to_nat (idx r c - idx sr sc)).
  destruct (iter_retreat k r c Hb) as [Hbk Hidxk]; [lia|].
  assert (Nat.iter k retreat (r, c) = (sr, sc)) as Hk.
  { destruct (Nat.iter k retreat (r, c)) as [r1 c1]. simpl in *.
    destruct (idx_inj r1 c1 sr sc) as [-> ->]; [done..|lia|done]. }
  exists k. split_and!; [lia|by rewrite Hk|by rewrite Hk| |].
  - rewrite Hk. simpl. intros Hfx. by eapply fixed_not_editable.
  - intros j Hj. destruct (iter_retreat j r c Hb) as [Hbj Hidxj]; [lia|].
    apply Hgap; [done|lia].
Qed.

(** ** How a computation may end *)

Lemma M_bind_exc {A B} (m : M A) (k : A → M B) (s s' : state) (e : exn) :
  m s = Exc e s' → (m ≫= k) s = Exc e s'.
Proof. intros Hm. unfold mbind, M_bind. by rewrite Hm. Qed.

Lemma M_bind_timeout {A B} (m : M A) (k : A → M B) (s s' : state) :
  m s = Timeout s' → (m ≫= k) s = Timeout s'.
Proof. intros Hm. unfold mbind, M_bind. by rewrite Hm. Qed.

Lemma ends_bind {A B} (m : M A) (k : A → M B) (s : state)
    (R' : A → state → Prop) (X' : exn → state → Prop) (T' : state → Prop)
    (R : B → state → Prop) (X : exn → state → Prop) (T : state → Prop) :
  ends R' X' T' (m s) →
  (∀ a s', R' a s' → ends R X T (k a s')) →
  (∀ e s', X' e s' → X e s') → (∀ s', T' s' → T s') →
  ends R X T ((m ≫= k) s).
Proof.
  intros Hm Hk HX HT. unfold mbind, M_bind.
  destruct (m s) as [a s'|e s'|s']; simpl in *; auto.
Qed.

Lemma ends_mono {A} (o : outcome A)
    (R' R : A → state → Prop) (X' X : exn → state → Prop) (T' T : state → Prop) :
  ends R' X' T' o →
  (∀ a s', R' a s' → R a s') → (∀ e s', X' e s' → X e s') →
  (∀ s', T' s' → T s') → ends R X T o.
Proof. destruct o; simpl; auto. Qed.

Lemma for_each_ends {A} (xs : list A) (body : A → M unit)
    (I : nat → state → Prop) (X : exn → state → Prop) (T : state → Prop)
    (s : state) :
  (∀ i x s', xs !! i = Some x → I i s' →
             ends (λ _, I (S i)) X T (body x s')) →
  I 0%nat s → ends (λ _, I (length xs)) X T (for_each xs body s).
Proof.
  revert I s. induction xs as [|x xs IH]; intros I s Hbody HI; [done|].
  simpl. eapply ends_bind; [by apply (Hbody 0%nat x s)| |done..].
  intros [] s' HI'. apply (IH (λ i, I (S i))); [|done].
  intros i y s'' Hy. by apply (Hbody (S i)).
Qed.

Lemma write_ok (s : state) (r c v : Z) :
  wf_grid (puzzle s) → in_bounds r c →
  write r c v s = Ret tt (State (upd (puzzle s) r c v) ((r, c) :: writes s)).
Proof. intros Hwf Hb. unfold write. by rewrite set_cell_ok. Qed.

Lemma idx_bounds (r c : Z) : in_bounds r c → 0 ≤ idx r c ≤ 80.
Proof. intros [? ?]. unfold idx. lia. Qed.

(** ** The write log only grows *)

Lemma grows_refl (s : state) : grows s s.
Proof. unfold grows. done. Qed.

Lemma grows_trans (s1 s2 s3 : state) : grows s1 s2 → grows s2 s3 → grows s1 s3.
Proof. unfold grows. by etrans. Qed.

Lemma grows_last (s s' : state) (p : Z * Z) :
  grows s s' → last (writes s) = Some p → last (writes s') = Some p.
Proof.
  intros [l ->] Hlast. rewrite last_app, Hlast. done.
Qed.

Lemma steady_ret {A} (a : A) : steady (mret a).
Proof. intros s. apply grows_refl. Qed.

Lemma steady_timeout {A} : steady (@timeout A).
Proof. intros s. apply grows_refl. Qed.

Lemma steady_read {A} (e : grid → result A) : steady (read e).
Proof. intros s. unfold read. destruct (e (puzzle s)); apply grows_refl. Qed.

Lemma steady_lift {A} (r : result A) : steady (lift r).
Proof. apply steady_read. Qed.

Lemma steady_write (row col v : Z) : steady (write row col v).
Proof.
  intros s. unfold write.
  destruct (set_cell (puzzle s) row col v); simpl; try apply grows_refl.
  unfold grows. simpl. by apply suffix_cons_r.
Qed.

Lemma steady_bind {A B} (m : M A) (k : A → M B) :
  steady m → (∀ a, steady (k a)) → steady (m ≫= k).
Proof.
  intros Hm Hk s. eapply ends_bind; [apply Hm| |done..].
  intros a s' Hs'. simpl in Hs'. eapply ends_mono; [apply Hk|..]; simpl;
    intros; eapply grows_trans; eassumption.
Qed.

Lemma steady_for_each {A} (xs : list A) (body : A → M unit) :
  (∀ x, steady (body x)) → steady (for_each xs body).
Proof.
  intros Hbody. induction xs as [|x xs IH]; simpl.
  - apply steady_ret.
  - apply steady_bind; [done|]. by intros [].
Qed.

Lemma steady_modify_loop (fuel : nat) (f : gmap Z (list Z))
    (er ec num cr cc : Z) :
  steady (modify_loop fuel f er ec num cr cc).
Proof.
  revert num cr cc. induction fuel as [|fuel IH]; intros num cr cc;
    cbn [modify_loop]; destruct (num <? 10);
    try apply steady_ret; try apply steady_timeout.
  apply steady_bind; [apply steady_lift|]. intros sl. cbn zeta.
  destruct (negb _); [|apply steady_ret].
  apply steady_bind; [apply steady_read|]. intros m.
  apply steady_bind; [|by intros []].
  destruct (m <? 10); [apply steady_write|apply steady_ret].
Qed.

Lemma steady_modify_previous_slots (fuel : nat) (f : gmap Z (list Z))
    (sr sc er ec : Z) :
  steady (modify_previous_slots fuel f sr sc er ec).
Proof.
  apply steady_bind; [apply steady_read|]. intros num.
  apply steady_modify_loop.
Qed.

Lemma steady_backtrack (fuel : nat) (f : gmap Z (list Z))
    (row index num cr cc : Z) :
  steady (backtrack fuel f row index num cr cc).
Proof.
  revert num cr cc. induction fuel as [|fuel IH]; intros num cr cc;
    cbn [backtrack]; destruct (num >? 9);
    try apply steady_ret; try apply steady_timeout.
  apply steady_bind; [apply steady_lift|]. intros sl. cbn zeta.
  apply steady_bind; [apply steady_read|]. intros old.
  apply steady_bind; [apply steady_read|]. intros n.
  apply steady_bind; [apply steady_write|]. intros [].
  destruct (n <? 10); [|done].
  apply steady_bind; [apply steady_modify_previous_slots|done].
Qed.

Lemma steady_solve_cell (fuel : nat) (f : gmap Z (list Z)) (row index : Z) :
  steady (solve_cell fuel f row index).
Proof.
  apply steady_bind; [apply steady_read|]. intros slot.
  apply steady_bind.
  - destruct (slot =? 0); [|apply steady_ret].
    apply steady_bind; [apply steady_read|]. intros m. apply steady_write.
  - intros []. apply steady_bind; [apply steady_read|]. intros num.
    apply steady_backtrack.
Qed.

(** ** The forward pass starts at the first empty cell *)

Lemma first_empty_unique (g : grid) (r c r' c' : Z) :
  first_empty g r c → first_empty g r' c' → (r', c') = (r, c).
Proof.
  intros (Hb & Hz & Hbefore) (Hb' & Hz' & Hbefore').
  destruct (decide (idx r' c' < idx r c)) as [Hlt|].
  { by destruct (Hbefore r' c' Hb' Hlt). }
  destruct (decide (idx r c < idx r' c')) as [Hlt|].
  { by destruct (Hbefore' r c Hb Hlt). }
  destruct (idx_inj r' c' r c) as [-> ->]; [done..|lia|done].
Qed.

Lemma started_grows (g : grid) (s s' : state) :
  started g s → grows s s' → started g s'.
Proof.
  intros (r & c & Hfirst & Hlast) Hs'. exists r, c. split; [done|].
  by eapply grows_last.
Qed.

Lemma solve_cell_starts (fuel : nat) (f : gmap Z (list Z)) (g : grid)
    (row index : Z) (s : state) :
  wf_grid g → in_range g → in_bounds row index →
  started g s ∨ untouched g (idx row index) s →
  ends (λ _ s', started g s' ∨ untouched g (idx row index + 1) s')
       (λ _, started g) (started g) (solve_cell fuel f row index s).
Proof.
  intros Hwf Hrange Hb [(r & c & Hfirst & Hlast)|[Hnone ->]].
  - assert (started g s) as Hst by (by exists r, c).
    eapply ends_mono; [apply steady_solve_cell|..]; simpl.
    + intros ? s' Hs'. left. by apply (started_grows g s).
    + intros ? s' Hs'. by apply (started_grows g s).
    + intros s' Hs'. by apply (started_grows g s).
  - destruct (decide (cell g row index = 0)) as [Hzero|Hnz].
    + assert (first_empty g row index) as Hfirst by done.
      unfold solve_cell.
      rewrite (M_bind_ret _ _ (State g []) (State g []) (cell g row index))
        by (by apply read_ok, get_cell_ok).
      cbn beta. rewrite Hzero. cbn [Z.eqb].
      destruct (pick_input_num_ok g row index 1) as (m & Hm & _); [done..|].
      set (s1 := State (upd g row index m) [(row, index)]).
      rewrite (M_bind_ret _ _ (State g []) s1 tt).
      2:{ rewrite (M_bind_ret _ _ (State g []) (State g []) m)
            by (by apply read_ok).
          by apply write_ok. }
      assert (∀ s', grows s1 s' → started g s') as Hstart.
      { intros s' Hs'. exists row, index. split; [done|].
        by apply (grows_last s1). }
      eapply ends_mono.
      * apply (steady_bind (read (λ p, get_cell p row index))
                 (λ num, backtrack fuel f row index num row index));
          [apply steady_read|intros; apply steady_backtrack].
      * simpl. intros ? s' Hs'. left. by apply Hstart.
      * simpl. intros ? s' Hs'. by apply Hstart.
      * done.
    + pose proof (Hrange row index Hb).
      rewrite solve_cell_skip by (done || simpl; lia). simpl. right.
      split; [|done]. intros r c Hb' Hlt.
      destruct (decide (idx r c = idx row index)) as [Heq|].
      * apply idx_inj in Heq as [-> ->]; done.
      * apply Hnone; [done|lia].
Qed.

Lemma run_solve_starts (fuel : nat) (g : grid) (f : gmap Z (list Z)) :
  wf_grid g → in_range g →
  ends (λ _ s', started g s' ∨ untouched g 81 s')
       (λ _, started g) (started g) (run_solve fuel g f).
Proof.
  intros Hwf Hrange. unfold run_solve, solve_sudoku.
  rewrite (M_bind_ret _ _ (State g []) (State g []) 9)
    by (apply read_ok; simpl; by rewrite (proj1 Hwf)).
  eapply ends_mono;
    [apply (for_each_ends _ _
              (λ i s', started g s' ∨ untouched g (9 * Z.of_nat i) s')
              (λ _, started g) (started g))| | |];
    [| |intros [] s'; rewrite length_seqZ; intros Hs'; exact Hs'|done..].
  - intros i row s' [-> Hi]%lookup_seqZ Hs'. rewrite Z.add_0_l.
    destruct Hs' as [Hst|[Hnone ->]].
    + eapply ends_mono.
      * apply steady_bind; [apply steady_read|]. intros r.
        apply steady_for_each. intros index. apply steady_solve_cell.
      * simpl. intros ? s'' Hs''. left. by apply (started_grows g s').
      * simpl. intros ? s'' Hs''. by apply (started_grows g s').
      * simpl. intros s'' Hs''. by apply (started_grows g s').
    + rewrite (M_bind_ret _ _ _ (State g []) (row_values g (Z.of_nat i)))
        by (apply read_ok, row_ok; [done|lia]).
      unfold row_values at 1. rewrite length_fmap, length_seqZ.
      eapply ends_mono;
        [apply (for_each_ends _ _
                  (λ j s'', started g s'' ∨
                            untouched g (idx (Z.of_nat i) (Z.of_nat j)) s'')
                  (λ _, started g) (started g))| | |];
        [| |intros [] s''; rewrite length_seqZ|done..].
      * intros j index s'' [-> Hj]%lookup_seqZ Hs''. rewrite Z.add_0_l.
        eapply ends_mono;
          [apply solve_cell_starts; [done|done|split; lia|done]| |done..].
        intros [] s3. unfold idx.
        by replace (9 * Z.of_nat i + Z.of_nat (S j))
          with (9 * Z.of_nat i + Z.of_nat j + 1) by lia.
      * right. split; [|done]. unfold idx. by rewrite Z.add_0_r.
      * unfold idx.
        by replace (9 * Z.of_nat (S i))
          with (9 * Z.of_nat i + Z.of_nat (Z.to_nat 9)) by lia.
  - right. split; [|done]. intros r c Hb Hlt. pose proof (idx_bounds r c Hb). lia.
Qed.

(** * The claims *)

(** C1, as stated, fails: the preconditions allow given cells that repeat a
    digit, and the engine has no check of its input.  With every cell given
    and two 5's in row 0 the call returns at once, the puzzle untouched and
    not solved. *)
Lemma C1_given_duplicates_returned :
  precondition two_fives_full (fixed_of two_fives_full) ∧
  run_solve 1 two_fives_full (fixed_of two_fives_full)
    = Ret tt (State two_fives_full []) ∧
  ¬ solved two_fives_full.
Proof. split_and!; compute_done. Qed.

(** C1, amended: when moreover no digit stands twice in a row, a column or a
    box of the input, a call of [solve_sudoku] that returns leaves every
    row, column and box with each of 1..9 exactly once, and every given
    cell with its input value. *)
Theorem C1_solve_sudoku_sound (fuel : nat) (g : grid) (f : gmap Z (list Z)) (s' : state) :
  precondition g f → consistent g →
  run_solve fuel g f = Ret tt s' →
  solved (puzzle s') ∧
  ∀ r c, in_bounds r c → fixed_at f r c → cell (puzzle s') r c = cell g r c.
Proof.
  intros Hpre Hcons Hrun.
  pose proof (run_solve_inv fuel g f Hpre) as (Hwf & Hfix & _ & Hc).
  rewrite Hrun in *. simpl in *. split; [|done].
  apply solved_of_consistent; [done|by apply Hc|].
  by eapply run_solve_filled.
Qed.

Lemma C1_solve_sudoku_sound_witness :
  solved (puzzle (State first_solution [(8, 8)])) ∧
  ∀ r c, in_bounds r c → fixed_at (fixed_of one_missing) r c →
         cell (puzzle (State first_solution [(8, 8)])) r c = cell one_missing r c.
Proof.
  apply (C1_solve_sudoku_sound 10 one_missing (fixed_of one_missing)
           (State first_solution [(8, 8)])); compute_done.
Defined.

(** C2: in a run from an input that meets the preconditions, no assignment
    goes to a given cell.  The log holds every assignment made before the
    run returned, raised, or was cut by the fuel, so the statement covers
    the intermediate states of the run; the given cells hold their input
    values in each of them. *)
Theorem C2_fixed_cells_never_written (fuel : nat) (g : grid) (f : gmap Z (list Z)) :
  precondition g f →
  (∀ r c, (r, c) ∈ writes (final_state (run_solve fuel g f)) →
          in_bounds r c ∧ ¬ fixed_at f r c) ∧
  (∀ r c, in_bounds r c → fixed_at f r c →
          cell (puzzle (final_state (run_solve fuel g f))) r c = cell g r c).
Proof.
  intros Hpre.
  pose proof (run_solve_inv fuel g f Hpre) as (_ & Hfix & Hlog & _).
  split; [|done]. intros r c Hin.
  rewrite Forall_forall in Hlog. by apply (Hlog (r, c)).
Qed.

Lemma C2_fixed_cells_never_written_witness :
  (∀ r c, (r, c) ∈ writes (final_state
                             (run_solve 10 no_completion (fixed_of no_completion))) →
          in_bounds r c ∧ ¬ fixed_at (fixed_of no_completion) r c) ∧
  (∀ r c, in_bounds r c → fixed_at (fixed_of no_completion) r c →
          cell (puzzle (final_state
                          (run_solve 10 no_completion (fixed_of no_completion)))) r c
          = cell no_completion r c).
Proof.
  apply (C2_fixed_cells_never_written 10 no_completion (fixed_of no_completion)).
  compute_done.
Defined.

(** C3, as stated, fails: nothing is detected up front.  With two 5's given
    in row 0 the engine runs its search, assigns the empty cell and returns
    normally. *)
Lemma C3_malformed_input_is_searched :
  precondition two_fives (fixed_of two_fives) ∧
  givens_conflict two_fives (fixed_of two_fives) ∧
  run_solve 10 two_fives (fixed_of two_fives)
    = Ret tt (State two_fives_full [(8, 8)]).
Proof.
  split_and!; [compute_done| |compute_done].
  exists 0, 4, 0, 5. split_and!; compute_done.
Qed.

(** C3, amended: for an input whose given cells already repeat a value in a
    row, a column or a box, the engine makes no check and has no error for
    it: it runs its search as on any input.  If no cell is empty the call
    returns at once with the puzzle as given; otherwise the first
    assignment of the run goes to the first empty cell in row-major order,
    however the run ends.  Since the engine never assigns a given cell, the
    given cells keep their input values however the run ends; the puzzle
    therefore still holds the two conflicting givens, and is not solved, in
    particular when the call returns. *)
Theorem C3_malformed_givens_survive (fuel : nat) (g : grid) (f : gmap Z (list Z)) :
  precondition g f → givens_conflict g f →
  ((∀ r c, in_bounds r c → cell g r c ≠ 0) →
   run_solve fuel g f = Ret tt (State g [])) ∧
  (∀ r c, first_empty g r c →
          last (writes (final_state (run_solve fuel g f))) = Some (r, c)) ∧
  (∀ r c, in_bounds r c → fixed_at f r c →
          cell (puzzle (final_state (run_solve fuel g f))) r c = cell g r c) ∧
  givens_conflict (puzzle (final_state (run_solve fuel g f))) f ∧
  ¬ solved (puzzle (final_state (run_solve fuel g f))).
Proof.
  intros Hpre (r & c & r' & c' & Hb & Hb' & Hne & Hrel & Hfx & Hfx' & Heq).
  pose proof (run_solve_inv fuel g f Hpre) as (_ & Hfix & _).
  pose proof (run_solve_starts fuel g f (proj1 Hpre)
                (proj1 (proj2 (proj2 Hpre)))) as Hstarts.
  set (o := run_solve fuel g f) in *.
  assert (cell (puzzle (final_state o)) r c = cell (puzzle (final_state o)) r' c')
    as Heq' by (by rewrite !Hfix).
  split; [|split; [|split; [done|split]]].
  - intros Hfull.
    assert (∀ s', ¬ started g s') as Hnot.
    { intros s' (r1 & c1 & (Hb1 & Hz1 & _) & _). by apply (Hfull r1 c1). }
    destruct o as [[] s'|e s'|s']; simpl in Hstarts.
    + destruct Hstarts as [?|[_ ->]]; [by destruct (Hnot s')|done].
    + by destruct (Hnot s').
    + by destruct (Hnot s').
  - intros r1 c1 Hfirst.
    assert (started g (final_state o)) as (r2 & c2 & Hfirst2 & Hlast).
    { destruct o as [[] s'|e s'|s']; simpl in *; [|done..].
      destruct Hstarts as [?|[Hnone _]]; [done|].
      destruct Hfirst as (Hb1 & Hz1 & _). destruct (Hnone r1 c1 Hb1); [|done].
      pose proof (idx_bounds r1 c1 Hb1). lia. }
    by rewrite Hlast, (first_empty_unique g r1 c1 r2 c2).
  - exists r, c, r', c'. done.
  - intros Hsolved.
    apply (solved_consistent _ Hsolved r c r' c'); [done..| |done].
    by apply solved_digit.
Qed.

Lemma C3_malformed_givens_survive_witness :
  ((∀ r c, in_bounds r c → cell two_fives r c ≠ 0) →
   run_solve 10 two_fives (fixed_of two_fives) = Ret tt (State two_fives [])) ∧
  (∀ r c, first_empty two_fives r c →
          last (writes (final_state (run_solve 10 two_fives (fixed_of two_fives))))
          = Some (r, c)) ∧
  (∀ r c, in_bounds r c → fixed_at (fixed_of two_fives) r c →
          cell (puzzle (final_state (run_solve 10 two_fives (fixed_of two_fives))))
               r c = cell two_fives r c) ∧
  givens_conflict
    (puzzle (final_state (run_solve 10 two_fives (fixed_of two_fives))))
    (fixed_of two_fives) ∧
  ¬ solved (puzzle (final_state (run_solve 10 two_fives (fixed_of two_fives)))).
Proof.
  apply (C3_malformed_givens_survive 10 two_fives (fixed_of two_fives));
    [compute_done|].
  exists 0, 4, 0, 5. split_and!; compute_done.
Defined.

(** C4: the code does not do what the claim says.  The givens below are
    well formed (no digit twice in a unit) and have no completion: the last
    cell of row 0 can only be a 9, and a 9 is given right below it.  The
    engine writes the sentinel 10 into that cell, walks back over the eight
    givens of row 0 and looks up row [-1] of the dictionary: the call ends
    in [KeyError], whatever the fuel from 10 on, with the 10 left in the
    puzzle. *)
Theorem C4_unsolvable_raises_key_error :
  precondition no_completion (fixed_of no_completion) ∧
  consistent no_completion ∧
  (∀ g', ¬ completion no_completion g') ∧
  ∀ n, run_solve (10 + n) no_completion (fixed_of no_completion)
       = Exc (KeyError (-1))
             (State ([1; 2; 3; 4; 5; 6; 7; 8; 10] :: drop 1 no_completion)
                    [(0, 8)]).
Proof.
  split_and!; [compute_done|compute_done| |intros n; vm_compute; reflexivity].
  intros g' [Hsolved Hkeep].
  pose proof (solved_consistent _ Hsolved) as Hcons.
  assert (in_bounds 0 8) as Hb08 by compute_done.
  pose proof (solved_digit g' 0 8 Hsolved Hb08) as Hdigit.
  assert (∀ c, 0 ≤ c ≤ 7 → cell g' 0 8 ≠ c + 1) as Hrow.
  { intros c Hc.
    assert (cell no_completion 0 c = c + 1) as Hgiven.
    { assert (c = 0 ∨ c = 1 ∨ c = 2 ∨ c = 3 ∨ c = 4 ∨ c = 5 ∨ c = 6 ∨ c = 7)
        as Hcases by lia.
      destruct_or!; by subst. }
    rewrite <-Hgiven, <-(Hkeep 0 c); [|split; lia|lia].
    apply Hcons; [done|split; lia| |by left|done].
    intros [= <-]. lia. }
  assert (cell g' 0 8 ≠ cell g' 1 8) as Hcol.
  { apply Hcons; [done|compute_done|done|by right; left|done]. }
  rewrite (Hkeep 1 8) in Hcol by compute_done.
  assert (cell no_completion 1 8 = 9) as Hnine by done.
  pose proof (Hrow 0). pose proof (Hrow 1). pose proof (Hrow 2).
  pose proof (Hrow 3). pose proof (Hrow 4). pose proof (Hrow 5).
  pose proof (Hrow 6). pose proof (Hrow 7). lia.
Qed.

(** C5: the code does not do what the claim says.  A call that ends in
    failure hands the puzzle back with sentinels in it.  On the well-formed
    givens without completion of C4 the engine writes 10 into the last cell
    of row 0, and the only report of failure the code has, the [KeyError]
    of the lookup of row [-1], leaves it there.  On [sentinel_pair] the
    engine writes 8 and then 10 into the last two cells of row 0, picks
    again for the first of them from 9, passes 9 and the 10 now in the row,
    and writes 11: the call ends in [KeyError] with 11 and 10 in the
    puzzle.  Both inputs meet the preconditions and have no repeated
    digit. *)
Theorem C5_sentinel_left_on_failure :
  (precondition no_completion (fixed_of no_completion) ∧
   consistent no_completion ∧
   (∀ n, run_solve (10 + n) no_completion (fixed_of no_completion)
         = Exc (KeyError (-1))
               (State ([1; 2; 3; 4; 5; 6; 7; 8; 10] :: drop 1 no_completion)
                      [(0, 8)])) ∧
   ¬ all_digits ([1; 2; 3; 4; 5; 6; 7; 8; 10] :: drop 1 no_completion)) ∧
  (precondition sentinel_pair (fixed_of sentinel_pair) ∧
   consistent sentinel_pair ∧
   (∀ n, run_solve (10 + n) sentinel_pair (fixed_of sentinel_pair)
         = Exc (KeyError (-1))
               (State ([1; 2; 3; 4; 5; 6; 7; 11; 10] :: drop 1 sentinel_pair)
                      [(0, 7); (0, 8); (0, 7)])) ∧
   ¬ all_digits ([1; 2; 3; 4; 5; 6; 7; 11; 10] :: drop 1 sentinel_pair)).
Proof.
  split; (split; [compute_done|]; split; [compute_done|]; split;
          [intros n; vm_compute; reflexivity|]).
  - intros Hall. pose proof (Hall [1; 2; 3; 4; 5; 6; 7; 8; 10] 10) as H10.
    assert (1 ≤ 10 ≤ 9) as Hbad; [|lia].
    apply H10; [left|]. do 8 right. left.
  - intros Hall. pose proof (Hall [1; 2; 3; 4; 5; 6; 7; 11; 10] 11) as H11.
    assert (1 ≤ 11 ≤ 9) as Hbad; [|lia].
    apply H11; [left|]. do 7 right. left.
Qed.

(** C6: on a 9×9 puzzle of values 0..9, at a position of the square and
    from a start in 1..10, [pick_input_num] returns a value [n] in 1..10,
    not below the start: every value from the start up to [n] excluded
    stands in the row, the column or the box of the position, and [n], when
    it is a digit, stands in none of them; so [n] is the smallest free digit
    from the start on, and 10 when there is none. *)
Theorem C6_pick_input_num_correct (g : grid) (r c start : Z) :
  wf_grid g → in_range g → in_bounds r c → 1 ≤ start ≤ 10 →
  ∃ n, pick_input_num g r c start = Ok n ∧
       1 ≤ n ≤ 10 ∧ start ≤ n ∧
       (n ≤ 9 → ¬ conflicts g r c n) ∧
       (∀ d, start ≤ d < n → conflicts g r c d).
Proof.
  intros Hwf Hrange Hb Hstart.
  destruct (pick_input_num_ok g r c start Hwf Hb)
    as (n & Hn & Hge & Hsame & Hfree & Hmin).
  exists n. split_and!; [done|lia| |done| |done].
  - destruct (decide (n ≤ 10)) as [|Hbig]; [done|]. exfalso.
    assert (conflicts g r c 10) as Hten by (apply Hmin; lia).
    assert (∀ r' c', in_bounds r' c' → cell g r' c' ≠ 10) as Hno.
    { intros r' c' Hb'. pose proof (Hrange r' c' Hb'). lia. }
    destruct Hten as [(c' & Hc' & Heq)|[(r' & Hr' & Heq)|(r' & c' & Hb' & _ & Heq)]].
    + apply (Hno r c'); [split; [apply Hb|done]|done].
    + apply (Hno r' c); [split; [done|apply Hb]|done].
    + by apply (Hno r' c').
  - intros Hdigit. apply Hfree. lia.
Qed.

(** The range 0..9 of the values matters: with a sentinel 10 left in the
    row, the loop steps past 10. *)
Remark pick_input_num_past_sentinel :
  pick_input_num ([1; 2; 3; 4; 5; 6; 7; 8; 10] :: drop 1 no_completion) 0 8 1
    = Ok 11.
Proof. compute_done. Qed.

Lemma C6_pick_input_num_correct_witness :
  ∃ n, pick_input_num one_missing 8 8 1 = Ok n ∧
       1 ≤ n ≤ 10 ∧ 1 ≤ n ∧
       (n ≤ 9 → ¬ conflicts one_missing 8 8 n) ∧
       (∀ d, 1 ≤ d < n → conflicts one_missing 8 8 d).
Proof.
  apply (C6_pick_input_num_correct one_missing 8 8 1); compute_done.
Defined.

(** C7: with the nine row numbers as keys, from a position of the square
    and with an editable position of the square after it, [find_next_slot]
    returns the position reached by moving forward [k ≥ 1] times, one column
    at a time and from column 8 to column 0 of the next row; that position
    is not given, and the positions passed on the way are all given.
    [find_previous_slot] does the same backwards when an editable position
    lies before.  Fuel for the 81 positions is enough. *)
Theorem C7_navigation_correct (fuel : nat) (f : gmap Z (list Z)) (r c r' c' : Z) :
  wf_fixed f → in_bounds r c → in_bounds r' c' → editable f r' c' →
  (81 ≤ fuel)%nat →
  (idx r c < idx r' c' →
   ∃ k, (1 ≤ k)%nat ∧
     find_next_slot fuel f r c = Ok (slot_of (Nat.iter k advance (r, c))) ∧
     in_bounds (Nat.iter k advance (r, c)).1 (Nat.iter k advance (r, c)).2 ∧
     ¬ fixed_at f (Nat.iter k advance (r, c)).1 (Nat.iter k advance (r, c)).2 ∧
     ∀ j, (1 ≤ j < k)%nat →
       fixed_at f (Nat.iter j advance (r, c)).1 (Nat.iter j advance (r, c)).2) ∧
  (idx r' c' < idx r c →
   ∃ k, (1 ≤ k)%nat ∧
     find_previous_slot fuel f r c = Ok (slot_of (Nat.iter k retreat (r, c))) ∧
     in_bounds (Nat.iter k retreat (r, c)).1 (Nat.iter k retreat (r, c)).2 ∧
     ¬ fixed_at f (Nat.iter k retreat (r, c)).1 (Nat.iter k retreat (r, c)).2 ∧
     ∀ j, (1 ≤ j < k)%nat →
       fixed_at f (Nat.iter j retreat (r, c)).1 (Nat.iter j retreat (r, c)).2).
Proof.
  intros Hf Hb Hb' Hed Hfuel. split; intros Hlt.
  - by apply (find_next_slot_advance fuel f r c r' c').
  - by apply (find_previous_slot_retreat fuel f r c r' c').
Qed.

Lemma C7_navigation_correct_witness :
  (∃ k, (1 ≤ k)%nat ∧
     find_next_slot 81 stale_attempt_fixed 8 5
       = Ok (slot_of (Nat.iter k advance (8, 5))) ∧
     in_bounds (Nat.iter k advance (8, 5)).1 (Nat.iter k advance (8, 5)).2 ∧
     ¬ fixed_at stale_attempt_fixed
         (Nat.iter k advance (8, 5)).1 (Nat.iter k advance (8, 5)).2 ∧
     ∀ j, (1 ≤ j < k)%nat →
       fixed_at stale_attempt_fixed
         (Nat.iter j advance (8, 5)).1 (Nat.iter j advance (8, 5)).2) ∧
  (∃ k, (1 ≤ k)%nat ∧
     find_previous_slot 81 stale_attempt_fixed 8 8
       = Ok (slot_of (Nat.iter k retreat (8, 8))) ∧
     in_bounds (Nat.iter k retreat (8, 8)).1 (Nat.iter k retreat (8, 8)).2 ∧
     ¬ fixed_at stale_attempt_fixed
         (Nat.iter k retreat (8, 8)).1 (Nat.iter k retreat (8, 8)).2 ∧
     ∀ j, (1 ≤ j < k)%nat →
       fixed_at stale_attempt_fixed
         (Nat.iter j retreat (8, 8)).1 (Nat.iter j retreat (8, 8)).2).
Proof.
  assert (wf_fixed stale_attempt_fixed) as Hf by compute_done.
  assert (editable stale_attempt_fixed 8 7) as Hed.
  { exists [0; 1; 2; 3; 4; 5; 6]. split; compute_done. }
  split.
  - apply (C7_navigation_correct 81 stale_attempt_fixed 8 5 8 7);
      [done|compute_done|compute_done|done|lia|compute_done].
  - apply (C7_navigation_correct 81 stale_attempt_fixed 8 8 8 7);
      [done|compute_done|compute_done|done|lia|compute_done].
Defined.

(** C8, as stated, fails: the values returned are not rid of 0.  On the
    empty puzzle the row, the column and the box each come back as nine
    0's. *)
Lemma C8_extraction_keeps_zero :
  py_index empty_grid 0 = Ok (replicate 9 0) ∧
  current_col empty_grid 0 = Ok (replicate 9 0) ∧
  current_grid empty_grid 0 0 = Ok (replicate 9 0) ∧
  0 ∈ replicate 9 0.
Proof. split_and!; compute_done. Qed.

(** C8, amended: on a 9×9 puzzle and at a position of the square, the
    operations return the list of the nine values of the row, of the column
    and of the box whose top-left corner is
    [(row - row mod 3, col - col mod 3)], empty cells (0) and repeated
    values included and in reading order; so a value is in the list exactly
    when it stands in the unit.  They only read the puzzle: the state is
    left as it was. *)
Theorem C8_extraction_reads_units (s : state) (r c : Z) :
  wf_grid (puzzle s) → in_bounds r c →
  read (λ p, py_index p r) s = Ret (row_values (puzzle s) r) s ∧
  read (λ p, current_col p c) s = Ret (col_values (puzzle s) c) s ∧
  read (λ p, current_grid p r c) s = Ret (box_values (puzzle s) r c) s ∧
  box_values (puzzle s) r c
    = (λ p, cell (puzzle s) p.1 p.2)
        <$> grid_cells (r - r `mod` 3) (c - c `mod` 3) ∧
  ∀ d, (d ∈ row_values (puzzle s) r ↔ in_row (puzzle s) r d) ∧
       (d ∈ col_values (puzzle s) c ↔ in_col (puzzle s) c d) ∧
       (d ∈ box_values (puzzle s) r c ↔ in_box (puzzle s) r c d).
Proof.
  intros Hwf Hb. split_and!.
  - apply read_ok, row_ok; [done|apply Hb].
  - apply read_ok, current_col_ok; [done|apply Hb].
  - by apply read_ok, current_grid_ok.
  - done.
  - intros d. split_and!.
    + apply elem_of_row_values.
    + apply elem_of_col_values.
    + by apply elem_of_box_values.
Qed.

Lemma C8_extraction_reads_units_witness :
  read (λ p, py_index p 4) (State first_solution [])
    = Ret (row_values first_solution 4) (State first_solution []) ∧
  read (λ p, current_col p 7) (State first_solution [])
    = Ret (col_values first_solution 7) (State first_solution []) ∧
  read (λ p, current_grid p 4 7) (State first_solution [])
    = Ret (box_values first_solution 4 7) (State first_solution []) ∧
  box_values first_solution 4 7
    = (λ p, cell first_solution p.1 p.2) <$> grid_cells (4 - 4 `mod` 3) (7 - 7 `mod` 3) ∧
  ∀ d, (d ∈ row_values first_solution 4 ↔ in_row first_solution 4 d) ∧
       (d ∈ col_values first_solution 7 ↔ in_col first_solution 7 d) ∧
       (d ∈ box_values first_solution 4 7 ↔ in_box first_solution 4 7 d).
Proof.
  apply (C8_extraction_reads_units (State first_solution []) 4 7); compute_done.
Defined.

(** C9: on a puzzle that is already solved, the call returns with the
    puzzle unchanged and without a single assignment, whatever the
    dictionary of given cells and whatever the fuel. *)
Theorem C9_solve_sudoku_idempotent (fuel : nat) (g : grid) (f : gmap Z (list Z)) :
  solved g → run_solve fuel g f = Ret tt (State g []).
Proof.
  intros Hsolved. unfold run_solve. apply solve_sudoku_skip.
  - apply Hsolved.
  - intros r c Hb. by apply solved_digit.
Qed.

Lemma C9_solve_sudoku_idempotent_witness :
  run_solve 0 first_solution (fixed_of first_solution)
    = Ret tt (State first_solution []).
Proof.
  apply (C9_solve_sudoku_idempotent 0 first_solution (fixed_of first_solution)).
  compute_done.
Defined.

(** C10: the code does not do what the claim says; both lookups it rules
    out happen.  On the well-formed givens without completion of C4 the
    backtracking loop asks for the slot before [(0, 0)] and looks up the
    key [-1].  On [stale_attempt], whose last two cells are editable and
    whose cell [(8, 7)] holds a 2 left by an earlier attempt, the engine
    backtracks from the last cell, re-fills it, and the re-fill loop then
    asks for the slot after [(8, 8)] and looks up the key 9: the call ends
    in [KeyError] with the puzzle solved. *)
Theorem C10_key_error_reachable :
  (precondition no_completion (fixed_of no_completion) ∧
   ∀ n, run_solve (10 + n) no_completion (fixed_of no_completion)
        = Exc (KeyError (-1))
              (State ([1; 2; 3; 4; 5; 6; 7; 8; 10] :: drop 1 no_completion)
                     [(0, 8)])) ∧
  (precondition stale_attempt stale_attempt_fixed ∧
   ∀ n, run_solve (10 + n) stale_attempt stale_attempt_fixed
        = Exc (KeyError 9) (State first_solution [(8, 8); (8, 7); (8, 8)])) ∧
  (∀ n, find_previous_slot (S n) (fixed_of no_completion) 0 0 = Raise (KeyError (-1))) ∧
  (∀ n, find_next_slot (S n) stale_attempt_fixed 8 8 = Raise (KeyError 9)).
Proof.
  split_and!; try compute_done; intros n; vm_compute; reflexivity.
Qed.

(** * Further properties of the code *)

(** ** [pick_input_num] on any puzzle *)

Lemma py_index_fuel {A} (l : list A) (i : Z) : py_index l i ≠ OutOfFuel.
Proof.
  unfold py_index. destruct (_ && _); [|done]. by destruct (l !! _).
Qed.

Lemma get_cell_fuel (g : grid) (r c : Z) : get_cell g r c ≠ OutOfFuel.
Proof.
  unfold get_cell. pose proof (py_index_fuel g r).
  destruct (py_index g r) as [row| |]; [|done..]. apply py_index_fuel.
Qed.

Lemma collect_fuel {A B} (f : A → result B) (xs : list A) :
  (∀ x, f x ≠ OutOfFuel) → collect f xs ≠ OutOfFuel.
Proof.
  intros Hf. induction xs as [|x xs IH]; [done|]. simpl.
  pose proof (Hf x). destruct (f x); [|done..]. simpl.
  destruct (collect f xs); done.
Qed.

Lemma pick_loop_fuel (row col grd : list Z) (n : Z) :
  ∃ m, pick_loop (length row + length col + length grd) row col grd n = Ok m ∧
       n ≤ m.
Proof.
  destruct (pick_loop_ok (length row + length col + length grd) row col grd n)
    as (m & Hm & Hle & _).
  { etrans; [apply length_filter|]. rewrite !length_app. lia. }
  by exists m.
Qed.

(** X1: the loop of [pick_input_num] always ends.  Whatever the puzzle (any
    shape, any values), the position and the start, the call returns a
    value or raises; one unit of fuel for each value of the row, the column
    and the box is never used up.  A value it returns is not below the
    start, and a start of 10 or more is returned as it is, the puzzle
    unread, even for a position outside of it. *)
Theorem pick_input_num_terminates (g : grid) (r c n : Z) :
  pick_input_num g r c n ≠ OutOfFuel ∧
  (∀ m, pick_input_num g r c n = Ok m → n ≤ m) ∧
  (10 ≤ n → pick_input_num g r c n = Ok n).
Proof.
  unfold pick_input_num. destruct (Z.ltb_spec n 10) as [Hn|Hn].
  - pose proof (collect_fuel (λ row, get_cell g row c)
                  (seqZ 0 (Z.of_nat (length g))) (λ row, get_cell_fuel g row c))
      as Hcol.
    fold (current_col g c) in Hcol.
    destruct (current_col g c) as [col| |]; [|by split_and!; [done|done|lia]|done].
    rewrite bind_ok.
    pose proof (collect_fuel (λ p, get_cell g p.1 p.2)
                  (grid_cells (r - r `mod` 3) (c - c `mod` 3))
                  (λ p, get_cell_fuel g p.1 p.2)) as Hgrd.
    fold (current_grid g r c) in Hgrd.
    destruct (current_grid g r c) as [grd| |]; [|by split_and!; [done|done|lia]|done].
    rewrite bind_ok.
    pose proof (py_index_fuel g r) as Hrow.
    destruct (py_index g r) as [row| |]; [|by split_and!; [done|done|lia]|done].
    rewrite bind_ok.
    destruct (pick_loop_fuel row col grd n) as (m & Hm & Hle).
    rewrite Hm. split_and!; [done| |lia]. by intros m' [= <-].
  - split_and!; [done| |done]. intros m [= <-]. lia.
Qed.

(** X2: on a 9×9 puzzle, picking again from any start between the first
    start and the value returned gives the same value: the values in
    between are all taken.  In particular the value returned is a fixed
    point of the pick. *)
Theorem pick_input_num_stable (g : grid) (r c n n' m : Z) :
  wf_grid g → in_bounds r c →
  pick_input_num g r c n = Ok m →
  n ≤ n' ≤ m → n' < 10 ∨ n' = m →
  pick_input_num g r c n' = Ok m.
Proof.
  intros Hwf Hb Hm Hn' Hcase.
  destruct (pick_input_num_ok g r c n Hwf Hb)
    as (m0 & Hm0 & Hge & Hsame & Hfree & Hmin).
  rewrite Hm in Hm0. injection Hm0 as <-.
  destruct (pick_input_num_ok g r c n' Hwf Hb)
    as (m' & Hm' & Hge' & Hsame' & Hfree' & Hmin').
  rewrite Hm'. f_equal.
  destruct (decide (n' < 10)) as [Hlt|Hge10].
  - destruct (decide (m' < m)) as [Hlow|Hnlow].
    { exfalso. apply Hfree'; [done|]. apply Hmin. lia. }
    destruct (decide (m < m')) as [Hhigh|]; [|lia].
    exfalso. apply Hfree; [lia|]. apply Hmin'. lia.
  - destruct Hcase as [Hlt| ->]; [lia|]. apply Hsame'. lia.
Qed.

Lemma pick_input_num_stable_witness :
  pick_input_num one_missing 8 8 2 = Ok 2.
Proof.
  apply (pick_input_num_stable one_missing 8 8 1 2 2); [compute_done..|lia|lia].
Defined.

(** X3: on a 9×9 puzzle without a repeated digit, assigning to a cell the
    value [pick_input_num] returned for it succeeds, changes that cell
    only, and leaves the puzzle 9×9 and without a repeated digit. *)
Theorem pick_then_assign_consistent (g : grid) (r c n m : Z) :
  wf_grid g → in_bounds r c → consistent g →
  pick_input_num g r c n = Ok m →
  ∃ g', set_cell g r c m = Ok g' ∧ wf_grid g' ∧ consistent g' ∧
        cell g' r c = m ∧
        ∀ r' c', in_bounds r' c' → (r', c') ≠ (r, c) →
                 cell g' r' c' = cell g r' c'.
Proof.
  intros Hwf Hb Hcons Hm.
  destruct (pick_input_num_ok g r c n Hwf Hb)
    as (m0 & Hm0 & Hge & Hsame & Hfree & _).
  rewrite Hm in Hm0. injection Hm0 as <-.
  exists (upd g r c m). split_and!.
  - by apply set_cell_ok.
  - by apply upd_wf.
  - apply consistent_upd; [done..|].
    destruct (decide (n < 10)); [right; auto|left; lia].
  - by apply cell_upd_eq.
  - intros r' c' Hb' Hne. by apply cell_upd_ne.
Qed.

Lemma pick_then_assign_consistent_witness :
  ∃ g', set_cell one_missing 8 8 2 = Ok g' ∧ wf_grid g' ∧ consistent g' ∧
        cell g' 8 8 = 2 ∧
        ∀ r' c', in_bounds r' c' → (r', c') ≠ (8, 8) →
                 cell g' r' c' = cell one_missing r' c'.
Proof.
  apply (pick_then_assign_consistent one_missing 8 8 1 2); compute_done.
Defined.

(** ** [appears_after] *)

Lemma appears_after_lex (r c r' c' : Z) :
  appears_after r c r' c' = true ↔ r' < r ∨ (r = r' ∧ c' < c).
Proof.
  unfold appears_after.
  destruct (Z.gtb_spec r r'); [split; [lia|done]|].
  destruct (Z.eqb_spec r r'); [|split; [done|lia]].
  destruct (Z.gtb_spec c c'); split; (done || lia).
Qed.

Lemma appears_after_not_lex (r c r' c' : Z) :
  appears_after r c r' c' = false ↔ ¬ (r' < r ∨ (r = r' ∧ c' < c)).
Proof. by rewrite <-appears_after_lex, not_true_iff_false. Qed.

(** X4: [appears_after] is the strict lexicographic order on (row, column)
    pairs of integers: no slot appears after itself, the relation is
    transitive, and of two different slots exactly one appears after the
    other. *)
Theorem appears_after_strict_order (r1 c1 r2 c2 r3 c3 : Z) :
  appears_after r1 c1 r1 c1 = false ∧
  (appears_after r1 c1 r2 c2 = true → appears_after r2 c2 r3 c3 = true →
   appears_after r1 c1 r3 c3 = true) ∧
  (appears_after r1 c1 r2 c2 = true → appears_after r2 c2 r1 c1 = false) ∧
  ((r1, c1) ≠ (r2, c2) →
   appears_after r1 c1 r2 c2 = true ∨ appears_after r2 c2 r1 c1 = true).
Proof.
  rewrite !appears_after_lex, !appears_after_not_lex.
  split_and!; [lia|lia|lia|].
  intros Hne.
  assert (r1 ≠ r2 ∨ c1 ≠ c2) as Hcases.
  { destruct (decide (r1 = r2)) as [->|]; [right; congruence|by left]. }
  lia.
Qed.

(** ** The ends of the navigation *)

Lemma find_next_slot_end (fuel : nat) (f : gmap Z (list Z)) (r c : Z) :
  wf_fixed f → in_bounds r c →
  (∀ r' c', in_bounds r' c' → idx r c < idx r' c' → fixed_at f r' c') →
  81 - idx r c ≤ Z.of_nat fuel →
  find_next_slot fuel f r c = Raise (KeyError 9).
Proof.
  intros Hf. revert r c.
  induction fuel as [|fuel IH]; intros r c Hb Hall Hfuel.
  { destruct Hb. unfold idx in *. lia. }
  simpl. destruct (next_step r c Hb) as (Hc1 & Hidx & Hr1).
  set (c1 := (c + 1) `mod` 9) in *.
  set (r1 := if c1 =? 0 then r + 1 else r) in *.
  destruct (decide (r1 ≤ 8)) as [Hle|Hgt].
  - assert (in_bounds r1 c1) as Hb1 by (split; lia).
    destruct (Hall r1 c1 Hb1) as (cols & Hcols & Hin); [lia|].
    rewrite Hcols. unfold py_in. rewrite bool_decide_eq_true_2 by done. simpl.
    apply IH; [done| |lia].
    intros r' c' Hb' Hlt. apply Hall; [done|lia].
  - assert (r1 = 9) as ->.
    { destruct Hb. unfold idx in *. lia. }
    destruct (f !! 9) as [cols|] eqn:Hcols; [|done].
    assert (0 ≤ 9 ≤ 8); [|lia]. apply Hf. by eexists.
Qed.

Lemma find_previous_slot_end (fuel : nat) (f : gmap Z (list Z)) (r c : Z) :
  wf_fixed f → in_bounds r c →
  (∀ r' c', in_bounds r' c' → idx r' c' < idx r c → fixed_at f r' c') →
  idx r c + 1 ≤ Z.of_nat fuel →
  find_previous_slot fuel f r c = Raise (KeyError (-1)).
Proof.
  intros Hf. revert r c.
  induction fuel as [|fuel IH]; intros r c Hb Hall Hfuel.
  { destruct Hb. unfold idx in *. lia. }
  simpl. destruct (prev_step r c Hb) as (Hc1 & Hidx & Hr1).
  set (c1 := (c + 8) `mod` 9) in *.
  set (r1 := if c1 =? 8 then r - 1 else r) in *.
  destruct (decide (0 ≤ r1)) as [Hle|Hgt].
  - assert (in_bounds r1 c1) as Hb1 by (split; lia).
    destruct (Hall r1 c1 Hb1) as (cols & Hcols & Hin); [lia|].
    rewrite Hcols. unfold py_in. rewrite bool_decide_eq_true_2 by done. simpl.
    apply IH; [done| |lia].
    intros r' c' Hb' Hlt. apply Hall; [done|lia].
  - assert (r1 = -1) as ->.
    { destruct Hb. unfold idx in *. lia. }
    destruct (f !! (-1)) as [cols|] eqn:Hcols; [|done].
    assert (0 ≤ -1 ≤ 8); [|lia]. apply Hf. by eexists.
Qed.

(** X5: with the nine row numbers as keys and from a position of the
    square, [find_next_slot] raises [KeyError] exactly when no editable
    position of the square lies after the start, and the missing key is
    then 9; otherwise it returns a slot.  It never fails in another way. *)
Theorem find_next_slot_key_error (fuel : nat) (f : gmap Z (list Z)) (r c : Z) :
  wf_fixed f → in_bounds r c → (81 ≤ fuel)%nat →
  ((∃ sl, find_next_slot fuel f r c = Ok sl) ∨
   find_next_slot fuel f r c = Raise (KeyError 9)) ∧
  (find_next_slot fuel f r c = Raise (KeyError 9) ↔
   ∀ r' c', in_bounds r' c' → idx r c < idx r' c' → fixed_at f r' c').
Proof.
  intros Hf Hb Hfuel.
  assert (Decision (∃ p, p ∈ positions ∧ idx r c < idx p.1 p.2 ∧ ¬ fixed_at f p.1 p.2))
    as [(p & Hp & Hlt & Hnf)|Hnone].
  { apply list_exist_dec. intros p. apply _. }
  - destruct p as [r' c']. apply elem_of_positions in Hp. simpl in *.
    assert (editable f r' c') as Hed.
    { destruct (fixed_or_editable f r' c' Hf (proj1 Hp)); done. }
    destruct (find_next_slot_returns fuel f r c r' c') as [sl Hsl]; [done..| |].
    { destruct Hb, Hp. unfold idx in *. lia. }
    split; [left; by exists sl|]. rewrite Hsl. split; [done|].
    intros Hall. exfalso. apply Hnf. by apply Hall.
  - assert (∀ r' c', in_bounds r' c' → idx r c < idx r' c' → fixed_at f r' c')
      as Hall.
    { intros r' c' Hb' Hlt. destruct (decide (fixed_at f r' c')); [done|].
      exfalso. apply Hnone. exists (r', c'). by rewrite elem_of_positions. }
    assert (find_next_slot fuel f r c = Raise (KeyError 9)) as Hraise.
    { apply find_next_slot_end; [done..|]. destruct Hb. unfold idx. lia. }
    split; [by right|done].
Qed.

Lemma find_next_slot_key_error_witness :
  ((∃ sl, find_next_slot 81 stale_attempt_fixed 8 8 = Ok sl) ∨
   find_next_slot 81 stale_attempt_fixed 8 8 = Raise (KeyError 9)) ∧
  (find_next_slot 81 stale_attempt_fixed 8 8 = Raise (KeyError 9) ↔
   ∀ r' c', in_bounds r' c' → idx 8 8 < idx r' c' →
            fixed_at stale_attempt_fixed r' c').
Proof.
  apply (find_next_slot_key_error 81 stale_attempt_fixed 8 8);
    [compute_done|compute_done|lia].
Defined.

(** X6: likewise [find_previous_slot] raises [KeyError] exactly when no
    editable position of the square lies before the start, and the missing
    key is then -1; otherwise it returns a slot. *)
Theorem find_previous_slot_key_error (fuel : nat) (f : gmap Z (list Z)) (r c : Z) :
  wf_fixed f → in_bounds r c → (81 ≤ fuel)%nat →
  ((∃ sl, find_previous_slot fuel f r c = Ok sl) ∨
   find_previous_slot fuel f r c = Raise (KeyError (-1))) ∧
  (find_previous_slot fuel f r c = Raise (KeyError (-1)) ↔
   ∀ r' c', in_bounds r' c' → idx r' c' < idx r c → fixed_at f r' c').
Proof.
  intros Hf Hb Hfuel.
  assert (Decision (∃ p, p ∈ positions ∧ idx p.1 p.2 < idx r c ∧ ¬ fixed_at f p.1 p.2))
    as [(p & Hp & Hlt & Hnf)|Hnone].
  { apply list_exist_dec. intros p. apply _. }
  - destruct p as [r' c']. apply elem_of_positions in Hp. simpl in *.
    assert (editable f r' c') as Hed.
    { destruct (fixed_or_editable f r' c' Hf (proj1 Hp)); done. }
    destruct (find_previous_slot_returns fuel f r c r' c') as [sl Hsl]; [done..| |].
    { destruct Hb, Hp. unfold idx in *. lia. }
    split; [left; by exists sl|]. rewrite Hsl. split; [done|].
    intros Hall. exfalso. apply Hnf. by apply Hall.
  - assert (∀ r' c', in_bounds r' c' → idx r' c' < idx r c → fixed_at f r' c')
      as Hall.
    { intros r' c' Hb' Hlt. destruct (decide (fixed_at f r' c')); [done|].
      exfalso. apply Hnone. exists (r', c'). by rewrite elem_of_positions. }
    assert (find_previous_slot fuel f r c = Raise (KeyError (-1))) as Hraise.
    { apply find_previous_slot_end; [done..|]. destruct Hb. unfold idx. lia. }
    split; [by right|done].
Qed.

Lemma find_previous_slot_key_error_witness :
  ((∃ sl, find_previous_slot 81 (fixed_of no_completion) 0 8 = Ok sl) ∨
   find_previous_slot 81 (fixed_of no_completion) 0 8 = Raise (KeyError (-1))) ∧
  (find_previous_slot 81 (fixed_of no_completion) 0 8 = Raise (KeyError (-1)) ↔
   ∀ r' c', in_bounds r' c' → idx r' c' < idx 0 8 →
            fixed_at (fixed_of no_completion) r' c').
Proof.
  apply (find_previous_slot_key_error 81 (fixed_of no_completion) 0 8);
    [compute_done|compute_done|lia].
Defined.

(** X7: the two searches undo each other.  From an editable position of
    the square, the slot [find_next_slot] returns is one from which
    [find_previous_slot] returns the start, and the other way round. *)
Theorem navigation_round_trip (fuel fuel' : nat) (f : gmap Z (list Z))
    (r c : Z) (sl : slot_loc) :
  wf_fixed f → in_bounds r c → editable f r c → (81 ≤ fuel')%nat →
  (find_next_slot fuel f r c = Ok sl →
   find_previous_slot fuel' f (slot_row sl) (slot_col sl) = Ok (Slot r c)) ∧
  (find_previous_slot fuel f r c = Ok sl →
   find_next_slot fuel' f (slot_row sl) (slot_col sl) = Ok (Slot r c)).
Proof.
  intros Hf Hb Hed Hfuel. split; intros Hsl.
  - destruct (find_next_slot_sound fuel f r c sl Hf Hb Hsl)
      as (Hbs & Heds & Hlt & Hgap).
    destruct (find_previous_slot_returns fuel' f (slot_row sl) (slot_col sl) r c)
      as [[pr pc] Hback]; [done..| |].
    { destruct Hb, Hbs. unfold idx in *. lia. }
    rewrite Hback. f_equal.
    destruct (find_previous_slot_sound fuel' f _ _ _ Hf Hbs Hback)
      as (Hbp & Hedp & Hltp & Hgapp). simpl in *.
    destruct (decide (idx pr pc < idx r c)) as [Hlow|Hnlow].
    { exfalso. eapply fixed_not_editable; [|exact Hed]. apply Hgapp; [done|lia]. }
    destruct (decide (idx r c < idx pr pc)) as [Hhigh|Hnhigh].
    { exfalso. eapply fixed_not_editable; [|exact Hedp]. apply Hgap; [done|lia]. }
    destruct (idx_inj pr pc r c) as [-> ->]; [done..|lia|done].
  - destruct (find_previous_slot_sound fuel f r c sl Hf Hb Hsl)
      as (Hbs & Heds & Hlt & Hgap).
    destruct (find_next_slot_returns fuel' f (slot_row sl) (slot_col sl) r c)
      as [[pr pc] Hback]; [done..| |].
    { destruct Hb, Hbs. unfold idx in *. lia. }
    rewrite Hback. f_equal.
    destruct (find_next_slot_sound fuel' f _ _ _ Hf Hbs Hback)
      as (Hbp & Hedp & Hltp & Hgapp). simpl in *.
    destruct (decide (idx pr pc < idx r c)) as [Hlow|Hnlow].
    { exfalso. eapply fixed_not_editable; [|exact Hedp]. apply Hgap; [done|lia]. }
    destruct (decide (idx r c < idx pr pc)) as [Hhigh|Hnhigh].
    { exfalso. eapply fixed_not_editable; [|exact Hed]. apply Hgapp; [done|lia]. }
    destruct (idx_inj pr pc r c) as [-> ->]; [done..|lia|done].
Qed.

Lemma navigation_round_trip_witness :
  find_previous_slot 81 stale_attempt_fixed 8 8 = Ok (Slot 8 7) ∧
  find_next_slot 81 stale_attempt_fixed 8 7 = Ok (Slot 8 8).
Proof.
  assert (wf_fixed stale_attempt_fixed) as Hf by compute_done.
  assert (∀ c, c = 7 ∨ c = 8 → editable stale_attempt_fixed 8 c) as Hed.
  { intros c Hc. exists [0; 1; 2; 3; 4; 5; 6]. split; [done|].
    destruct Hc as [-> | ->]; compute_done. }
  split.
  - refine (proj1 (navigation_round_trip 81 81 stale_attempt_fixed 8 7 (Slot 8 8)
                     Hf _ (Hed 7 _) _) _); [compute_done|by left|lia|compute_done].
  - refine (proj2 (navigation_round_trip 81 81 stale_attempt_fixed 8 8 (Slot 8 7)
                     Hf _ (Hed 8 _) _) _); [compute_done|by right|lia|compute_done].
Defined.

(** ** The navigation on any dictionary *)

Lemma filter_length_lt {A} (P Q : A → Prop) `{!∀ x, Decision (P x)}
    `{!∀ x, Decision (Q x)} (l : list A) (x : A) :
  x ∈ l → P x → ¬ Q x → (∀ y, Q y → P y) →
  (length (filter Q l) < length (filter P l))%nat.
Proof.
  intros Hin HP HQ Himp. induction l as [|y l IH]; [by apply elem_of_nil in Hin|].
  assert (length (filter Q l) ≤ length (filter P l))%nat as Hle.
  { clear -Himp. induction l as [|z l IH]; [done|].
    rewrite !filter_cons. repeat case_decide; simpl; try lia.
    exfalso. auto. }
  apply elem_of_cons in Hin as [<-|Hin].
  - rewrite (filter_cons_True P), (filter_cons_False Q) by done. simpl. lia.
  - specialize (IH Hin). rewrite !filter_cons.
    repeat case_decide; simpl; try lia. exfalso. auto.
Qed.

Lemma lookup_in_keys (f : gmap Z (list Z)) (k : Z) (cols : list Z) :
  f !! k = Some cols → k ∈ (map_to_list f).*1.
Proof.
  intros Hk. apply list_elem_of_fmap. exists (k, cols). split; [done|].
  by apply elem_of_map_to_list.
Qed.

(** Fuel for nine turns in every later row of the dictionary, and for the
    rest of the current row, is enough. *)
Lemma find_next_slot_fuel (fuel : nat) (f : gmap Z (list Z)) (r c : Z) :
  0 ≤ c ≤ 8 →
  9 * Z.of_nat (length (filter (λ k, r < k) (map_to_list f).*1)) + (9 - c)
    ≤ Z.of_nat fuel →
  find_next_slot fuel f r c ≠ OutOfFuel.
Proof.
  revert r c. induction fuel as [|fuel IH]; intros r c Hc Hfuel; [lia|].
  simpl. destruct (next_col_cases c Hc) as [[-> Hm]|[Hlt Hm]]; rewrite Hm.
  - simpl. destruct (f !! (r + 1)) as [cols|] eqn:Hcols; [|done].
    destruct (negb (py_in 0 cols)); [done|].
    apply IH; [lia|].
    pose proof (filter_length_lt (λ k, r < k) (λ k, r + 1 < k)
                  (map_to_list f).*1 (r + 1)
                  (lookup_in_keys f _ _ Hcols)) as Hshrink.
    assert (length (filter (λ k : Z, (r + 1 < k)%Z) (map_to_list f).*1)
            < length (filter (λ k : Z, (r < k)%Z) (map_to_list f).*1))%nat
      by (apply Hshrink; simpl; intros; lia).
    lia.
  - destruct (Z.eqb_spec (c + 1) 0); [lia|].
    destruct (f !! r) as [cols|] eqn:Hcols; [|done].
    destruct (negb (py_in (c + 1) cols)); [done|].
    apply IH; lia.
Qed.

Lemma find_previous_slot_fuel (fuel : nat) (f : gmap Z (list Z)) (r c : Z) :
  0 ≤ c ≤ 8 →
  9 * Z.of_nat (length (filter (λ k, k < r) (map_to_list f).*1)) + (c + 1)
    ≤ Z.of_nat fuel →
  find_previous_slot fuel f r c ≠ OutOfFuel.
Proof.
  revert r c. induction fuel as [|fuel IH]; intros r c Hc Hfuel; [lia|].
  simpl. destruct (prev_col_cases c Hc) as [[-> Hm]|[Hlt Hm]]; rewrite Hm.
  - simpl. destruct (f !! (r - 1)) as [cols|] eqn:Hcols; [|done].
    destruct (negb (py_in 8 cols)); [done|].
    apply IH; [lia|].
    pose proof (filter_length_lt (λ k, k < r) (λ k, k < r - 1)
                  (map_to_list f).*1 (r - 1)
                  (lookup_in_keys f _ _ Hcols)) as Hshrink.
    assert (length (filter (λ k : Z, (k < r - 1)%Z) (map_to_list f).*1)
            < length (filter (λ k : Z, (k < r)%Z) (map_to_list f).*1))%nat
      by (apply Hshrink; simpl; intros; lia).
    lia.
  - destruct (Z.eqb_spec (c - 1) 8); [lia|].
    destruct (f !! r) as [cols|] eqn:Hcols; [|done].
    destruct (negb (py_in (c - 1) cols)); [done|].
    apply IH; lia.
Qed.

(** X8: the loops of [find_next_slot] and [find_previous_slot] end on every
    dictionary and from every start, inside the square or not: a
    dictionary has finitely many keys, and a row that is not a key ends the
    search with [KeyError].  Ten turns plus nine for each key are enough,
    and any fuel above that. *)
Theorem navigation_terminates (f : gmap Z (list Z)) (r c : Z) (n : nat) :
  find_next_slot (9 * size f + 10 + n) f r c ≠ OutOfFuel ∧
  find_previous_slot (9 * size f + 10 + n) f r c ≠ OutOfFuel.
Proof.
  assert (∀ P : Z → Prop, ∀ (HP : ∀ k, Decision (P k)),
            (length (filter P (map_to_list f).*1) ≤ size f)%nat) as Hsize.
  { intros P HP. etrans; [apply length_filter|].
    by rewrite length_fmap, length_map_to_list. }
  replace (9 * size f + 10 + n)%nat with (S (9 * size f + 9 + n)) by lia.
  split; simpl.
  - pose proof (Z.mod_pos_bound (c + 1) 9 eq_refl) as Hc1.
    set (c1 := (c + 1) `mod` 9) in *.
    set (r1 := if c1 =? 0 then r + 1 else r).
    destruct (f !! r1) as [cols|]; [|done].
    destruct (negb (py_in c1 cols)); [done|].
    apply find_next_slot_fuel; [lia|].
    pose proof (Hsize (λ k, r1 < k) _). lia.
  - pose proof (Z.mod_pos_bound (c + 8) 9 eq_refl) as Hc1.
    set (c1 := (c + 8) `mod` 9) in *.
    set (r1 := if c1 =? 8 then r - 1 else r).
    destruct (f !! r1) as [cols|]; [|done].
    destruct (negb (py_in c1 cols)); [done|].
    apply find_previous_slot_fuel; [lia|].
    pose proof (Hsize (λ k, k < r1) _). lia.
Qed.

(** ** The last empty cell of a puzzle without a repeated digit *)

Lemma count_in_app (g : grid) (d : Z) (l k : list (Z * Z)) :
  count_in g d (l ++ k) = (count_in g d l + count_in g d k)%nat.
Proof. unfold count_in. by rewrite filter_app, length_app. Qed.

Lemma count_in_concat {A} (g : grid) (d : Z) (u : A → list (Z * Z)) (l : list A) :
  count_in g d (concat (u <$> l)) = sum_list_with (λ x, count_in g d (u x)) l.
Proof.
  induction l as [|x l IH]; [done|].
  rewrite fmap_cons. simpl. by rewrite count_in_app, IH.
Qed.

Lemma count_in_perm (g : grid) (d : Z) (l k : list (Z * Z)) :
  l ≡ₚ k → count_in g d l = count_in g d k.
Proof. intros Hperm. unfold count_in. by rewrite Hperm. Qed.

Lemma count_in_zero (g : grid) (d : Z) (l : list (Z * Z)) :
  count_in g d l = 0%nat ↔ ∀ p, p ∈ l → cell g p.1 p.2 ≠ d.
Proof.
  unfold count_in. rewrite length_zero_iff_nil. split.
  - intros Hnil p Hp Heq.
    assert (p ∈ filter (λ p, cell g p.1 p.2 = d) l) as Hin
      by (by apply list_elem_of_filter).
    rewrite Hnil in Hin. by apply elem_of_nil in Hin.
  - intros Hall. apply elem_of_nil_inv. intros p [Heq Hp]%list_elem_of_filter.
    by apply (Hall p).
Qed.

Lemma count_digit_seq (d : Z) :
  1 ≤ d ≤ 9 → length (filter (λ v, v = d) (seqZ 1 9)) = 1%nat.
Proof.
  intros Hd.
  assert (d = 1 ∨ d = 2 ∨ d = 3 ∨ d = 4 ∨ d = 5 ∨ d = 6 ∨ d = 7 ∨ d = 8 ∨ d = 9)
    as Hcases by lia.
  destruct_or!; by subst.
Qed.

(** A unit whose nine cells hold digits, no two the same, holds each digit
    once. *)
Lemma count_in_full_unit (g : grid) (d : Z) (u : list (Z * Z)) :
  consistent g → NoDup u → length u = 9%nat →
  (∀ p, p ∈ u → in_bounds p.1 p.2 ∧ 1 ≤ cell g p.1 p.2 ≤ 9) →
  (∀ p q, p ∈ u → q ∈ u → related p.1 p.2 q.1 q.2) →
  1 ≤ d ≤ 9 → count_in g d u = 1%nat.
Proof.
  intros Hcons Hnd Hlen Hdig Hrel Hd.
  assert ((λ p, cell g p.1 p.2) <$> u ≡ₚ seqZ 1 9) as Hperm.
  { apply digits_perm.
    - apply NoDup_fmap_2_strong; [|done]. intros p q Hp Hq Heq.
      destruct (decide (p = q)) as [|Hne]; [done|]. exfalso.
      destruct p as [r c], q as [r' c'].
      apply (Hcons r c r' c'); [apply (Hdig _ Hp)|apply (Hdig _ Hq)|done| | |done].
      + apply (Hrel _ _ Hp Hq).
      + apply (Hdig _ Hp).
    - by rewrite length_fmap.
    - intros x (p & -> & Hp)%list_elem_of_fmap. apply (Hdig _ Hp). }
  unfold count_in.
  assert (length (filter (λ p, cell g p.1 p.2 = d) u)
          = length (filter (λ v, v = d) ((λ p, cell g p.1 p.2) <$> u))) as ->.
  { clear. induction u as [|p u IH]; [done|].
    rewrite fmap_cons, !filter_cons. repeat case_decide; simpl; (done || lia). }
  rewrite Hperm. by apply count_digit_seq.
Qed.

Lemma sum_list_all_one {A} (h : A → nat) (l : list A) :
  (∀ y, y ∈ l → h y = 1%nat) → sum_list_with h l = length l.
Proof.
  induction l as [|y l IH]; intros Hone; [done|]. simpl.
  rewrite (Hone y) by left. rewrite IH; [done|].
  intros z Hz. apply Hone. by right.
Qed.

Lemma sum_list_one_out {A} `{!EqDecision A} (h : A → nat) (l : list A) (x : A) :
  NoDup l → x ∈ l → (∀ y, y ∈ l → y ≠ x → h y = 1%nat) →
  sum_list_with h l = (h x + (length l - 1))%nat.
Proof.
  induction l as [|y l IH]; intros Hnd Hin Hone; [by apply elem_of_nil in Hin|].
  apply NoDup_cons in Hnd as [Hnotin Hnd]. simpl.
  destruct (decide (y = x)) as [->|Hne].
  - rewrite sum_list_all_one; [lia|].
    intros z Hz. apply Hone; [by right|]. intros ->. done.
  - apply elem_of_cons in Hin as [->|Hin]; [done|].
    rewrite (Hone y); [|by left|done].
    rewrite IH; [|done..|].
    + assert (0 < length l)%nat; [|lia].
      destruct l; [by apply elem_of_nil in Hin|simpl; lia].
    + intros z Hz Hzx. apply Hone; [by right|done].
Qed.

Lemma positions_by_rows : positions ≡ₚ concat (row_pos <$> seqZ 0 9).
Proof. compute_done. Qed.
Lemma positions_by_cols : positions ≡ₚ concat (col_pos <$> seqZ 0 9).
Proof. compute_done. Qed.
Lemma positions_by_boxes : positions ≡ₚ concat (box_pos <$> box_corners).
Proof. compute_done. Qed.

Lemma box_index_corner (r c : Z) :
  in_bounds r c → box_index r c ∈ box_corners.
Proof.
  revert r c. apply forall_in_bounds. compute_done.
Qed.

Lemma box_pos_corner (b : Z * Z) (r c : Z) :
  b ∈ box_corners → (r, c) ∈ box_pos b → in_bounds r c ∧ box_index r c = b.
Proof.
  intros Hb [Hr Hc]%elem_of_grid_cells.
  assert (∀ b, b ∈ box_corners → in_bounds b.1 b.2 ∧ box_index b.1 b.2 = b)
    as Hcorners.
  { apply Forall_forall. compute_done. }
  destruct (Hcorners b Hb) as [Hbb Hself].
  rewrite <-Hself. apply box_index_bounds; [done|by rewrite Hself..].
Qed.

(** In a 9×9 puzzle without a repeated digit whose cells all hold digits
    but one, each digit stands as often in the row of that cell as in its
    column and in its box. *)
Lemma count_in_units (g : grid) (r c d : Z) :
  in_bounds r c → consistent g →
  (∀ r' c', in_bounds r' c' → (r', c') ≠ (r, c) → 1 ≤ cell g r' c' ≤ 9) →
  1 ≤ d ≤ 9 →
  count_in g d (col_pos c) = count_in g d (row_pos r) ∧
  count_in g d (box_pos (box_index r c)) = count_in g d (row_pos r).
Proof.
  intros Hb Hcons Hdig Hd.
  assert (count_in g d positions = count_in g d (row_pos r) + 8)%nat as Hrows.
  { rewrite (count_in_perm _ _ _ _ positions_by_rows), count_in_concat.
    rewrite (sum_list_one_out _ _ r); [by rewrite length_seqZ|apply NoDup_seqZ| |].
    { apply elem_of_seqZ. destruct Hb. lia. }
    intros r' Hr'%elem_of_seqZ Hne. unfold row_pos.
    apply count_in_full_unit; [done| | | | |done].
    - apply NoDup_fmap_2_strong; [|apply NoDup_seqZ]. by intros ?? _ _ [= ->].
    - by rewrite length_fmap, length_seqZ.
    - intros p (c' & -> & Hc'%elem_of_seqZ)%list_elem_of_fmap. simpl.
      assert (in_bounds r' c') by (split; lia). split; [done|].
      apply Hdig; [done|]. by intros [= -> ->].
    - intros p q (c1 & -> & _)%list_elem_of_fmap (c2 & -> & _)%list_elem_of_fmap.
      by left. }
  assert (count_in g d positions = count_in g d (col_pos c) + 8)%nat as Hcols.
  { rewrite (count_in_perm _ _ _ _ positions_by_cols), count_in_concat.
    rewrite (sum_list_one_out _ _ c); [by rewrite length_seqZ|apply NoDup_seqZ| |].
    { apply elem_of_seqZ. destruct Hb. lia. }
    intros c' Hc'%elem_of_seqZ Hne. unfold col_pos.
    apply count_in_full_unit; [done| | | | |done].
    - apply NoDup_fmap_2_strong; [|apply NoDup_seqZ]. by intros ?? _ _ [= ->].
    - by rewrite length_fmap, length_seqZ.
    - intros p (r' & -> & Hr'%elem_of_seqZ)%list_elem_of_fmap. simpl.
      assert (in_bounds r' c') by (split; lia). split; [done|].
      apply Hdig; [done|]. by intros [= -> ->].
    - intros p q (r1 & -> & _)%list_elem_of_fmap (r2 & -> & _)%list_elem_of_fmap.
      by right; left. }
  assert (count_in g d positions
          = count_in g d (box_pos (box_index r c)) + 8)%nat as Hboxes.
  { rewrite (count_in_perm _ _ _ _ positions_by_boxes), count_in_concat.
    rewrite (sum_list_one_out _ _ (box_index r c));
      [done|compute_done|by apply box_index_corner|].
    intros b Hbc Hne. apply count_in_full_unit; [done| | | | |done].
    - apply NoDup_grid_cells.
    - done.
    - intros [r' c'] Hp. destruct (box_pos_corner b r' c' Hbc Hp) as [Hb' Hbox].
      simpl. split; [done|]. apply Hdig; [done|]. intros [= -> ->]. done.
    - intros [r1 c1] [r2 c2] Hp Hq.
      destruct (box_pos_corner b r1 c1 Hbc Hp) as [_ H1].
      destruct (box_pos_corner b r2 c2 Hbc Hq) as [_ H2].
      right; right. simpl. congruence. }
  lia.
Qed.

(** The cell that is left when all the others hold digits, no digit twice
    in a unit, has a free digit. *)
Lemma last_cell_free (g : grid) (r c : Z) :
  in_bounds r c → consistent g →
  (∀ r' c', in_bounds r' c' → (r', c') ≠ (r, c) → 1 ≤ cell g r' c' ≤ 9) →
  ¬ (1 ≤ cell g r c ≤ 9) →
  ∃ d, 1 ≤ d ≤ 9 ∧ ¬ conflicts g r c d.
Proof.
  intros Hb Hcons Hdig Hempty.
  assert (∃ d, d ∈ seqZ 1 9 ∧ d ∉ row_values g r) as (d & Hd%elem_of_seqZ & Hrow).
  { destruct (decide (Exists (λ d, d ∉ row_values g r) (seqZ 1 9)))
      as [Hex|Hall].
    { apply Exists_exists in Hex as (d & ? & ?). eauto. }
    exfalso. apply Hempty.
    apply not_Exists_Forall in Hall; [|apply _].
    rewrite Forall_forall in Hall.
    assert (seqZ 1 9 ≡ₚ row_values g r) as Hperm.
    { apply submseteq_length_Permutation.
      - apply NoDup_submseteq; [apply NoDup_seqZ|].
        intros x Hx. specialize (Hall x Hx). simpl in Hall.
        by destruct (decide (x ∈ row_values g r)).
      - unfold row_values. by rewrite length_fmap. }
    assert (cell g r c ∈ seqZ 1 9) as Hin%elem_of_seqZ; [|lia].
    rewrite Hperm. apply elem_of_row_values. exists c. split; [apply Hb|done]. }
  exists d. split; [lia|].
  destruct (count_in_units g r c d Hb Hcons Hdig) as [Hcol Hbox]; [lia|].
  assert (count_in g d (row_pos r) = 0%nat) as Hzero.
  { apply count_in_zero. intros p (c' & -> & Hc'%elem_of_seqZ)%list_elem_of_fmap.
    simpl. intros Heq. apply Hrow. apply elem_of_row_values.
    exists c'. split; [lia|done]. }
  rewrite Hzero in Hcol, Hbox.
  rewrite count_in_zero in Hcol, Hbox.
  intros [(c' & Hc' & Heq)|[(r' & Hr' & Heq)|(r' & c' & Hb' & Hbi & Heq)]].
  - apply Hrow. apply elem_of_row_values. by exists c'.
  - apply (Hcol (r', c)); [|done]. apply list_elem_of_fmap. exists r'.
    split; [done|]. apply elem_of_seqZ. lia.
  - apply (Hbox (r', c')); [|done]. apply elem_of_grid_cells.
    by apply box_index_range.
Qed.

(** ** The puzzle as a number that the backtracking makes grow *)

Lemma num_bound (l : list Z) :
  (∀ d, d ∈ l → 0 ≤ d ≤ 10) → 0 ≤ num l < 11 ^ Z.of_nat (length l).
Proof.
  induction l as [|d l IH]; intros Hdig; [simpl; lia|].
  destruct IH as [IH1 IH2]; [intros; apply Hdig; by right|].
  assert (0 ≤ d ≤ 10) as Hd by (apply Hdig; left).
  simpl num. simpl length. rewrite Nat2Z.inj_succ, Z.pow_succ_r by lia.
  assert (0 < 11 ^ Z.of_nat (length l)) by (apply Z.pow_pos_nonneg; lia).
  nia.
Qed.

Lemma num_lt (pre suf suf' : list Z) (x y : Z) :
  length suf = length suf' →
  (∀ d, d ∈ suf → 0 ≤ d ≤ 10) → (∀ d, d ∈ suf' → 0 ≤ d ≤ 10) →
  x < y → num (pre ++ x :: suf) < num (pre ++ y :: suf').
Proof.
  intros Hlen Hsuf Hsuf' Hxy. induction pre as [|d pre IH].
  - simpl. rewrite <-Hlen.
    pose proof (num_bound suf Hsuf). pose proof (num_bound suf' Hsuf').
    rewrite <-Hlen in *. nia.
  - simpl num. rewrite !length_app. simpl length. rewrite Hlen. lia.
Qed.

Lemma positions_rank : (λ p, idx p.1 p.2) <$> positions = seqZ 0 81.
Proof. compute_done. Qed.

Lemma positions_lookup (i : nat) (p : Z * Z) :
  positions !! i = Some p → idx p.1 p.2 = Z.of_nat i.
Proof.
  intros Hp.
  assert (((λ p, idx p.1 p.2) <$> positions) !! i = Some (idx p.1 p.2)) as Hi.
  { by rewrite list_lookup_fmap, Hp. }
  rewrite positions_rank in Hi. apply lookup_seqZ in Hi. lia.
Qed.

Lemma positions_split (r c : Z) :
  in_bounds r c →
  ∃ pre suf, positions = pre ++ (r, c) :: suf ∧
    ∀ p, p ∈ pre → in_bounds p.1 p.2 ∧ idx p.1 p.2 < idx r c.
Proof.
  intros Hb.
  assert ((r, c) ∈ positions) as [i Hi]%list_elem_of_lookup
    by (by apply elem_of_positions).
  pose proof (positions_lookup i _ Hi) as Hrank. simpl in Hrank.
  exists (take i positions), (drop (S i) positions). split.
  - by rewrite take_drop_middle.
  - intros p [j Hj]%list_elem_of_lookup.
    apply lookup_take_Some in Hj as [Hj Hlt].
    pose proof (positions_lookup j _ Hj). split; [|lia].
    apply elem_of_positions. destruct p. by eapply list_elem_of_lookup_2.
Qed.

Lemma weight_bound (g : grid) : nonneg g → 0 ≤ weight g < 11 ^ 81.
Proof.
  intros Hg. unfold weight.
  pose proof (num_bound ((λ p, Z.min (cell g p.1 p.2) 10) <$> positions)) as Hb.
  rewrite length_fmap in Hb. apply Hb.
  intros d (p & -> & Hp)%list_elem_of_fmap. destruct p as [r c].
  apply elem_of_positions in Hp. pose proof (Hg r c Hp). simpl. lia.
Qed.

(** Raising the value of a cell below 10, whatever happens to the cells
    after it, makes the number grow. *)
Lemma weight_lt (g g' : grid) (r c : Z) :
  nonneg g → nonneg g' → in_bounds r c →
  (∀ r' c', in_bounds r' c' → idx r' c' < idx r c → cell g' r' c' = cell g r' c') →
  cell g r c < cell g' r c → cell g r c < 10 →
  weight g < weight g'.
Proof.
  intros Hg Hg' Hb Hsame Hlt Hten.
  destruct (positions_split r c Hb) as (pre & suf & Hsplit & Hpre).
  assert (∀ h : grid, nonneg h →
            ∀ d, d ∈ (λ p, Z.min (cell h p.1 p.2) 10) <$> suf → 0 ≤ d ≤ 10) as Hdig.
  { intros h Hh d (p & -> & Hp)%list_elem_of_fmap. destruct p as [r' c'].
    assert (in_bounds r' c') as Hb'.
    { apply elem_of_positions. rewrite Hsplit. apply elem_of_app. right. by right. }
    pose proof (Hh r' c' Hb'). simpl. lia. }
  unfold weight. rewrite Hsplit, !fmap_app, !fmap_cons.
  assert ((λ p, Z.min (cell g' p.1 p.2) 10) <$> pre
          = (λ p, Z.min (cell g p.1 p.2) 10) <$> pre) as ->.
  { apply list_fmap_ext. intros i [r' c'] Hi%list_elem_of_lookup_2.
    destruct (Hpre _ Hi) as [Hb' Hlt']. simpl in *. by rewrite Hsame. }
  apply num_lt; [by rewrite !length_fmap|by apply Hdig..|]. simpl. lia.
Qed.

(** ** How runs end *)

Lemma nonneg_upd (g : grid) (r c v : Z) :
  wf_grid g → in_bounds r c → 0 ≤ v → nonneg g → nonneg (upd g r c v).
Proof.
  intros Hwf Hb Hv Hg r' c' Hb'.
  destruct (decide ((r', c') = (r, c))) as [[= -> ->]|Hne].
  - by rewrite cell_upd_eq.
  - rewrite cell_upd_ne by done. by apply Hg.
Qed.

Lemma modify_loop_stop (fuel : nat) (f : gmap Z (list Z))
    (er ec num cr cc : Z) (s : state) :
  10 ≤ num → modify_loop fuel f er ec num cr cc s = Ret (Filled num cr cc) s.
Proof.
  intros Hnum. destruct fuel; cbn [modify_loop];
    destruct (Z.ltb_spec num 10); (done || lia).
Qed.

(** The navigation fails only by leaving the square, and runs out of fuel
    only when it has less than one turn for each position left. *)
Lemma find_next_slot_raise (fuel : nat) (f : gmap Z (list Z)) (r c : Z) (e : exn) :
  wf_fixed f → in_bounds r c → find_next_slot fuel f r c = Raise e →
  e = KeyError 9 ∧
  ∀ r' c', in_bounds r' c' → idx r c < idx r' c' → fixed_at f r' c'.
Proof.
  intros Hf. revert r c.
  induction fuel as [|fuel IH]; intros r c Hb0 Hrun; [done|].
  simpl in Hrun. destruct (next_step r c Hb0) as (Hc1 & Hidx & Hr1).
  set (c1 := (c + 1) `mod` 9) in *.
  set (r1 := if c1 =? 0 then r + 1 else r) in *.
  destruct (f !! r1) as [cols|] eqn:Hcols.
  - assert (in_bounds r1 c1) as Hb1.
    { split; [|done]. apply Hf. by eexists. }
    destruct (py_in c1 cols) eqn:Hin; simpl in Hrun; [|done].
    apply bool_decide_eq_true in Hin.
    destruct (IH r1 c1 Hb1 Hrun) as [-> Hall]. split; [done|].
    intros r' c' Hb' Hlt.
    destruct (decide (idx r' c' = idx r1 c1)) as [Heq|Hne].
    + apply idx_inj in Heq as [-> ->]; [|done..]. by exists cols.
    + apply Hall; [done|lia].
  - injection Hrun as <-.
    assert (¬ 0 ≤ r1 ≤ 8) as Hout.
    { intros Hin. apply Hf in Hin as [? ?]. congruence. }
    assert (r1 = 9) as ->.
    { destruct Hb0. unfold idx in *. lia. }
    split; [done|]. intros r' c' [? ?] Hlt. unfold idx in *. lia.
Qed.

Lemma find_previous_slot_raise (fuel : nat) (f : gmap Z (list Z)) (r c : Z) (e : exn) :
  wf_fixed f → in_bounds r c → find_previous_slot fuel f r c = Raise e →
  e = KeyError (-1) ∧
  ∀ r' c', in_bounds r' c' → idx r' c' < idx r c → fixed_at f r' c'.
Proof.
  intros Hf. revert r c.
  induction fuel as [|fuel IH]; intros r c Hb0 Hrun; [done|].
  simpl in Hrun. destruct (prev_step r c Hb0) as (Hc1 & Hidx & Hr1).
  set (c1 := (c + 8) `mod` 9) in *.
  set (r1 := if c1 =? 8 then r - 1 else r) in *.
  destruct (f !! r1) as [cols|] eqn:Hcols.
  - assert (in_bounds r1 c1) as Hb1.
    { split; [|done]. apply Hf. by eexists. }
    destruct (py_in c1 cols) eqn:Hin; simpl in Hrun; [|done].
    apply bool_decide_eq_true in Hin.
    destruct (IH r1 c1 Hb1 Hrun) as [-> Hall]. split; [done|].
    intros r' c' Hb' Hlt.
    destruct (decide (idx r' c' = idx r1 c1)) as [Heq|Hne].
    + apply idx_inj in Heq as [-> ->]; [|done..]. by exists cols.
    + apply Hall; [done|lia].
  - injection Hrun as <-.
    assert (¬ 0 ≤ r1 ≤ 8) as Hout.
    { intros Hin. apply Hf in Hin as [? ?]. congruence. }
    assert (r1 = -1) as ->.
    { destruct Hb0. unfold idx in *. lia. }
    split; [done|]. intros r' c' [? ?] Hlt. unfold idx in *. lia.
Qed.

Lemma find_next_slot_out (fuel : nat) (f : gmap Z (list Z)) (r c : Z) :
  wf_fixed f → in_bounds r c → find_next_slot fuel f r c = OutOfFuel →
  Z.of_nat fuel < 81 - idx r c.
Proof.
  intros Hf. revert r c.
  induction fuel as [|fuel IH]; intros r c Hb0 Hrun.
  { destruct Hb0. unfold idx. lia. }
  simpl in Hrun. destruct (next_step r c Hb0) as (Hc1 & Hidx & Hr1).
  set (c1 := (c + 1) `mod` 9) in *.
  set (r1 := if c1 =? 0 then r + 1 else r) in *.
  destruct (f !! r1) as [cols|] eqn:Hcols; [|done].
  assert (in_bounds r1 c1) as Hb1.
  { split; [|done]. apply Hf. by eexists. }
  destruct (py_in c1 cols) eqn:Hin; simpl in Hrun; [|done].
  specialize (IH r1 c1 Hb1 Hrun). lia.
Qed.

Lemma find_previous_slot_out (fuel : nat) (f : gmap Z (list Z)) (r c : Z) :
  wf_fixed f → in_bounds r c → find_previous_slot fuel f r c = OutOfFuel →
  Z.of_nat fuel < idx r c + 1.
Proof.
  intros Hf. revert r c.
  induction fuel as [|fuel IH]; intros r c Hb0 Hrun.
  { destruct Hb0. unfold idx. lia. }
  simpl in Hrun. destruct (prev_step r c Hb0) as (Hc1 & Hidx & Hr1).
  set (c1 := (c + 8) `mod` 9) in *.
  set (r1 := if c1 =? 8 then r - 1 else r) in *.
  destruct (f !! r1) as [cols|] eqn:Hcols; [|done].
  assert (in_bounds r1 c1) as Hb1.
  { split; [|done]. apply Hf. by eexists. }
  destruct (py_in c1 cols) eqn:Hin; simpl in Hrun; [|done].
  specialize (IH r1 c1 Hb1 Hrun). lia.
Qed.

(** ** The search explores the completions in lexicographic order *)

Section search.
Context (f : gmap Z (list Z)) (g0 : grid).
Context (Hf : wf_fixed f).
Context (Hgiven : ∀ r c, in_bounds r c → fixed_at f r c → 1 ≤ cell g0 r c ≤ 9).

Local Abbreviation good := (good f g0).
Local Abbreviation solution := (solution f g0).
Local Abbreviation minimal := (minimal f g0).
Local Abbreviation dead := (dead f g0).

Lemma inv_write (s : state) (r c v : Z) :
  inv f g0 s → in_bounds r c → editable f r c →
  10 ≤ v ∨ ¬ conflicts (puzzle s) r c v →
  inv f g0 (State (upd (puzzle s) r c v) ((r, c) :: writes s)).
Proof.
  intros Hinv Hb Hed Hv.
  pose proof (wp_write f g0 r c v (λ _ _, True) s Hinv Hb Hed Hv (λ _ _ _, I))
    as Hwp.
  unfold wp in Hwp. rewrite write_ok in Hwp by (apply Hinv || done). tauto.
Qed.

Lemma good_write (s : state) (r c v : Z) :
  good s → in_bounds r c → editable f r c → 0 ≤ v →
  10 ≤ v ∨ ¬ conflicts (puzzle s) r c v →
  good (State (upd (puzzle s) r c v) ((r, c) :: writes s)).
Proof.
  intros [Hinv Hnn] Hb Hed Hv0 Hv. split; [by apply inv_write|].
  simpl. apply nonneg_upd; [apply Hinv|done..].
Qed.

Lemma solution_digit (h : grid) (r c : Z) :
  solution h → in_bounds r c → 1 ≤ cell h r c ≤ 9.
Proof. intros [Hs _]. by apply solved_digit. Qed.

Lemma solution_fixed (h : grid) (s : state) (r c : Z) :
  solution h → inv f g0 s → in_bounds r c → fixed_at f r c →
  cell h r c = cell (puzzle s) r c.
Proof.
  intros [_ Hh] (_ & Hfix & _) Hb Hfx. by rewrite Hh, Hfix.
Qed.

(** A digit that already stands in a unit of the position is not the value
    of a solution there, when the solution holds the values of the puzzle
    before the position and no editable cell after it holds a digit. *)
Lemma conflict_excludes (s : state) (h : grid) (r c d : Z) :
  inv f g0 s →
  (∀ r' c', in_bounds r' c' → editable f r' c' → idx r c < idx r' c' →
            ¬ 1 ≤ cell (puzzle s) r' c' ≤ 9) →
  in_bounds r c → cell (puzzle s) r c ≠ d → conflicts (puzzle s) r c d →
  solution h → agree (idx r c) h (puzzle s) → cell h r c ≠ d.
Proof.
  intros Hinv Hnodigit Hb Hown Hconf Hsol Hagree Heq.
  assert (1 ≤ d ≤ 9) as Hd by (rewrite <-Heq; by apply solution_digit).
  assert (∃ r' c', in_bounds r' c' ∧ related r c r' c' ∧ cell (puzzle s) r' c' = d)
    as (r' & c' & Hb' & Hrel & Hval).
  { destruct Hconf as [(c' & Hc' & Hv)|[(r' & Hr' & Hv)|(r' & c' & Hb' & Hbi & Hv)]].
    - exists r, c'. split_and!; [split; [apply Hb|done]|by left|done].
    - exists r', c. split_and!; [split; [done|apply Hb]|by right; left|done].
    - exists r', c'. split_and!; [done|by right; right|done]. }
  assert ((r, c) ≠ (r', c')) as Hne by (intros [= <- <-]; done).
  assert (cell h r' c' = d) as Hval'.
  { destruct (decide (idx r' c' < idx r c)) as [Hlt|Hge].
    { by rewrite Hagree. }
    destruct (fixed_or_editable f r' c' Hf (proj1 Hb')) as [Hfx|Hed].
    { by rewrite (solution_fixed h s). }
    exfalso. apply (Hnodigit r' c'); [done..| |lia].
    destruct (decide (idx r' c' = idx r c)) as [Hi|]; [|lia].
    apply idx_inj in Hi as [-> ->]; done. }
  destruct Hsol as [Hsolved _].
  apply (solved_consistent h Hsolved r c r' c'); [done..| |congruence]. lia.
Qed.

(** No solution has, at a position without a digit, a value below the one
    picked from 1. *)
Lemma pick_bound (s : state) (h : grid) (r c m : Z) :
  inv f g0 s →
  (∀ r' c', in_bounds r' c' → editable f r' c' → idx r c < idx r' c' →
            ¬ 1 ≤ cell (puzzle s) r' c' ≤ 9) →
  in_bounds r c → ¬ 1 ≤ cell (puzzle s) r c ≤ 9 →
  (∀ d, 1 ≤ d < m → conflicts (puzzle s) r c d) →
  solution h → agree (idx r c) h (puzzle s) → m ≤ cell h r c.
Proof.
  intros Hinv Hnodigit Hb Hown Hmin Hsol Hagree.
  pose proof (solution_digit h r c Hsol Hb) as Hd.
  destruct (decide (m ≤ cell h r c)) as [|Hlow]; [done|]. exfalso.
  apply (conflict_excludes s h r c (cell h r c)); [done..| | |done|done|done].
  - intros Heq. apply Hown. lia.
  - apply Hmin. lia.
Qed.

(** Nor, at the position the search steps back to, a value below the one
    picked from the old value plus 1. *)
Lemma repick_bound (s : state) (h : grid) (qr qc k n : Z) :
  inv f g0 s →
  (∀ r' c', in_bounds r' c' → editable f r' c' → idx qr qc < idx r' c' →
            ¬ 1 ≤ cell (puzzle s) r' c' ≤ 9) →
  in_bounds qr qc → idx qr qc < k →
  (∀ r c, in_bounds r c → idx qr qc < idx r c < k → fixed_at f r c) →
  minimal k (puzzle s) → dead k (puzzle s) →
  (∀ d, cell (puzzle s) qr qc + 1 ≤ d < n → conflicts (puzzle s) qr qc d) →
  solution h → agree (idx qr qc) h (puzzle s) → n ≤ cell h qr qc.
Proof.
  intros Hinv Hnodigit Hb Hlt Hgap Hmin Hdead Hconf Hsol Hagree.
  assert (cell (puzzle s) qr qc ≤ cell h qr qc) as Hle by (by apply Hmin).
  destruct (decide (cell h qr qc = cell (puzzle s) qr qc)) as [Hsame|Hdiff].
  { exfalso. apply (Hdead h Hsol). intros r c Hbrc Hrc.
    destruct (decide (idx r c < idx qr qc)) as [|Hge]; [by apply Hagree|].
    destruct (decide (idx r c = idx qr qc)) as [Hi|Hni].
    { apply idx_inj in Hi as [-> ->]; done. }
    apply (solution_fixed h s); [done..|]. apply Hgap; [done|lia]. }
  destruct (decide (n ≤ cell h qr qc)) as [|Hlow]; [done|]. exfalso.
  apply (conflict_excludes s h qr qc (cell h qr qc)); [done..| | |done|done|done].
  - congruence.
  - apply Hconf. lia.
Qed.

Lemma minimal_skip (s : state) (k k' : Z) :
  inv f g0 s → minimal k (puzzle s) →
  (∀ r c, in_bounds r c → k ≤ idx r c < k' → fixed_at f r c) →
  minimal k' (puzzle s).
Proof.
  intros Hinv Hmin Hgap h r c Hsol Hb Hlt Hagree.
  destruct (decide (idx r c < k)); [by apply Hmin|].
  rewrite (solution_fixed h s); [done..|]. apply Hgap; [done|lia].
Qed.

Lemma agree_ext (k : Z) (h g g' : grid) :
  (∀ r c, in_bounds r c → idx r c < k → cell g' r c = cell g r c) →
  agree k h g' → agree k h g.
Proof. intros Hsame Hagree r c Hb Hlt. rewrite <-Hsame by done. by apply Hagree. Qed.

Lemma minimal_ext (k : Z) (g g' : grid) :
  (∀ r c, in_bounds r c → idx r c < k → cell g' r c = cell g r c) →
  minimal k g → minimal k g'.
Proof.
  intros Hsame Hmin h r c Hsol Hb Hlt Hagree. rewrite Hsame by done.
  apply Hmin; [done..|]. eapply agree_ext; [|done].
  intros r' c' Hb' Hlt'. apply Hsame; [done|lia].
Qed.

Lemma dead_ext (k : Z) (g g' : grid) :
  (∀ r c, in_bounds r c → idx r c < k → cell g' r c = cell g r c) →
  dead k g → dead k g'.
Proof.
  intros Hsame Hdead h Hsol Hagree. apply (Hdead h Hsol).
  by eapply agree_ext.
Qed.

Lemma minimal_step (g : grid) (r c : Z) :
  in_bounds r c → minimal (idx r c) g →
  (∀ h, solution h → agree (idx r c) h g → cell g r c ≤ cell h r c) →
  minimal (idx r c + 1) g.
Proof.
  intros Hb Hmin Hhere h r' c' Hsol Hb' Hlt Hagree.
  destruct (decide (idx r' c' < idx r c)); [by apply Hmin|].
  destruct (idx_inj r' c' r c) as [-> ->]; [done..|lia|]. by apply Hhere.
Qed.

Lemma same_outside_refl (lo hi : Z) (g : grid) : same_outside lo hi g g.
Proof. by intros r c _ _. Qed.

Lemma same_outside_trans (lo hi lo' hi' : Z) (g1 g2 g3 : grid) :
  lo ≤ lo' → hi' ≤ hi →
  same_outside lo hi g1 g2 → same_outside lo' hi' g2 g3 →
  same_outside lo hi g1 g3.
Proof.
  intros Hlo Hhi H12 H23 r c Hb Hout.
  rewrite H23, H12; [done..|lia].
Qed.

Lemma same_outside_upd (lo hi : Z) (g : grid) (r c v : Z) :
  in_bounds r c → lo < idx r c ≤ hi → same_outside lo hi g (upd g r c v).
Proof.
  intros Hb Hin r' c' Hb' Hout. apply cell_upd_ne; [done..|].
  intros [= -> ->]. lia.
Qed.

(** *** The re-fill loop *)

Lemma nodigit_after (g : grid) (k hi : Z) :
  stale f (k + 1) hi g → blank f (hi + 1) g →
  ∀ r c, in_bounds r c → editable f r c → k < idx r c →
         ¬ 1 ≤ cell g r c ≤ 9.
Proof.
  intros Hstale Hblank r c Hb Hed Hlt.
  destruct (decide (idx r c ≤ hi)).
  - pose proof (Hstale r c Hb Hed). lia.
  - rewrite (Hblank r c Hb Hed); lia.
Qed.

Lemma modify_loop_ends (fuel : nat) (er ec num cr cc : Z) (s : state) :
  good s → in_bounds er ec → editable f er ec → in_bounds cr cc →
  idx cr cc ≤ idx er ec → num < 10 →
  filled_below (idx cr cc + 1) (puzzle s) →
  stale f (idx cr cc + 1) (idx er ec) (puzzle s) →
  lex_blank f g0 (idx er ec + 1) (puzzle s) →
  lex_min f g0 (idx cr cc + 1) (puzzle s) →
  ends (modify_ret f g0 er ec cr cc s) (modify_exc f g0 er ec cr cc s)
       (modify_out f g0 er ec cr cc fuel s)
       (modify_loop fuel f er ec num cr cc s).
Proof.
  revert num cr cc s.
  induction fuel as [|fuel IH];
    intros num cr cc s Hgood Hbe Hede Hbc Hle Hnum Hfilled Hstale Hblank Hmin;
    cbn [modify_loop]; destruct (Z.ltb_spec num 10) as [_|?]; try lia.
  { simpl. split_and!; [done|apply same_outside_refl|lia]. }
  pose proof Hgood as [Hinv Hnn].
  destruct (find_next_slot fuel f cr cc) as [sl|e|] eqn:Hnav.
  - rewrite (M_bind_ret _ _ s s sl) by (by apply read_ok). cbn zeta.
    destruct (find_next_slot_sound _ _ _ _ _ Hf Hbc Hnav)
      as (Hbx & Hedx & Hltx & Hgap).
    set (xr := slot_row sl) in *. set (xc := slot_col sl) in *.
    assert (filled_below (idx xr xc) (puzzle s)) as Hupto.
    { eapply (filled_below_skip f g0 Hgiven); [done|exact Hfilled|].
      intros r c Hb Hrc. apply Hgap; [done|lia]. }
    assert (lex_min f g0 (idx xr xc) (puzzle s)) as Hminx.
    { intros Hz. eapply minimal_skip; [done|by apply Hmin|].
      intros r c Hb Hrc. apply Hgap; [done|lia]. }
    destruct (appears_after xr xc er ec) eqn:Hafter; cbn [negb].
    + apply appears_after_idx in Hafter; [|done..]. simpl.
      split_and!; [done|apply same_outside_refl|]. simpl.
      destruct (Z.ltb_spec num 10); [|lia]. split.
      * eapply filled_below_mono; [|exact Hupto]. lia.
      * intros Hz. eapply minimal_skip; [done|by apply Hmin|].
        intros r c Hb Hrc. apply Hgap; [done|lia].
    + assert (idx xr xc ≤ idx er ec) as Hle'.
      { destruct (decide (idx er ec < idx xr xc)) as [Hlt|]; [|lia].
        apply appears_after_idx in Hlt; [congruence|done..]. }
      destruct (pick_input_num_ok (puzzle s) xr xc 1)
        as (m & Hm & Hge & _ & Hfree & Hconf); [apply Hinv|done|].
      rewrite (M_bind_ret _ _ s s m) by (by apply read_ok).
      assert (10 ≤ cell (puzzle s) xr xc) as Hown by (apply Hstale; [done..|lia]).
      assert (∀ h, solution h → zero_start f g0 →
                   agree (idx xr xc) h (puzzle s) → m ≤ cell h xr xc) as Hbound.
      { intros h Hsol Hz Hagree.
        apply (pick_bound s h xr xc m); [done| |done|lia|done..].
        apply (nodigit_after _ _ (idx er ec)); [|by apply Hblank].
        intros r c Hb Hed Hrc. apply Hstale; [done..|lia]. }
      destruct (Z.ltb_spec m 10) as [Hm10|Hm10].
      * rewrite (M_bind_ret _ _ s _ tt) by (apply write_ok; [apply Hinv|done]).
        set (s1 := State (upd (puzzle s) xr xc m) ((xr, xc) :: writes s)).
        assert (good s1) as Hgood1.
        { apply good_write; [done..|lia|right; apply Hfree; lia]. }
        eapply ends_mono; [apply (IH m xr xc s1); try done; simpl| | |].
        -- apply filled_below_upd_digit; [apply Hinv|done|lia|done].
        -- intros r c Hb Hed Hrc. rewrite cell_upd_ne; [|done..|].
           ++ apply Hstale; [done..|lia].
           ++ intros [= -> ->]. lia.
        -- intros Hz r c Hb Hed Hrc. rewrite cell_upd_ne; [|done..|].
           ++ by apply Hblank.
           ++ intros [= -> ->]. lia.
        -- intros Hz. apply minimal_step; [done| |].
           ++ eapply minimal_ext; [|by apply Hminx].
              intros r c Hb Hrc. apply cell_upd_ne; [done..|].
              intros [= -> ->]. lia.
           ++ intros h Hsol Hagree. rewrite cell_upd_eq by (apply Hinv || done).
              apply Hbound; [done..|]. eapply agree_ext; [|done].
              intros r c Hb Hrc. apply cell_upd_ne; [done..|].
              intros [= -> ->]. lia.
        -- intros res s' (Hg' & Hsame & Hres). split_and!; [done| |].
           ++ eapply same_outside_trans; [| |apply (same_outside_upd _ (idx er ec) _ xr xc m)|exact Hsame];
                [lia|lia|done|lia].
           ++ destruct (filled_num res <? 10); [done|].
              destruct Hres as (? & [? ?] & ?). split; [done|]. split; [lia|done].
        -- intros e s' (Hg' & Hsame & Hres). split; [done|]. split; [|done].
           eapply same_outside_trans; [| |apply (same_outside_upd _ (idx er ec) _ xr xc m)|exact Hsame];
             [lia|lia|done|lia].
        -- intros s' (Hg' & Hsame & Hres). split_and!; [done| |lia].
           eapply same_outside_trans; [| |apply (same_outside_upd _ (idx er ec) _ xr xc m)|exact Hsame];
             [lia|lia|done|lia].
      * rewrite (M_bind_ret _ _ s s tt) by done.
        rewrite modify_loop_stop by done. simpl.
        split_and!; [done|apply same_outside_refl|]. simpl.
        destruct (Z.ltb_spec m 10); [lia|].
        split; [done|]. split; [lia|]. split; [done|]. split; [|split; [done|]].
        -- intros r c Hb Hed Hrc. apply Hstale; [done..|lia].
        -- intros Hz h Hsol Hagree.
           pose proof (Hbound h Hsol Hz Hagree).
           pose proof (solution_digit h xr xc Hsol Hbx). lia.
  - rewrite (M_bind_exc _ _ s s e) by done.
    destruct (find_next_slot_raise _ _ _ _ _ Hf Hbc Hnav) as [-> Hall]. simpl.
    assert (idx cr cc = idx er ec) as Heq.
    { destruct (decide (idx cr cc < idx er ec)) as [Hlt|]; [|lia].
      exfalso. eapply fixed_not_editable; [|exact Hede]. by apply Hall. }
    split; [done|]. split; [apply same_outside_refl|]. split; [done|].
    split; [|by rewrite <-Heq].
    intros r c Hb Hrc. apply Hall; [done|lia].
  - rewrite (M_bind_timeout _ _ s s) by done.
    pose proof (find_next_slot_out _ _ _ _ Hf Hbc Hnav).
    simpl. split_and!; [done|apply same_outside_refl|].
    destruct Hbc. unfold idx in *. lia.
Qed.

(** *** The backtracking loop *)

Lemma minimal_mono (k k' : Z) (g : grid) :
  k' ≤ k → minimal k g → minimal k' g.
Proof. intros Hk Hmin h r c Hsol Hb Hlt. apply Hmin; [done..|lia]. Qed.

Lemma idx_ne (r c r' c' : Z) : idx r' c' ≠ idx r c → (r', c') ≠ (r, c).
Proof. intros Hne [= -> ->]. done. Qed.

Lemma backtrack_ends (fuel : nat) (row index num cr cc : Z) (s : state) :
  good s → in_bounds row index →
  lex_blank f g0 (idx row index + 1) (puzzle s) →
  (num ≤ 9 → filled_below (idx row index + 1) (puzzle s) ∧
             lex_min f g0 (idx row index + 1) (puzzle s)) →
  (9 < num → in_bounds cr cc ∧ editable f row index ∧
             idx cr cc ≤ idx row index ∧
             filled_below (idx cr cc) (puzzle s) ∧
             stale f (idx cr cc) (idx row index) (puzzle s) ∧
             lex_min f g0 (idx cr cc) (puzzle s) ∧
             lex_dead f g0 (idx cr cc) (puzzle s)) →
  ends (λ _, cell_ret f g0 row index s) (cell_exc f g0 row index s)
       (cell_out f g0 row index fuel s)
       (backtrack fuel f row index num cr cc s).
Proof.
  revert num cr cc s.
  induction fuel as [|fuel IH];
    intros num cr cc s Hgood Hbp Hblank Hlow Hhigh;
    cbn [backtrack]; destruct (Z.gtb_spec num 9) as [Hnum|Hnum].
  2,4: destruct Hlow as [? ?]; [lia|]; simpl;
       split; [done|]; split; [apply same_outside_refl|done].
  { pose proof (weight_bound (puzzle s) (proj2 Hgood)). simpl.
    split; [done|]. split; [apply same_outside_refl|lia]. }
  destruct (Hhigh Hnum) as (Hbc & Hedp & Hle & Hfilled & Hstale & Hmin & Hdead).
  clear Hlow Hhigh.
  pose proof Hgood as [Hinv Hnn].
  pose proof (weight_bound (puzzle s) Hnn) as Hw.
  pose proof (idx_bounds _ _ Hbp) as Hip.
  pose proof (idx_bounds _ _ Hbc) as Hic.
  destruct (find_previous_slot fuel f cr cc) as [sl|e|] eqn:Hnav.
  - rewrite (M_bind_ret _ _ s s sl) by (by apply read_ok). cbn zeta.
    destruct (find_previous_slot_sound _ _ _ _ _ Hf Hbc Hnav)
      as (Hbq & Hedq & Hltq & Hgap).
    set (qr := slot_row sl) in *. set (qc := slot_col sl) in *.
    pose proof (idx_bounds _ _ Hbq) as Hiq.
    rewrite (M_bind_ret _ _ s s (cell (puzzle s) qr qc))
      by (apply read_ok, get_cell_ok; [apply Hinv|done]).
    set (old := cell (puzzle s) qr qc).
    assert (1 ≤ old ≤ 9) as Hold by (apply Hfilled; [done|lia]).
    destruct (pick_input_num_ok (puzzle s) qr qc (old + 1))
      as (n & Hn & Hge & Hsame & Hfree & Hconf); [apply Hinv|done|].
    rewrite (M_bind_ret _ _ s s n) by (by apply read_ok).
    rewrite (M_bind_ret _ _ s _ tt) by (apply write_ok; [apply Hinv|done]).
    set (s1 := State (upd (puzzle s) qr qc n) ((qr, qc) :: writes s)).
    assert (good s1) as Hgood1.
    { apply good_write; [done..|lia|].
      destruct (decide (10 ≤ n)); [by left|right; apply Hfree; lia]. }
    assert (∀ r c, in_bounds r c → idx r c ≠ idx qr qc →
                   cell (puzzle s1) r c = cell (puzzle s) r c) as Hother.
    { intros r c Hb Hne. apply cell_upd_ne; [done..|by apply idx_ne]. }
    assert (cell (puzzle s1) qr qc = n) as Hnew
      by (apply cell_upd_eq; [apply Hinv|done]).
    assert (stale f (idx qr qc + 1) (idx row index) (puzzle s)) as Hstale'.
    { intros r c Hb Hed Hrc.
      destruct (decide (idx r c < idx cr cc)) as [Hlt|].
      - exfalso. eapply fixed_not_editable; [|exact Hed]. apply Hgap; [done|lia].
      - apply Hstale; [done..|lia]. }
    assert (∀ h, solution h → zero_start f g0 →
                 agree (idx qr qc) h (puzzle s1) → n ≤ cell h qr qc) as Hbound.
    { intros h Hsol Hz Hagree.
      apply (repick_bound s h qr qc (idx cr cc) n); try done.
      - apply (nodigit_after _ _ (idx row index)); [done|by apply Hblank].
      - by apply Hmin.
      - by apply Hdead.
      - eapply agree_ext; [|exact Hagree].
        intros r c Hb Hrc. apply Hother; [done|lia]. }
    assert (lex_blank f g0 (idx row index + 1) (puzzle s1)) as Hblank1.
    { intros Hz r c Hb Hed Hrc. rewrite Hother by (done || lia).
      by apply Hblank. }
    assert (lex_min f g0 (idx qr qc) (puzzle s1)) as Hmin1.
    { intros Hz. eapply minimal_ext; [|eapply (minimal_mono (idx cr cc)); [|by apply Hmin]];
        [|lia]. intros r c Hb Hrc. apply Hother; [done|lia]. }
    assert (weight (puzzle s) < weight (puzzle s1)) as Hw1.
    { apply (weight_lt _ _ qr qc); [done|apply Hgood1|done| | |].
      - intros r c Hb Hrc. apply Hother; [done|lia].
      - rewrite Hnew. fold old. lia.
      - fold old. lia. }
    assert (same_outside (-1) (idx row index) (puzzle s) (puzzle s1)) as Hframe1.
    { apply same_outside_upd; [done|lia]. }
    destruct (Z.ltb_spec n 10) as [Hn10|Hn10].
    + cbn beta iota. eapply ends_bind.
      * unfold modify_previous_slots.
        rewrite (M_bind_ret _ _ s1 s1 n).
        2:{ apply read_ok. rewrite get_cell_ok; [by rewrite Hnew|apply Hgood1|done]. }
        apply (modify_loop_ends fuel row index n qr qc s1); try done; try lia.
        -- apply filled_below_upd_digit; [apply Hinv|done|lia|].
           eapply filled_below_mono; [|exact Hfilled]. lia.
        -- intros r c Hb Hed Hrc. rewrite Hother by (done || lia).
           by apply Hstale'.
        -- intros Hz. apply minimal_step; [done|by apply Hmin1|].
           intros h Hsol Hagree. rewrite Hnew. by apply Hbound.
      * intros res s2 (Hgood2 & Hframe2 & Hres). simpl.
        assert (weight (puzzle s) < weight (puzzle s2)) as Hw2.
        { apply (weight_lt _ _ qr qc); [done|apply Hgood2|done| | |].
          - intros r c Hb Hrc. rewrite (Hframe2 r c) by (done || lia).
            apply Hother; [done|lia].
          - rewrite (Hframe2 qr qc) by (done || lia). rewrite Hnew.
            fold old. lia.
          - fold old. lia. }
        assert (same_outside (-1) (idx row index) (puzzle s) (puzzle s2)) as Hfr.
        { eapply same_outside_trans; [| |exact Hframe1|exact Hframe2]; lia. }
        eapply ends_mono; [apply (IH _ _ _ s2); try done| | |].
        -- intros Hz r c Hb Hed Hrc. rewrite (Hframe2 r c) by (done || lia).
           by apply Hblank1.
        -- intros Hlt. destruct (Z.ltb_spec (filled_num res) 10); [done|lia].
        -- intros Hgt. destruct (Z.ltb_spec (filled_num res) 10); [lia|].
           destruct Hres as (? & [? ?] & ? & ? & ? & ?).
           split; [done|]. split; [done|]. split; [lia|]. done.
        -- intros [] s' (Hg' & Hsame' & Hrest). split; [done|]. split; [|done].
           eapply same_outside_trans; [| |exact Hfr|exact Hsame']; lia.
        -- intros e s' (Hg' & Hsame' & Hrest). split; [done|]. split; [|done].
           eapply same_outside_trans; [| |exact Hfr|exact Hsame']; lia.
        -- intros s' (Hg' & Hsame' & Hrest). split; [done|]. split; [|lia].
           eapply same_outside_trans; [| |exact Hfr|exact Hsame']; lia.
      * intros e s' (Hg' & Hsame' & Hrest). split; [done|]. split; [|by right].
        eapply same_outside_trans; [| |exact Hframe1|exact Hsame']; lia.
      * intros s' (Hg' & Hsame' & Hrest). split; [done|]. split; [|lia].
        eapply same_outside_trans; [| |exact Hframe1|exact Hsame']; lia.
    + cbn beta iota.
      eapply ends_mono; [apply (IH n qr qc s1); try done| | |].
      * intros ?; lia.
      * intros _. split; [done|]. split; [done|]. split; [lia|].
        split; [|split; [|split; [done|]]].
        -- apply filled_below_upd_above; [done|lia|].
           eapply filled_below_mono; [|exact Hfilled]. lia.
        -- intros r c Hb Hed Hrc.
           destruct (decide (idx r c = idx qr qc)) as [Heq|Hne].
           ++ apply idx_inj in Heq as [-> ->]; [|done..]. rewrite Hnew. lia.
           ++ rewrite Hother by done. apply Hstale'; [done..|lia].
        -- intros Hz h Hsol Hagree.
           pose proof (Hbound h Hsol Hz Hagree).
           pose proof (solution_digit h qr qc Hsol Hbq). lia.
      * intros [] s' (Hg' & Hsame' & Hrest). split; [done|]. split; [|done].
        eapply same_outside_trans; [| |exact Hframe1|exact Hsame']; lia.
      * intros e s' (Hg' & Hsame' & Hrest). split; [done|]. split; [|done].
        eapply same_outside_trans; [| |exact Hframe1|exact Hsame']; lia.
      * intros s' (Hg' & Hsame' & Hrest). split; [done|]. split; [|lia].
        eapply same_outside_trans; [| |exact Hframe1|exact Hsame']; lia.
  - rewrite (M_bind_exc _ _ s s e) by done.
    destruct (find_previous_slot_raise _ _ _ _ _ Hf Hbc Hnav) as [-> Hall].
    simpl. split; [done|]. split; [apply same_outside_refl|]. left.
    split; [done|]. intros Hz h Hsol. apply (Hdead Hz h Hsol).
    intros r c Hb Hrc. apply solution_fixed; [done..|by apply Hall].
  - rewrite (M_bind_timeout _ _ s s) by done.
    pose proof (find_previous_slot_out _ _ _ _ Hf Hbc Hnav).
    simpl. split; [done|]. split; [apply same_outside_refl|lia].
Qed.

(** *** The forward pass *)

Lemma solve_cell_ends (fuel : nat) (row index : Z) (s : state) :
  in_bounds row index → forward f g0 (idx row index) s →
  ends (λ _, forward f g0 (idx row index + 1)) (failure f g0) (cut f g0 fuel)
       (solve_cell fuel f row index s).
Proof.
  intros Hb (Hgood & Hfilled & Hrange & Hmin & Hblank).
  pose proof Hgood as [Hinv Hnn].
  pose proof (idx_bounds _ _ Hb) as Hi.
  unfold solve_cell.
  rewrite (M_bind_ret _ _ s s (cell (puzzle s) row index))
    by (apply read_ok, get_cell_ok; [apply Hinv|done]).
  cbn beta.
  destruct (Z.eqb_spec (cell (puzzle s) row index) 0) as [Hzero|Hnz].
  - assert (editable f row index) as Hed.
    { destruct (fixed_or_editable f row index Hf (proj1 Hb)) as [Hfx|]; [|done].
      pose proof (fixed_digit f g0 Hgiven s row index Hinv Hb Hfx). lia. }
    destruct (pick_input_num_ok (puzzle s) row index 1)
      as (m & Hm & Hge & _ & Hfree & Hconf); [apply Hinv|done|].
    set (s1 := State (upd (puzzle s) row index m) ((row, index) :: writes s)).
    rewrite (M_bind_ret _ _ s s1 tt).
    2:{ rewrite (M_bind_ret _ _ s s m) by (by apply read_ok).
        apply write_ok; [apply Hinv|done]. }
    assert (good s1) as Hgood1.
    { apply good_write; [done..|lia|right; apply Hfree; lia]. }
    assert (cell (puzzle s1) row index = m) as Hnew
      by (apply cell_upd_eq; [apply Hinv|done]).
    assert (∀ r c, in_bounds r c → idx r c ≠ idx row index →
                   cell (puzzle s1) r c = cell (puzzle s) r c) as Hother.
    { intros r c Hb' Hne. apply cell_upd_ne; [done..|by apply idx_ne]. }
    rewrite (M_bind_ret _ _ s1 s1 m).
    2:{ apply read_ok. rewrite get_cell_ok; [by rewrite Hnew|apply Hgood1|done]. }
    assert (∀ r c, in_bounds r c → editable f r c → idx row index < idx r c →
                   zero_start f g0 → ¬ 1 ≤ cell (puzzle s) r c ≤ 9) as Hafter.
    { intros r c Hb' Hed' Hlt Hz. rewrite (Hblank Hz r c); [lia|done..|lia]. }
    assert (∀ h, solution h → zero_start f g0 →
                 agree (idx row index) h (puzzle s1) → m ≤ cell h row index)
      as Hbound.
    { intros h Hsol Hz Hagree.
      apply (pick_bound s h row index m); try done.
      - intros r c Hb' Hed' Hlt. by apply Hafter.
      - lia.
      - eapply agree_ext; [|exact Hagree].
        intros r c Hb' Hrc. apply Hother; [done|lia]. }
    assert (lex_min f g0 (idx row index) (puzzle s1)) as Hmin1.
    { intros Hz. eapply minimal_ext; [|by apply Hmin].
      intros r c Hb' Hrc. apply Hother; [done|lia]. }
    assert (same_outside (-1) (idx row index) (puzzle s) (puzzle s1)) as Hframe1.
    { apply same_outside_upd; [done|lia]. }
    assert (range_from (idx row index + 1) (puzzle s1)) as Hrange1.
    { intros r c Hb' Hrc. rewrite Hother by (done || lia).
      apply Hrange; [done|lia]. }
    assert (lex_blank f g0 (idx row index + 1) (puzzle s1)) as Hblank1.
    { intros Hz r c Hb' Hed' Hrc. rewrite Hother by (done || lia).
      apply Hblank; [done..|lia]. }
    destruct (decide (m ≤ 9)) as [Hm9|Hm9].
    { rewrite backtrack_done by done. simpl.
      split; [done|]. split; [|split; [done|split; [|done]]].
      - apply filled_below_upd_digit; [apply Hinv|done|lia|done].
      - intros Hz. apply minimal_step; [done|by apply Hmin1|].
        intros h Hsol Hagree. rewrite Hnew. by apply Hbound. }
    eapply ends_mono; [apply (backtrack_ends fuel row index m row index s1)| | |];
      try done.
    + intros _. split; [done|]. split; [done|]. split; [lia|].
      split; [|split; [|split; [done|]]].
      * apply filled_below_upd_above; [done|lia|done].
      * intros r c Hb' Hed' Hrc.
        assert (idx r c = idx row index) as Heq by lia.
        apply idx_inj in Heq as [-> ->]; [|done..]. rewrite Hnew. lia.
      * intros Hz h Hsol Hagree.
        pose proof (Hbound h Hsol Hz Hagree).
        pose proof (solution_digit h row index Hsol Hb). lia.
    + intros [] s' (Hg' & Hsame' & Hfilled' & Hmin').
      split; [done|]. split; [done|]. split; [|split; [done|]].
      * intros r c Hb' Hrc. rewrite (Hsame' r c) by (done || lia).
        by apply Hrange1.
      * intros Hz r c Hb' Hed' Hrc. rewrite (Hsame' r c) by (done || lia).
        by apply Hblank1.
    + intros e s' (Hg' & Hsame' & [[-> Hnone]|(-> & Hall & _)]).
      * split; [done|]. by left.
      * split; [done|]. right. split; [done|]. intros Hcons.
        destruct (last_cell_free (puzzle s) row index) as (d & Hd & Hdfree).
        -- done.
        -- by apply Hinv.
        -- intros r c Hb' Hne.
           destruct (decide (idx r c < idx row index)) as [Hlt|Hnlt].
           ++ by apply Hfilled.
           ++ apply (fixed_digit f g0 Hgiven); [done..|]. apply Hall; [done|].
              destruct (decide (idx r c = idx row index)) as [Heq|]; [|lia].
              apply idx_inj in Heq as [-> ->]; done.
        -- lia.
        -- apply Hdfree, Hconf. lia.
    + intros s' (Hg' & _ & Hfuel). split; [done|].
      pose proof (weight_bound (puzzle s1) (proj2 Hgood1)). lia.
  - rewrite (M_bind_ret _ _ s s tt) by done.
    rewrite (M_bind_ret _ _ s s (cell (puzzle s) row index))
      by (apply read_ok, get_cell_ok; [apply Hinv|done]).
    pose proof (Hrange row index Hb ltac:(lia)) as Hr.
    rewrite backtrack_done by lia. simpl.
    split; [done|]. split; [|split; [|split]].
    + apply filled_below_step; [done..|lia].
    + eapply range_from_mono; [|done]. lia.
    + intros Hz. eapply minimal_skip; [done|by apply Hmin|].
      intros r c Hb' Hrc.
      assert (idx r c = idx row index) as Heq by lia.
      apply idx_inj in Heq as [-> ->]; [|done..].
      destruct (fixed_or_editable f row index Hf (proj1 Hb)) as [|Hed]; [done|].
      exfalso. apply Hnz, (Hblank Hz); [done..|lia].
    + intros Hz r c Hb' Hed' Hrc. apply Hblank; [done..|lia].
Qed.

Lemma solve_sudoku_ends (fuel : nat) (s : state) :
  forward f g0 0 s →
  ends (λ _, forward f g0 81) (failure f g0) (cut f g0 fuel)
       (solve_sudoku fuel f s).
Proof.
  intros Hfw. unfold solve_sudoku.
  assert (length (puzzle s) = 9%nat) as Hlen by apply Hfw.
  rewrite (M_bind_ret _ _ s s 9) by (apply read_ok; by rewrite Hlen).
  eapply ends_mono;
    [apply (for_each_ends _ _ (λ i, forward f g0 (9 * Z.of_nat i)))| | |];
    [|done|by rewrite length_seqZ|done..].
  intros i row s' [-> Hi]%lookup_seqZ Hfw'. rewrite Z.add_0_l.
  rewrite (M_bind_ret _ _ s' s' (row_values (puzzle s') (Z.of_nat i)))
    by (apply read_ok, row_ok; [apply Hfw'|lia]).
  unfold row_values at 1. rewrite length_fmap, length_seqZ.
  eapply ends_mono;
    [apply (for_each_ends _ _
              (λ j, forward f g0 (idx (Z.of_nat i) (Z.of_nat j))))| | |];
    [| |intros [] s''; rewrite length_seqZ|done..].
  - intros j index s'' [-> Hj]%lookup_seqZ Hfw''. rewrite Z.add_0_l.
    eapply ends_mono; [apply solve_cell_ends; [split; lia|done]| |done..].
    intros [] s3. unfold idx.
    by replace (9 * Z.of_nat i + Z.of_nat (S j))
      with (9 * Z.of_nat i + Z.of_nat j + 1) by lia.
  - unfold idx. by rewrite Z.add_0_r.
  - unfold idx.
    by replace (9 * Z.of_nat (S i))
      with (9 * Z.of_nat i + Z.of_nat (Z.to_nat 9)) by lia.
Qed.

End search.

(** ** Whole runs *)

Lemma run_solve_ends (fuel : nat) (g : grid) (f : gmap Z (list Z)) :
  precondition g f →
  ends (λ _, forward f g 81) (failure f g) (cut f g fuel) (run_solve fuel g f).
Proof.
  intros (Hwf & Hf & Hrange & Hgiven). unfold run_solve.
  apply solve_sudoku_ends; [done..|].
  split; [split; [by apply inv_init|]|split; [|split; [|split]]]; simpl.
  - intros r c Hb. by apply Hrange.
  - intros r c Hb Hlt. pose proof (idx_bounds r c Hb). lia.
  - intros r c Hb _. by apply Hrange.
  - intros _ h r c _ Hb Hlt. pose proof (idx_bounds r c Hb). lia.
  - intros Hz r c Hb Hed _. by apply Hz.
Qed.

(** The solutions of a puzzle whose editable cells are empty leave no
    repeated digit among its given cells. *)
Lemma solution_consistent (f : gmap Z (list Z)) (g h : grid) :
  wf_fixed f → zero_start f g → solution f g h → consistent g.
Proof.
  intros Hf Hz [Hsolved Hkeep] r c r' c' Hb Hb' Hne Hrel Hdigit.
  assert (∀ r c, in_bounds r c → cell g r c ≠ 0 → fixed_at f r c) as Hfx.
  { intros r1 c1 Hb1 Hnz.
    destruct (fixed_or_editable f r1 c1 Hf (proj1 Hb1)) as [|Hed]; [done|].
    by rewrite (Hz r1 c1) in Hnz. }
  destruct (decide (cell g r' c' = 0)) as [->|Hnz]; [lia|].
  rewrite <-(Hkeep r c), <-(Hkeep r' c') by (done || apply Hfx; (done || lia)).
  apply (solved_consistent h Hsolved); [done..|].
  by apply solved_digit.
Qed.

(** A square that is least at every first difference is below every
    solution in the lexicographic order. *)
Lemma minimal_lex (f : gmap Z (list Z)) (g0 g h : grid) :
  minimal f g0 81 g → solution f g0 h → same_cells g h ∨ lex_lt g h.
Proof.
  intros Hmin Hsol.
  assert (∀ n : nat, (n ≤ 81)%nat → agree (Z.of_nat n) h g ∨ lex_lt g h) as Hstep.
  { induction n as [|n IH]; intros Hn.
    - left. intros r c Hb Hlt. pose proof (idx_bounds r c Hb). lia.
    - destruct IH as [Hagree|]; [lia| |by right].
      set (r := Z.of_nat n `div` 9). set (c := Z.of_nat n `mod` 9).
      assert (in_bounds r c ∧ idx r c = Z.of_nat n) as [Hb Hidx].
      { pose proof (Z.div_mod (Z.of_nat n) 9 ltac:(done)).
        pose proof (Z.mod_pos_bound (Z.of_nat n) 9 ltac:(done)).
        unfold in_bounds, idx, r, c. lia. }
      rewrite <-Hidx in Hagree.
      pose proof (Hmin h r c Hsol Hb ltac:(lia) Hagree) as Hle.
      destruct (decide (cell g r c = cell h r c)) as [Heq|Hneq].
      + left. intros r' c' Hb' Hlt.
        destruct (decide (idx r' c' = idx r c)) as [Hsame|].
        * apply idx_inj in Hsame as [-> ->]; done.
        * apply Hagree; [done|lia].
      + right. exists r, c. split; [done|]. split; [done|lia]. }
  destruct (Hstep 81%nat) as [Hagree|]; [done| |by right].
  left. intros r c Hb. symmetry. apply Hagree; [done|].
  pose proof (idx_bounds r c Hb). lia.
Qed.

#[global] Instance editable_dec (f : gmap Z (list Z)) (r c : Z) :
  Decision (editable f r c).
Proof.
  unfold editable. destruct (f !! r) as [cols|].
  - destruct (decide (c ∈ cols)); [right|left; by exists cols].
    intros (cols' & [= <-] & ?). done.
  - right. by intros (cols' & [=] & _).
Defined.

#[global] Instance zero_start_dec (f : gmap Z (list Z)) (g : grid) :
  Decision (zero_start f g).
Proof.
  refine (cast_if (decide
    (Forall (λ p, editable f p.1 p.2 → cell g p.1 p.2 = 0) positions)));
    unfold zero_start; by rewrite (forall_in_bounds (λ r c, editable f r c → _)).
Defined.

#[global] Instance solution_dec (f : gmap Z (list Z)) (g h : grid) :
  Decision (solution f g h).
Proof.
  refine (cast_if (decide
    (solved h ∧
     Forall (λ p, fixed_at f p.1 p.2 → cell h p.1 p.2 = cell g p.1 p.2)
            positions)));
    unfold solution; by rewrite (forall_in_bounds (λ r c, fixed_at f r c → _)).
Defined.

(** The puzzle [no_completion] has no solution: the run on it says so. *)
Lemma no_completion_unsolvable :
  ¬ ∃ h, solution (fixed_of no_completion) no_completion h.
Proof.
  intros [h Hsol].
  assert (precondition no_completion (fixed_of no_completion)) as Hpre
    by compute_done.
  pose proof (run_solve_ends 10 _ _ Hpre) as Hrun.
  assert (run_solve 10 no_completion (fixed_of no_completion)
          = Exc (KeyError (-1)) (final_state (run_solve 10 no_completion
                                                (fixed_of no_completion))))
    as Heq by (vm_compute; reflexivity).
  rewrite Heq in Hrun. destruct Hrun as (_ & [[_ Hnone]|[[=] _]]).
  apply (Hnone ltac:(compute_done) h Hsol).
Qed.

(** ** What a run of [solve_sudoku] raises *)

(** X9: a call of [solve_sudoku] on an input that meets the preconditions
    raises nothing but [KeyError(-1)], from the lookup
    [fixed_num_locations[row]] of [find_previous_slot] one row above the
    square, or [KeyError(9)], from the same lookup of [find_next_slot] one
    row below it.  No index of the puzzle is ever out of range. *)
Theorem solve_sudoku_raises_key_error_only
    (fuel : nat) (g : grid) (f : gmap Z (list Z)) (e : exn) (s' : state) :
  precondition g f → run_solve fuel g f = Exc e s' →
  e = KeyError (-1) ∨ e = KeyError 9.
Proof.
  intros Hpre Hrun. pose proof (run_solve_ends fuel g f Hpre) as Hends.
  rewrite Hrun in Hends. destruct Hends as (_ & [[-> _]|[-> _]]); auto.
Qed.

Lemma solve_sudoku_raises_key_error_only_witness :
  precondition no_completion (fixed_of no_completion) ∧
  (KeyError (-1) = KeyError (-1) ∨ KeyError (-1) = KeyError 9).
Proof.
  split; [compute_done|].
  apply (solve_sudoku_raises_key_error_only 10 no_completion
           (fixed_of no_completion) (KeyError (-1))
           (State ([1; 2; 3; 4; 5; 6; 7; 8; 10] :: drop 1 no_completion)
                  [(0, 8)]));
    [compute_done|vm_compute; reflexivity].
Defined.

(** X10: [KeyError(9)] is only raised when a digit stands twice in a row,
    a column or a box of the input.  On an input without such a repeat the
    search never walks off the end of the square. *)
Theorem key_error_9_needs_repeated_digit
    (fuel : nat) (g : grid) (f : gmap Z (list Z)) (s' : state) :
  precondition g f → run_solve fuel g f = Exc (KeyError 9) s' →
  ¬ consistent g.
Proof.
  intros Hpre Hrun. pose proof (run_solve_ends fuel g f Hpre) as Hends.
  rewrite Hrun in Hends. by destruct Hends as (_ & [[[=] _]|[_ ?]]).
Qed.

Lemma key_error_9_needs_repeated_digit_witness :
  precondition stale_attempt stale_attempt_fixed ∧ ¬ consistent stale_attempt.
Proof.
  split; [compute_done|].
  apply (key_error_9_needs_repeated_digit 10 stale_attempt stale_attempt_fixed
           (State first_solution [(8, 8); (8, 7); (8, 8)]));
    [compute_done|vm_compute; reflexivity].
Defined.

(** X11: when [solve_sudoku] raises [KeyError(-1)] on a puzzle whose cells
    outside of [fixed_num_locations] are empty, the puzzle has no solution:
    no solved square keeps its given cells. *)
Theorem key_error_minus_1_means_unsolvable
    (fuel : nat) (g : grid) (f : gmap Z (list Z)) (s' : state) :
  precondition g f → zero_start f g →
  run_solve fuel g f = Exc (KeyError (-1)) s' →
  ¬ ∃ h, solution f g h.
Proof.
  intros Hpre Hz Hrun [h Hsol].
  pose proof (run_solve_ends fuel g f Hpre) as Hends.
  rewrite Hrun in Hends. destruct Hends as (_ & [[_ Hnone]|[[=] _]]).
  by apply (Hnone Hz h).
Qed.

Lemma key_error_minus_1_means_unsolvable_witness :
  ¬ ∃ h, solution (fixed_of no_completion) no_completion h.
Proof.
  apply (key_error_minus_1_means_unsolvable 10 no_completion
           (fixed_of no_completion)
           (State ([1; 2; 3; 4; 5; 6; 7; 8; 10] :: drop 1 no_completion)
                  [(0, 8)]));
    [compute_done|compute_done|vm_compute; reflexivity].
Defined.

(** ** What a run of [solve_sudoku] returns *)



(** X22: when [solve_sudoku] returns on an input that meets the
    preconditions, with or without a repeated digit among its cells, every
    value of the puzzle it leaves is a digit 1..9: no 10, and nothing above
    9, written during the search is left in it. *)
Theorem no_sentinel_on_normal_return (fuel : nat) (g : grid) (f : gmap Z (list Z))
    (s' : state) :
  precondition g f → run_solve fuel g f = Ret tt s' → all_digits (puzzle s').
Proof.
  intros Hpre Hrun row v Hrow Hv.
  pose proof (run_solve_inv fuel g f Hpre) as (Hwf & _).
  rewrite Hrun in Hwf. simpl in Hwf.
  destruct (wf_grid_elem _ _ _ Hwf Hrow Hv) as (r & c & Hb & <-).
  apply (run_solve_filled fuel g f s' Hpre Hrun); [done|].
  destruct Hb. unfold idx. lia.
Qed.

Lemma no_sentinel_on_normal_return_witness :
  precondition empty_grid (fixed_of empty_grid) ∧
  all_digits (puzzle (final_state (run_solve 600 empty_grid (fixed_of empty_grid)))).
Proof.
  split; [compute_done|].
  apply (no_sentinel_on_normal_return 600 empty_grid (fixed_of empty_grid));
    [compute_done|vm_compute; reflexivity].
Defined.

(** ** Termination and completeness *)

(** X13: the loops of [solve_sudoku] end.  On every input that meets the
    preconditions, a run with at least 11^81 + 165 units of fuel returns or
    raises; each round of the backtracking loop puts a larger value into
    an earlier cell than the ones it resets, which bounds the rounds by the
    number of ways to write 81 values up to 10. *)
Theorem solve_sudoku_terminates
    (fuel : nat) (g : grid) (f : gmap Z (list Z)) :
  precondition g f → 11 ^ 81 + 165 ≤ Z.of_nat fuel →
  ∃ s', run_solve fuel g f = Ret tt s' ∨ ∃ e, run_solve fuel g f = Exc e s'.
Proof.
  intros Hpre Hfuel. pose proof (run_solve_ends fuel g f Hpre) as Hends.
  destruct (run_solve fuel g f) as [[] s'|e s'|s'].
  - exists s'. by left.
  - exists s'. right. by exists e.
  - destruct Hends as [_ ?]. lia.
Qed.

Lemma solve_sudoku_terminates_witness :
  ∃ s', run_solve (Z.to_nat (11 ^ 81 + 165)) no_completion
                  (fixed_of no_completion) = Ret tt s' ∨
        ∃ e, run_solve (Z.to_nat (11 ^ 81 + 165)) no_completion
                       (fixed_of no_completion) = Exc e s'.
Proof.
  apply (solve_sudoku_terminates (Z.to_nat (11 ^ 81 + 165)) no_completion
           (fixed_of no_completion)); [compute_done|].
  rewrite Z2Nat.id; lia.
Defined.

(** X14: on a puzzle that has a solution and whose cells outside of
    [fixed_num_locations] are empty, [solve_sudoku] raises nothing: with
    enough fuel it returns, and the square it leaves is a solution of the
    puzzle. *)
Theorem solve_sudoku_complete
    (fuel : nat) (g : grid) (f : gmap Z (list Z)) (h : grid) :
  precondition g f → zero_start f g → solution f g h →
  11 ^ 81 + 165 ≤ Z.of_nat fuel →
  ∃ s', run_solve fuel g f = Ret tt s' ∧ solution f g (puzzle s').
Proof.
  intros Hpre Hz Hsol Hfuel.
  pose proof (run_solve_ends fuel g f Hpre) as Hends.
  assert (consistent g) as Hcons.
  { eapply solution_consistent; [apply Hpre|done..]. }
  destruct (run_solve fuel g f) as [[] s'|e s'|s'].
  - exists s'. split; [done|].
    destruct Hends as ([Hinv _] & Hfilled & _).
    destruct Hinv as (Hwf & Hfix & _ & Hkeep). split.
    + apply solved_of_consistent; [done|by apply Hkeep|done].
    + done.
  - destruct Hends as (_ & [[_ Hnone]|[_ Hbad]]); [|done].
    destruct (Hnone Hz h Hsol).
  - destruct Hends as [_ ?]. lia.
Qed.

Lemma solve_sudoku_complete_witness :
  ∃ s', run_solve (Z.to_nat (11 ^ 81 + 165)) one_missing (fixed_of one_missing)
        = Ret tt s' ∧
        solution (fixed_of one_missing) one_missing (puzzle s').
Proof.
  apply (solve_sudoku_complete (Z.to_nat (11 ^ 81 + 165)) one_missing
           (fixed_of one_missing) first_solution);
    [compute_done|compute_done|compute_done|].
  rewrite Z2Nat.id; lia.
Defined.

(** X15: on a puzzle without a repeated digit that has no solution, and
    whose cells outside of [fixed_num_locations] are empty, [solve_sudoku]
    with enough fuel raises [KeyError(-1)]: that exception is the only way
    the code reports an unsolvable puzzle. *)
Theorem unsolvable_raises_key_error
    (fuel : nat) (g : grid) (f : gmap Z (list Z)) :
  precondition g f → zero_start f g → consistent g →
  (¬ ∃ h, solution f g h) → 11 ^ 81 + 165 ≤ Z.of_nat fuel →
  ∃ s', run_solve fuel g f = Exc (KeyError (-1)) s'.
Proof.
  intros Hpre Hz Hcons Hnone Hfuel.
  pose proof (run_solve_ends fuel g f Hpre) as Hends.
  destruct (run_solve fuel g f) as [[] s'|e s'|s'].
  - destruct Hends as ([Hinv _] & Hfilled & _).
    destruct Hinv as (Hwf & Hfix & _ & Hkeep).
    destruct Hnone. exists (puzzle s'). split; [|done].
    apply solved_of_consistent; [done|by apply Hkeep|done].
  - destruct Hends as (_ & [[-> _]|[_ Hbad]]); [by exists s'|done].
  - destruct Hends as [_ ?]. lia.
Qed.

Lemma unsolvable_raises_key_error_witness :
  ∃ s', run_solve (Z.to_nat (11 ^ 81 + 165)) no_completion
                  (fixed_of no_completion) = Exc (KeyError (-1)) s'.
Proof.
  apply (unsolvable_raises_key_error (Z.to_nat (11 ^ 81 + 165)) no_completion
           (fixed_of no_completion));
    [compute_done|compute_done|compute_done|apply no_completion_unsolvable|].
  rewrite Z2Nat.id; lia.
Defined.

(** ** The cells a call may change *)

Lemma ends_final {A} (P : state → Prop) (o : outcome A) :
  ends (λ _, P) (λ _, P) P o → P (final_state o).
Proof. by destruct o. Qed.

Lemma modify_loop_frame (fuel : nat) (f : gmap Z (list Z))
    (er ec num cr cc : Z) (s : state) :
  wf_fixed f → wf_grid (puzzle s) → in_bounds cr cc → in_bounds er ec →
  let F s' := wf_grid (puzzle s') ∧
              same_outside (idx cr cc) (idx er ec) (puzzle s) (puzzle s') in
  ends (λ res s', F s' ∧
          (num < 10 → 10 ≤ filled_num res →
           in_bounds (filled_row res) (filled_col res) ∧
           idx (filled_row res) (filled_col res) ≤ idx er ec))
       (λ _, F) F (modify_loop fuel f er ec num cr cc s).
Proof.
  intros Hf Hwf Hbc Hbe. revert num cr cc s Hwf Hbc.
  induction fuel as [|fuel IH]; intros num cr cc s Hwf Hbc F;
    cbn [modify_loop]; destruct (Z.ltb_spec num 10) as [Hnum|Hnum].
  2,4: simpl; split; [split; [done|apply same_outside_refl]|lia].
  { simpl. split; [done|apply same_outside_refl]. }
  destruct (find_next_slot fuel f cr cc) as [sl|e|] eqn:Hnav.
  - rewrite (M_bind_ret _ _ s s sl) by (by apply read_ok). cbn zeta.
    destruct (find_next_slot_sound _ _ _ _ _ Hf Hbc Hnav) as (Hbx & _ & Hltx & _).
    set (xr := slot_row sl) in *. set (xc := slot_col sl) in *.
    destruct (appears_after xr xc er ec) eqn:Hafter; cbn [negb].
    + simpl. split; [split; [done|apply same_outside_refl]|lia].
    + assert (idx xr xc ≤ idx er ec) as Hle.
      { destruct (decide (idx er ec < idx xr xc)) as [Hlt|]; [|lia].
        apply appears_after_idx in Hlt; [congruence|done..]. }
      destruct (pick_input_num_ok (puzzle s) xr xc 1) as (m & Hm & _); [done..|].
      rewrite (M_bind_ret _ _ s s m) by (by apply read_ok).
      destruct (Z.ltb_spec m 10) as [Hm10|Hm10].
      * rewrite (M_bind_ret _ _ s _ tt) by (by apply write_ok).
        eapply ends_mono; [apply (IH m xr xc); [by apply upd_wf|done]|..];
          simpl.
        -- intros res s' [[? Hsame] Hres]. split; [split; [done|]|intros _; by apply Hres].
           eapply same_outside_trans;
             [| |apply (same_outside_upd _ (idx er ec) _ xr xc m)|exact Hsame];
             [lia|lia|done|lia].
        -- intros _ s' [? Hsame]. split; [done|].
           eapply same_outside_trans;
             [| |apply (same_outside_upd _ (idx er ec) _ xr xc m)|exact Hsame];
             [lia|lia|done|lia].
        -- intros s' [? Hsame]. split; [done|].
           eapply same_outside_trans;
             [| |apply (same_outside_upd _ (idx er ec) _ xr xc m)|exact Hsame];
             [lia|lia|done|lia].
      * rewrite (M_bind_ret _ _ s s tt) by done.
        rewrite modify_loop_stop by done. simpl.
        split; [split; [done|apply same_outside_refl]|done].
  - rewrite (M_bind_exc _ _ s s e) by done. simpl.
    split; [done|apply same_outside_refl].
  - rewrite (M_bind_timeout _ _ s s) by done. simpl.
    split; [done|apply same_outside_refl].
Qed.

Lemma modify_previous_slots_ends (fuel : nat) (f : gmap Z (list Z))
    (sr sc er ec : Z) (s : state) :
  wf_fixed f → wf_grid (puzzle s) → in_bounds sr sc → in_bounds er ec →
  let F s' := wf_grid (puzzle s') ∧
              same_outside (idx sr sc) (idx er ec) (puzzle s) (puzzle s') in
  ends (λ res s', F s' ∧
          (cell (puzzle s) sr sc < 10 → 10 ≤ filled_num res →
           in_bounds (filled_row res) (filled_col res) ∧
           idx (filled_row res) (filled_col res) ≤ idx er ec))
       (λ _, F) F (modify_previous_slots fuel f sr sc er ec s).
Proof.
  intros Hf Hwf Hbs Hbe. unfold modify_previous_slots.
  rewrite (M_bind_ret _ _ s s (cell (puzzle s) sr sc))
    by (by apply read_ok, get_cell_ok).
  by apply modify_loop_frame.
Qed.

Lemma backtrack_frame (fuel : nat) (f : gmap Z (list Z))
    (row index num cr cc : Z) (s : state) :
  wf_fixed f → wf_grid (puzzle s) → in_bounds row index →
  (9 < num → in_bounds cr cc ∧ idx cr cc ≤ idx row index) →
  let F s' := wf_grid (puzzle s') ∧
              same_outside (-1) (idx row index) (puzzle s) (puzzle s') in
  ends (λ _, F) (λ _, F) F (backtrack fuel f row index num cr cc s).
Proof.
  intros Hf Hwf Hbp Hcur. revert num cr cc s Hwf Hcur.
  induction fuel as [|fuel IH]; intros num cr cc s Hwf Hcur F;
    cbn [backtrack]; destruct (Z.gtb_spec num 9) as [Hnum|Hnum].
  1-2,4: simpl; split; [done|apply same_outside_refl].
  destruct (Hcur Hnum) as [Hbc Hle].
  pose proof (idx_bounds _ _ Hbp) as Hip.
  destruct (find_previous_slot fuel f cr cc) as [sl|e|] eqn:Hnav.
  - rewrite (M_bind_ret _ _ s s sl) by (by apply read_ok). cbn zeta.
    destruct (find_previous_slot_sound _ _ _ _ _ Hf Hbc Hnav)
      as (Hbq & _ & Hltq & _).
    set (qr := slot_row sl) in *. set (qc := slot_col sl) in *.
    pose proof (idx_bounds _ _ Hbq) as Hiq.
    rewrite (M_bind_ret _ _ s s (cell (puzzle s) qr qc))
      by (by apply read_ok, get_cell_ok).
    destruct (pick_input_num_ok (puzzle s) qr qc (cell (puzzle s) qr qc + 1))
      as (n & Hn & _); [done..|].
    rewrite (M_bind_ret _ _ s s n) by (by apply read_ok).
    rewrite (M_bind_ret _ _ s _ tt) by (by apply write_ok).
    set (s1 := State (upd (puzzle s) qr qc n) ((qr, qc) :: writes s)).
    assert (wf_grid (puzzle s1)) as Hwf1 by (by apply upd_wf).
    assert (same_outside (-1) (idx row index) (puzzle s) (puzzle s1)) as Hframe1.
    { apply same_outside_upd; [done|lia]. }
    assert (∀ s', wf_grid (puzzle s') ∧
                  same_outside (-1) (idx row index) (puzzle s1) (puzzle s') →
                  F s') as Hback.
    { intros s' [? Hsame]. split; [done|].
      eapply same_outside_trans; [| |exact Hframe1|exact Hsame]; lia. }
    destruct (Z.ltb_spec n 10) as [Hn10|Hn10]; cbn beta iota.
    + eapply ends_bind.
      * by apply (modify_previous_slots_ends fuel f qr qc row index s1).
      * intros res s2 [[Hwf2 Hsame2] Hres]. simpl in Hres.
        rewrite cell_upd_eq in Hres by done.
        assert (same_outside (-1) (idx row index) (puzzle s) (puzzle s2)) as Hfr.
        { eapply same_outside_trans; [| |exact Hframe1|exact Hsame2]; lia. }
        eapply ends_mono; [apply (IH _ _ _ s2 Hwf2)|..].
        -- intros Hgt. apply Hres; lia.
        -- intros _ s' [? Hsame]. split; [done|].
           eapply same_outside_trans; [| |exact Hfr|exact Hsame]; lia.
        -- intros _ s' [? Hsame]. split; [done|].
           eapply same_outside_trans; [| |exact Hfr|exact Hsame]; lia.
        -- intros s' [? Hsame]. split; [done|].
           eapply same_outside_trans; [| |exact Hfr|exact Hsame]; lia.
      * intros _ s' [? Hsame]. split; [done|].
        eapply same_outside_trans; [| |exact Hframe1|exact Hsame]; lia.
      * intros s' [? Hsame]. split; [done|].
        eapply same_outside_trans; [| |exact Hframe1|exact Hsame]; lia.
    + eapply ends_mono; [apply (IH n qr qc s1 Hwf1)|..]; simpl.
      * intros _. split; [done|lia].
      * intros _ s'. apply Hback.
      * intros _ s'. apply Hback.
      * apply Hback.
  - rewrite (M_bind_exc _ _ s s e) by done. simpl.
    split; [done|apply same_outside_refl].
  - rewrite (M_bind_timeout _ _ s s) by done. simpl.
    split; [done|apply same_outside_refl].
Qed.

(** X16: whatever its outcome, [modify_previous_slots] called from a start
    position towards an end position keeps the puzzle 9×9 and changes no
    cell at or before the start and no cell after the end; when it returns
    a slot whose value is 10 or more, from a start that holds less, that
    slot is a position of the square not after the end. *)
Theorem modify_previous_slots_frame (fuel : nat) (f : gmap Z (list Z))
    (sr sc er ec : Z) (s : state) :
  wf_fixed f → wf_grid (puzzle s) → in_bounds sr sc → in_bounds er ec →
  let o := modify_previous_slots fuel f sr sc er ec s in
  wf_grid (puzzle (final_state o)) ∧
  same_outside (idx sr sc) (idx er ec) (puzzle s) (puzzle (final_state o)) ∧
  ∀ res s', o = Ret res s' → cell (puzzle s) sr sc < 10 →
            10 ≤ filled_num res →
            in_bounds (filled_row res) (filled_col res) ∧
            idx (filled_row res) (filled_col res) ≤ idx er ec.
Proof.
  intros Hf Hwf Hbs Hbe o.
  pose proof (modify_previous_slots_ends fuel f sr sc er ec s Hf Hwf Hbs Hbe)
    as Hends.
  fold o in Hends. destruct o as [res s'|e s'|s']; simpl in *.
  - destruct Hends as [[? ?] Hres]. split; [done|]. split; [done|].
    by intros ? ? [= <- <-].
  - destruct Hends. by split_and!.
  - destruct Hends. by split_and!.
Qed.

Lemma modify_previous_slots_frame_witness :
  let o := modify_previous_slots 10 stale_attempt_fixed 8 7 8 8
                                 (State stale_attempt []) in
  wf_grid (puzzle (final_state o)) ∧
  same_outside (idx 8 7) (idx 8 8) stale_attempt (puzzle (final_state o)) ∧
  ∀ res s', o = Ret res s' → cell stale_attempt 8 7 < 10 →
            10 ≤ filled_num res →
            in_bounds (filled_row res) (filled_col res) ∧
            idx (filled_row res) (filled_col res) ≤ idx 8 8.
Proof.
  apply (modify_previous_slots_frame 10 stale_attempt_fixed 8 7 8 8
           (State stale_attempt [])); compute_done.
Defined.

(** X17: whatever its outcome, the body of the two [for] loops of
    [solve_sudoku] at a cell, backtracking included, keeps the puzzle 9×9
    and changes no cell after that cell. *)
Theorem solve_cell_frame (fuel : nat) (f : gmap Z (list Z))
    (row index : Z) (s : state) :
  wf_fixed f → wf_grid (puzzle s) → in_bounds row index →
  wf_grid (puzzle (final_state (solve_cell fuel f row index s))) ∧
  same_outside (-1) (idx row index) (puzzle s)
               (puzzle (final_state (solve_cell fuel f row index s))).
Proof.
  intros Hf Hwf Hb.
  apply (ends_final (λ s', wf_grid (puzzle s') ∧
           same_outside (-1) (idx row index) (puzzle s) (puzzle s'))).
  pose proof (idx_bounds _ _ Hb) as Hi.
  unfold solve_cell.
  rewrite (M_bind_ret _ _ s s (cell (puzzle s) row index))
    by (by apply read_ok, get_cell_ok).
  cbn beta.
  destruct (Z.eqb_spec (cell (puzzle s) row index) 0) as [Hzero|Hnz].
  - destruct (pick_input_num_ok (puzzle s) row index 1) as (m & Hm & _);
      [done..|].
    set (s1 := State (upd (puzzle s) row index m) ((row, index) :: writes s)).
    rewrite (M_bind_ret _ _ s s1 tt).
    2:{ rewrite (M_bind_ret _ _ s s m) by (by apply read_ok).
        by apply write_ok. }
    assert (wf_grid (puzzle s1)) as Hwf1 by (by apply upd_wf).
    rewrite (M_bind_ret _ _ s1 s1 m).
    2:{ apply read_ok. rewrite get_cell_ok by done. simpl.
        by rewrite cell_upd_eq. }
    assert (same_outside (-1) (idx row index) (puzzle s) (puzzle s1)) as Hframe1.
    { apply same_outside_upd; [done|lia]. }
    eapply ends_mono;
      [apply (backtrack_frame fuel f row index m row index s1); try done|..];
      simpl.
    + intros _ s' [? Hsame]. split; [done|].
      eapply same_outside_trans; [| |exact Hframe1|exact Hsame]; lia.
    + intros _ s' [? Hsame]. split; [done|].
      eapply same_outside_trans; [| |exact Hframe1|exact Hsame]; lia.
    + intros s' [? Hsame]. split; [done|].
      eapply same_outside_trans; [| |exact Hframe1|exact Hsame]; lia.
  - rewrite (M_bind_ret _ _ s s tt) by done.
    rewrite (M_bind_ret _ _ s s (cell (puzzle s) row index))
      by (by apply read_ok, get_cell_ok).
    eapply ends_mono;
      [apply (backtrack_frame fuel f row index _ row index s); try done|..];
      simpl; done.
Qed.

Lemma solve_cell_frame_witness :
  wf_grid (puzzle (final_state
             (solve_cell 10 stale_attempt_fixed 8 8 (State stale_attempt [])))) ∧
  same_outside (-1) (idx 8 8) stale_attempt
    (puzzle (final_state
               (solve_cell 10 stale_attempt_fixed 8 8 (State stale_attempt [])))).
Proof.
  apply (solve_cell_frame 10 stale_attempt_fixed 8 8 (State stale_attempt []));
    compute_done.
Defined.

(** * The application *)

Lemma puzzle_is_empty_spec (a : app) :
  puzzle_is_empty a = true ↔
  map_Forall (λ _ cols, cols = []) (fixed_num_locations a).
Proof.
  unfold puzzle_is_empty.
  rewrite map_Forall_to_list.
  induction (map_to_list (fixed_num_locations a)) as [|[k l] kvs IH]; simpl.
  - split; [constructor|done].
  - rewrite Forall_cons. simpl. case_bool_decide as Hl.
    + rewrite IH. tauto.
    + split; [done|tauto].
Qed.

Lemma py_remove_elem (x y : Z) (l : list Z) :
  NoDup l → y ∈ py_remove x l ↔ y ∈ l ∧ y ≠ x.
Proof.
  induction l as [|z l IH]; simpl; intros Hnd.
  - split; [by intros ?%elem_of_nil|by intros [?%elem_of_nil _]].
  - apply NoDup_cons in Hnd as [Hz Hnd]. case_bool_decide as Hzx.
    + subst z. rewrite elem_of_cons. split.
      * intros Hy. split; [by right|]. by intros ->.
      * intros [[->|Hy] Hne]; done.
    + rewrite !elem_of_cons, IH by done. split.
      * intros [->|[? ?]]; [by split; [left|]|by split; [right|]].
      * intros [[->|?] ?]; [by left|by right].
Qed.

Lemma py_remove_NoDup (x : Z) (l : list Z) : NoDup l → NoDup (py_remove x l).
Proof.
  induction l as [|z l IH]; simpl; intros Hnd; [done|].
  apply NoDup_cons in Hnd as [Hz Hnd]. case_bool_decide; [done|].
  apply NoDup_cons. split; [|by apply IH].
  rewrite py_remove_elem by done. tauto.
Qed.

Lemma click_cell (x : Z) :
  MARGIN < x < PUZZLE_SIZE - MARGIN → 0 ≤ (x - MARGIN) `div` LINE_SPACE ≤ 8.
Proof.
  change MARGIN with 50. change PUZZLE_SIZE with 550. change LINE_SPACE with 50.
  intros Hx. split; [apply Z.div_pos; lia|].
  apply Z.lt_succ_r, Z.div_lt_upper_bound; lia.
Qed.

Lemma display_cell_change_data (r c v : Z) (a : app) :
  puzzle_nums (display_cell_change r c v a) = puzzle_nums a ∧
  fixed_num_locations (display_cell_change r c v a) = fixed_num_locations a.
Proof.
  unfold display_cell_change.
  destruct (negb (v =? 0)); [done|]. by destruct (puzzle_is_empty a).
Qed.

(** A click that [change_cell_num] accepts, on a puzzle entered by hand. *)
Lemma change_cell_num_step (mouse_x mouse_y : Z) (a : app) :
  entered a →
  MARGIN < mouse_x < PUZZLE_SIZE - MARGIN →
  MARGIN < mouse_y < PUZZLE_SIZE - MARGIN →
  let row := (mouse_y - MARGIN) `div` LINE_SPACE in
  let col := (mouse_x - MARGIN) `div` LINE_SPACE in
  in_bounds row col ∧
  ∃ a', change_cell_num mouse_x mouse_y a = Ok a' ∧ entered a' ∧
        puzzle_nums a' = upd (puzzle_nums a) row col
                             ((cell (puzzle_nums a) row col + 1) `mod` 10).
Proof.
  intros (Hwf & Hf & Hrange & Hlists & Hiff & Hsb & Hrb) Hx Hy row col.
  assert (in_bounds row col) as Hb by (split; by apply click_cell).
  split; [done|]. unfold change_cell_num.
  destruct (Z.ltb_spec MARGIN mouse_x); [|lia].
  destruct (Z.ltb_spec mouse_x (PUZZLE_SIZE - MARGIN)); [|lia].
  destruct (Z.ltb_spec MARGIN mouse_y); [|lia].
  destruct (Z.ltb_spec mouse_y (PUZZLE_SIZE - MARGIN)); [|lia].
  cbn [andb]. fold row col.
  rewrite get_cell_ok, bind_ok by done.
  set (old := cell (puzzle_nums a) row col).
  set (new := (old + 1) `mod` 10).
  pose proof (Z.mod_pos_bound (old + 1) 10 ltac:(done)) as Hnew. fold new in Hnew.
  rewrite set_cell_ok, bind_ok by done.
  destruct (proj2 (Hf row) (proj1 Hb)) as [cols Hcols].
  unfold dict_get. rewrite Hcols, bind_ok.
  destruct (Hlists row cols Hcols) as [Hnd Hin].
  set (cols1 := if py_in col cols then py_remove col cols else cols).
  set (cols2 := if negb (new =? 0) then cols1 ++ [col] else cols1).
  assert (NoDup cols1 ∧ ∀ c, c ∈ cols1 ↔ c ∈ cols ∧ c ≠ col) as [Hnd1 Hin1].
  { unfold cols1, py_in. case_bool_decide as Hmem.
    - split; [by apply py_remove_NoDup|]. intros c. by apply py_remove_elem.
    - split; [done|]. intros c. split; [|tauto].
      intros Hc. split; [done|]. by intros ->. }
  assert (NoDup cols2 ∧
          ∀ c, c ∈ cols2 ↔ (c ∈ cols ∧ c ≠ col) ∨ (c = col ∧ new ≠ 0))
    as [Hnd2 Hin2].
  { unfold cols2. destruct (Z.eqb_spec new 0) as [Hz|Hnz]; cbn [negb].
    - split; [done|]. intros c. rewrite Hin1. tauto.
    - split.
      + apply NoDup_app. split; [done|]. split; [|apply NoDup_singleton].
        intros c Hc ->%list_elem_of_singleton. apply Hin1 in Hc. tauto.
      + intros c. rewrite elem_of_app, list_elem_of_singleton, Hin1. tauto. }
  eexists. split; [done|]. split.
  2:{ by rewrite (proj1 (display_cell_change_data _ _ _ _)). }
  assert (∀ r c, fixed_at (<[row := cols2]> (fixed_num_locations a)) r c ↔
                 if decide (r = row) then c ∈ cols2
                 else fixed_at (fixed_num_locations a) r c) as Hfx.
  { intros r c. unfold fixed_at. destruct (decide (r = row)) as [->|Hne].
    - rewrite lookup_insert_eq. split; [by intros (? & [= <-] & ?)|eauto].
    - by rewrite lookup_insert_ne. }
  set (a1 := App (upd (puzzle_nums a) row col new)
                 (<[row := cols2]> (fixed_num_locations a))
                 (solve_button a) (reset_button a)).
  assert (new ≠ 0 → puzzle_is_empty a1 = false) as Hfull.
  { intros Hnz. destruct (puzzle_is_empty a1) eqn:He; [|done].
    apply puzzle_is_empty_spec in He.
    pose proof (He row cols2 (lookup_insert_eq _ _ _)) as Hnil.
    simpl in Hnil. assert (col ∈ cols2) as Hmem by (apply Hin2; tauto).
    rewrite Hnil in Hmem. by apply elem_of_nil in Hmem. }
  assert (new = 0 → puzzle_is_empty a = true → puzzle_is_empty a1 = true)
    as Hkeep.
  { intros Hz He. apply puzzle_is_empty_spec. simpl.
    apply puzzle_is_empty_spec in He.
    apply map_Forall_insert_2; [|done].
    pose proof (He row cols Hcols) as Hnil. simpl in Hnil.
    apply elem_of_nil_inv. intros c [[Hmem _]|[_ ?]]%Hin2; [|done].
    rewrite Hnil in Hmem. by apply elem_of_nil in Hmem. }
  assert (entered (App (puzzle_nums a1) (fixed_num_locations a1)
                       (negb (puzzle_is_empty a1)) (negb (puzzle_is_empty a1))))
    as Hdata.
  { split; [by apply upd_wf|]. split.
    { intros r. simpl. rewrite lookup_insert_is_Some.
      destruct (decide (row = r)) as [<-|]; [destruct Hb; tauto|].
      rewrite (Hf r). tauto. }
    split.
    { intros r c Hb'. simpl.
      destruct (decide ((r, c) = (row, col))) as [[= -> ->]|Hne].
      - rewrite cell_upd_eq by done. lia.
      - rewrite cell_upd_ne by done. by apply Hrange. }
    split.
    { simpl. apply map_Forall_insert_2; [|done]. split; [done|].
      apply Forall_forall. intros c [[Hc _]|[-> _]]%Hin2.
      - by apply (proj1 (Forall_forall _ _) Hin).
      - apply Hb. }
    split; [|done].
    intros r c Hb'. simpl. rewrite Hfx.
    destruct (decide (r = row)) as [->|Hne].
    - rewrite Hin2. destruct (decide (c = col)) as [->|Hc].
      + rewrite cell_upd_eq by done. tauto.
      + rewrite cell_upd_ne by (done || congruence).
        rewrite <-Hiff by done. unfold fixed_at. rewrite Hcols.
        split.
        * intros [[? _]|[? _]]; [eauto|done].
        * intros (? & [= <-] & ?). tauto.
    - rewrite cell_upd_ne by (done || congruence). by apply Hiff. }
  assert (solve_button (display_cell_change row col new a1)
            = negb (puzzle_is_empty a1) ∧
          reset_button (display_cell_change row col new a1)
            = negb (puzzle_is_empty a1)) as [Hs2 Hr2].
  { unfold display_cell_change.
    destruct (Z.eqb_spec new 0) as [Hz|Hnz]; cbn [negb].
    - destruct (puzzle_is_empty a1) eqn:He; [done|]. simpl.
      rewrite Hsb, Hrb. destruct (puzzle_is_empty a) eqn:Ha; [|done].
      specialize (Hkeep Hz eq_refl). congruence.
    - by rewrite (Hfull Hnz). }
  destruct Hdata as (Hd1 & Hd2 & Hd3 & Hd4 & Hd5 & _).
  destruct (display_cell_change_data row col new a1) as [Hp Hd].
  unfold entered. rewrite Hs2, Hr2. unfold puzzle_is_empty at 2 4.
  rewrite Hp, Hd. done.
Qed.

Lemma entered_start : entered start.
Proof.
  split; [compute_done|]. split; [compute_done|]. split; [compute_done|].
  split; [compute_done|]. split; [|done].
  apply (forall_in_bounds (λ r c, fixed_at _ r c ↔ cell _ r c ≠ 0)).
  compute_done.
Qed.

Lemma handle_entered (ev : event) (a : app) :
  entered a → ∃ a', handle ev a = Ok a' ∧ entered a'.
Proof.
  intros Ha. destruct ev as [mouse_x mouse_y|]; simpl.
  - destruct (decide (MARGIN < mouse_x < PUZZLE_SIZE - MARGIN ∧
                      MARGIN < mouse_y < PUZZLE_SIZE - MARGIN)) as [[Hx Hy]|Hout].
    + destruct (change_cell_num_step mouse_x mouse_y a Ha Hx Hy)
        as (_ & a' & ? & ? & _). by exists a'.
    + exists a. split; [|done]. unfold change_cell_num.
      destruct (Z.ltb_spec MARGIN mouse_x); [|done].
      destruct (Z.ltb_spec mouse_x (PUZZLE_SIZE - MARGIN)); [|done].
      destruct (Z.ltb_spec MARGIN mouse_y); [|done].
      destruct (Z.ltb_spec mouse_y (PUZZLE_SIZE - MARGIN)); [|done].
      lia.
  - exists start. split; [done|apply entered_start].
Qed.

Lemma run_events_entered (evs : list event) (a : app) :
  entered a → ∃ a', run_events evs a = Ok a' ∧ entered a'.
Proof.
  revert a. induction evs as [|ev evs IH]; intros a Ha; simpl.
  - by exists a.
  - destruct (handle_entered ev a Ha) as (a1 & -> & Ha1). rewrite bind_ok.
    by apply IH.
Qed.

Lemma entered_fixed_in_bounds (a : app) (r c : Z) :
  entered a → fixed_at (fixed_num_locations a) r c → in_bounds r c.
Proof.
  intros (_ & Hf & _ & Hlists & _) (cols & Hcols & Hc). split.
  - apply Hf. by exists cols.
  - destruct (Hlists r cols Hcols) as [_ Hin].
    by apply (proj1 (Forall_forall _ _) Hin).
Qed.

Lemma entered_precondition (a : app) :
  entered a →
  precondition (puzzle_nums a) (fixed_num_locations a) ∧
  zero_start (fixed_num_locations a) (puzzle_nums a).
Proof.
  intros (Hwf & Hf & Hrange & Hlists & Hiff & _). split.
  - split; [done|]. split; [done|]. split; [done|].
    intros r c Hb Hfx. apply Hiff in Hfx; [|done].
    pose proof (Hrange r c Hb). lia.
  - intros r c Hb Hed.
    destruct (decide (cell (puzzle_nums a) r c = 0)) as [|Hnz]; [done|].
    apply Hiff in Hnz; [|done]. by destruct (fixed_not_editable _ _ _ Hnz Hed).
Qed.

Lemma entered_empty (a : app) :
  entered a →
  puzzle_is_empty a = true ↔
  ∀ r c, in_bounds r c → cell (puzzle_nums a) r c = 0.
Proof.
  intros Ha. pose proof Ha as (_ & Hf & _ & _ & Hiff & _).
  rewrite puzzle_is_empty_spec. split.
  - intros Hall r c Hb.
    destruct (decide (cell (puzzle_nums a) r c = 0)) as [|Hnz]; [done|].
    apply Hiff in Hnz as (cols & Hcols & Hc); [|done].
    rewrite (Hall r cols Hcols) in Hc. by apply elem_of_nil in Hc.
  - intros Hzero r cols Hcols. apply elem_of_nil_inv. intros c Hc.
    assert (fixed_at (fixed_num_locations a) r c) as Hfx by (by exists cols).
    pose proof (entered_fixed_in_bounds a r c Ha Hfx) as Hb.
    apply Hiff in Hfx; [|done]. by apply Hfx, Hzero.
Qed.

Lemma wf_grid_ext (g g' : grid) :
  wf_grid g → wf_grid g' → same_cells g g' → g = g'.
Proof.
  intros [Hlen Hrows] [Hlen' Hrows'] Hsame.
  apply (list_eq_same_length _ _ 9%nat); [done..|].
  intros i row row' Hi Hrow Hrow'.
  apply (list_eq_same_length _ _ 9%nat).
  - apply (proj1 (Forall_forall _ _) Hrows'). by eapply list_elem_of_lookup_2.
  - apply (proj1 (Forall_forall _ _) Hrows). by eapply list_elem_of_lookup_2.
  - intros j x y Hj Hx Hy.
    specialize (Hsame (Z.of_nat i) (Z.of_nat j) ltac:(unfold in_bounds; lia)).
    unfold cell in Hsame. rewrite !Nat2Z.id, Hrow, Hrow', Hx, Hy in Hsame.
    done.
Qed.

Lemma display_foldl_data (l : list (Z * Z * Z)) (a : app) :
  let a' := foldl (λ a p, display_cell_change p.1.1 p.1.2 p.2 a) a l in
  puzzle_nums a' = puzzle_nums a ∧
  fixed_num_locations a' = fixed_num_locations a.
Proof.
  revert a. induction l as [|p l IH]; intros a; simpl; [done|].
  destruct (IH (display_cell_change p.1.1 p.1.2 p.2 a)) as [-> ->].
  apply display_cell_change_data.
Qed.

Lemma display_foldl_buttons (l : list (Z * Z * Z)) (a : app) :
  l ≠ [] → Forall (λ p, p.2 ≠ 0) l →
  let a' := foldl (λ a p, display_cell_change p.1.1 p.1.2 p.2 a) a l in
  solve_button a' = true ∧ reset_button a' = true.
Proof.
  destruct l as [|p l _] using rev_ind; [done|]. intros _ Hall.
  apply Forall_app in Hall as [_ Hp]. apply Forall_inv in Hp.
  cbn zeta. rewrite foldl_snoc. unfold display_cell_change.
  simpl in Hp. destruct (Z.eqb_spec p.2 0); [done|]. by cbn [negb].
Qed.

Lemma display_all_filled (a : app) :
  wf_grid (puzzle_nums a) → filled_below 81 (puzzle_nums a) →
  puzzle_nums (display_all a) = puzzle_nums a ∧
  fixed_num_locations (display_all a) = fixed_num_locations a ∧
  solve_button (display_all a) = true ∧ reset_button (display_all a) = true.
Proof.
  intros Hwf Hfilled. unfold display_all.
  split; [apply display_foldl_data|]. split; [apply display_foldl_data|].
  apply display_foldl_buttons.
  - destruct Hwf as [Hlen Hrows].
    destruct (puzzle_nums a) as [|r0 g]; [done|].
    apply Forall_cons in Hrows as [Hr0 _]. by destruct r0.
  - apply Forall_forall. intros p Hp.
    apply list_elem_of_In, in_concat in Hp as (cells & Hcells & Hp).
    apply list_elem_of_In, elem_of_lookup_imap in Hcells
      as (i & row & -> & Hrow).
    apply list_elem_of_In, elem_of_lookup_imap in Hp as (j & v & -> & Hv).
    simpl.
    destruct (wf_grid_elem (puzzle_nums a) row v Hwf) as (r & c & Hb & <-).
    + by eapply list_elem_of_lookup_2.
    + by eapply list_elem_of_lookup_2.
    + pose proof (idx_bounds r c Hb).
      pose proof (Hfilled r c Hb ltac:(lia)). lia.
Qed.

Lemma clicks_add (n : nat) (mouse_x mouse_y : Z) (a : app) :
  entered a →
  MARGIN < mouse_x < PUZZLE_SIZE - MARGIN →
  MARGIN < mouse_y < PUZZLE_SIZE - MARGIN →
  let row := (mouse_y - MARGIN) `div` LINE_SPACE in
  let col := (mouse_x - MARGIN) `div` LINE_SPACE in
  ∃ a', run_events (replicate n (Click mouse_x mouse_y)) a = Ok a' ∧
        entered a' ∧
        cell (puzzle_nums a') row col
          = (cell (puzzle_nums a) row col + Z.of_nat n) `mod` 10 ∧
        ∀ r c, in_bounds r c → (r, c) ≠ (row, col) →
               cell (puzzle_nums a') r c = cell (puzzle_nums a) r c.
Proof.
  intros Ha Hx Hy row col. revert a Ha.
  induction n as [|n IH]; intros a Ha; simpl.
  - exists a. split; [done|]. split; [done|]. split; [|done].
    destruct (change_cell_num_step mouse_x mouse_y a Ha Hx Hy) as [Hb _].
    pose proof (proj1 (proj2 (proj2 Ha)) _ _ Hb) as Hrange. fold row col in Hrange.
    rewrite Z.add_0_r, Z.mod_small; [done|lia].
  - destruct (change_cell_num_step mouse_x mouse_y a Ha Hx Hy)
      as (Hb & a1 & -> & Ha1 & Hp1). fold row col in Hb, Hp1.
    rewrite bind_ok.
    destruct (IH a1 Ha1) as (a' & Hrun & Ha' & Hcell & Hother).
    exists a'. split; [done|]. split; [done|].
    rewrite Hp1 in Hcell, Hother. split.
    + rewrite Hcell, cell_upd_eq by (apply Ha || done).
      rewrite Zplus_mod_idemp_l. f_equal. lia.
    + intros r c Hb' Hne. rewrite Hother by done. by apply cell_upd_ne.
Qed.

(** X18: as long as the puzzle is only entered by hand — any sequence of
    clicks on the canvas and presses of the reset button after
    [__init__] — no handler raises, and the application state stays in
    step: the puzzle is 9×9 with values 0..9, the dictionary has the keys
    0..8 and lists, each column once, exactly the cells that are not
    empty, and both buttons are enabled exactly when some cell is not
    empty ([puzzle_is_empty] is false).  In particular the puzzle and the
    dictionary meet the preconditions of [solve_sudoku], with every cell
    outside of the dictionary empty. *)
Theorem entering_keeps_app_in_step (evs : list event) :
  ∃ a, run_events evs start = Ok a ∧ entered a ∧
       precondition (puzzle_nums a) (fixed_num_locations a) ∧
       zero_start (fixed_num_locations a) (puzzle_nums a) ∧
       (puzzle_is_empty a = true ↔
        ∀ r c, in_bounds r c → cell (puzzle_nums a) r c = 0).
Proof.
  destruct (run_events_entered evs start entered_start) as (a & Hrun & Ha).
  exists a. split; [done|]. split; [done|].
  destruct (entered_precondition a Ha). split; [done|]. split; [done|].
  by apply entered_empty.
Qed.

(** X19: on a puzzle entered by hand, a click strictly inside the board
    (both coordinates between [MARGIN] and [PUZZLE_SIZE - MARGIN]) is
    never out of range: [change_cell_num] addresses the cell of row
    [(mouse_y - MARGIN) // LINE_SPACE] and column
    [(mouse_x - MARGIN) // LINE_SPACE], which is a cell of the square,
    adds one modulo 10 to that cell and changes no other, and leaves the
    dictionary and the buttons in step with the puzzle. *)
Theorem change_cell_num_adds_one
    (evs : list event) (a : app) (mouse_x mouse_y : Z) :
  run_events evs start = Ok a →
  MARGIN < mouse_x < PUZZLE_SIZE - MARGIN →
  MARGIN < mouse_y < PUZZLE_SIZE - MARGIN →
  let row := (mouse_y - MARGIN) `div` LINE_SPACE in
  let col := (mouse_x - MARGIN) `div` LINE_SPACE in
  in_bounds row col ∧
  ∃ a', change_cell_num mouse_x mouse_y a = Ok a' ∧
        puzzle_nums a'
          = upd (puzzle_nums a) row col
                ((cell (puzzle_nums a) row col + 1) `mod` 10) ∧
        entered a'.
Proof.
  intros Hrun Hx Hy row col.
  destruct (run_events_entered evs start entered_start) as (a0 & Hrun0 & Ha).
  rewrite Hrun in Hrun0. injection Hrun0 as <-.
  destruct (change_cell_num_step mouse_x mouse_y a Ha Hx Hy)
    as (Hb & a' & Hclick & Ha' & Hp).
  split; [done|]. by exists a'.
Qed.

Lemma change_cell_num_adds_one_witness :
  in_bounds ((60 - MARGIN) `div` LINE_SPACE) ((60 - MARGIN) `div` LINE_SPACE) ∧
  ∃ a', change_cell_num 60 60 start = Ok a' ∧
        puzzle_nums a'
          = upd (puzzle_nums start) ((60 - MARGIN) `div` LINE_SPACE)
                ((60 - MARGIN) `div` LINE_SPACE)
                ((cell (puzzle_nums start) ((60 - MARGIN) `div` LINE_SPACE)
                       ((60 - MARGIN) `div` LINE_SPACE) + 1) `mod` 10) ∧
        entered a'.
Proof.
  apply (change_cell_num_adds_one [] start 60 60); [reflexivity|compute_done..].
Defined.

(** X20: ten clicks on the same cell of a puzzle entered by hand bring the
    application back: the puzzle is the same, the dictionary marks the same
    cells, and the buttons are in the same states. *)
Theorem ten_clicks_restore
    (evs : list event) (a : app) (mouse_x mouse_y : Z) :
  run_events evs start = Ok a →
  MARGIN < mouse_x < PUZZLE_SIZE - MARGIN →
  MARGIN < mouse_y < PUZZLE_SIZE - MARGIN →
  ∃ a', run_events (replicate 10 (Click mouse_x mouse_y)) a = Ok a' ∧
        puzzle_nums a' = puzzle_nums a ∧
        (∀ r c, fixed_at (fixed_num_locations a') r c ↔
                fixed_at (fixed_num_locations a) r c) ∧
        solve_button a' = solve_button a ∧
        reset_button a' = reset_button a.
Proof.
  intros Hrun Hx Hy.
  destruct (run_events_entered evs start entered_start) as (a0 & Hrun0 & Ha).
  rewrite Hrun in Hrun0. injection Hrun0 as <-.
  destruct (clicks_add 10 mouse_x mouse_y a Ha Hx Hy)
    as (a' & Hclicks & Ha' & Hcell & Hother).
  destruct (change_cell_num_step mouse_x mouse_y a Ha Hx Hy) as [Hb _].
  set (row := (mouse_y - MARGIN) `div` LINE_SPACE) in *.
  set (col := (mouse_x - MARGIN) `div` LINE_SPACE) in *.
  assert (same_cells (puzzle_nums a') (puzzle_nums a)) as Hsame.
  { intros r c Hb'. destruct (decide ((r, c) = (row, col))) as [[= -> ->]|Hne].
    - rewrite Hcell.
      pose proof (proj1 (proj2 (proj2 Ha)) _ _ Hb) as Hrange.
      rewrite <-Zplus_mod_idemp_r. change (Z.of_nat 10 `mod` 10) with 0.
      rewrite Z.add_0_r, Z.mod_small; [done|lia].
    - by apply Hother. }
  assert (puzzle_nums a' = puzzle_nums a) as Hp.
  { apply wf_grid_ext; [apply Ha'|apply Ha|done]. }
  assert (puzzle_is_empty a' = puzzle_is_empty a) as Hempty.
  { pose proof (entered_empty a Ha) as He. pose proof (entered_empty a' Ha') as He'.
    rewrite Hp in He'. rewrite <-He in He'.
    destruct (puzzle_is_empty a'), (puzzle_is_empty a); try done.
    - symmetry. by apply He'.
    - by apply He'. }
  exists a'. split; [done|]. split; [done|]. split.
  - intros r c. split; intros Hfx.
    + pose proof (entered_fixed_in_bounds a' r c Ha' Hfx) as Hb'.
      apply Ha; [done|]. rewrite <-Hp. by apply Ha'.
    + pose proof (entered_fixed_in_bounds a r c Ha Hfx) as Hb'.
      apply Ha'; [done|]. rewrite Hp. by apply Ha.
  - destruct Ha as (_ & _ & _ & _ & _ & -> & ->).
    destruct Ha' as (_ & _ & _ & _ & _ & -> & ->). by rewrite Hempty.
Qed.

Lemma ten_clicks_restore_witness :
  ∃ a', run_events (replicate 10 (Click 60 60)) start = Ok a' ∧
        puzzle_nums a' = puzzle_nums start ∧
        (∀ r c, fixed_at (fixed_num_locations a') r c ↔
                fixed_at (fixed_num_locations start) r c) ∧
        solve_button a' = solve_button start ∧
        reset_button a' = reset_button start.
Proof.
  apply (ten_clicks_restore [] start 60 60); [reflexivity|compute_done..].
Defined.

(** X21: the first press of the solve button.  On a puzzle entered by
    hand that has a solution, [click_solve] returns (with enough fuel), the
    puzzle of the application is then a solution that keeps the cells
    entered by hand, the least one in row-major lexicographic order, the
    dictionary is unchanged, the solve button is disabled and the reset
    button enabled. *)
Theorem click_solve_solves_entered_puzzle
    (evs : list event) (a : app) (h : grid) (fuel : nat) :
  run_events evs start = Ok a →
  solution (fixed_num_locations a) (puzzle_nums a) h →
  11 ^ 81 + 165 ≤ Z.of_nat fuel →
  ∃ a', click_solve fuel a = Solved a' ∧
        solution (fixed_num_locations a) (puzzle_nums a) (puzzle_nums a') ∧
        (same_cells (puzzle_nums a') h ∨ lex_lt (puzzle_nums a') h) ∧
        fixed_num_locations a' = fixed_num_locations a ∧
        solve_button a' = false ∧ reset_button a' = true.
Proof.
  intros Hrun Hsol Hfuel.
  destruct (run_events_entered evs start entered_start) as (a0 & Hrun0 & Ha).
  rewrite Hrun in Hrun0. injection Hrun0 as <-.
  destruct (entered_precondition a Ha) as [Hpre Hz].
  pose proof (run_solve_ends fuel _ _ Hpre) as Hends.
  assert (consistent (puzzle_nums a)) as Hcons.
  { eapply solution_consistent; [apply Hpre|done..]. }
  unfold click_solve.
  destruct (run_solve fuel (puzzle_nums a) (fixed_num_locations a))
    as [[] s'|e s'|s'].
  - destruct Hends as ([Hinv _] & Hfilled & _ & Hmin & _).
    destruct Hinv as (Hwf & Hfix & _ & Hkeep).
    set (a1 := App (puzzle s') (fixed_num_locations a)
                   (solve_button a) (reset_button a)).
    destruct (display_all_filled a1 Hwf Hfilled) as (Hp & Hd & _ & Hr).
    eexists. split; [done|]. cbn [puzzle_nums fixed_num_locations
                                   solve_button reset_button].
    rewrite Hp, Hd, Hr. split; [|split; [|done]].
    + split; [|done]. apply solved_of_consistent; [done|by apply Hkeep|done].
    + eapply minimal_lex; [by apply Hmin|done].
  - destruct Hends as (_ & [[_ Hnone]|[_ Hbad]]); [|done].
    destruct (Hnone Hz h Hsol).
  - destruct Hends as [_ ?]. lia.
Qed.

Lemma click_solve_solves_entered_puzzle_witness :
  ∃ a', click_solve (Z.to_nat (11 ^ 81 + 165)) start = Solved a' ∧
        solution (fixed_num_locations start) (puzzle_nums start)
                 (puzzle_nums a') ∧
        (same_cells (puzzle_nums a') relabelled ∨
         lex_lt (puzzle_nums a') relabelled) ∧
        fixed_num_locations a' = fixed_num_locations start ∧
        solve_button a' = false ∧ reset_button a' = true.
Proof.
  apply (click_solve_solves_entered_puzzle [] start relabelled
           (Z.to_nat (11 ^ 81 + 165))); [reflexivity|compute_done|].
  rewrite Z2Nat.id; lia.
Defined.
